(** * tg-project-curator: the crawl-and-selection engine of [bot.py]

    A shallow embedding of the bot's pure helpers (pagination, URL
    normalisation, description trimming, credit extraction) and of its
    stateful scheduler (refresh, backlog scan, selection, publish), together
    with the properties of the design document that can be settled on it.

    Conventions of the embedding.
    - A Python [str] is a list of Unicode code points ([list N]); [len] is
      [length], slicing is [take]/[drop].
    - A Python [int] is a [Z].
    - The [state] dictionary is a [gmap] from source ids to per-source records.
    - Everything outside the file (the network, the HTML parser, the regular
      expression engine, the random generator, the Telegram API) is a field
      of a [Runtime] record; effects are threaded through a small state and
      exception monad. *)

From Stdlib Require Import ZArith NArith Lia.
From Stdlib Require Import Decimal DecimalString DecimalZ.
From stdpp Require Import base strings list gmap.

Local Open Scope N_scope.
Local Open Scope list_scope.

(* ===================================================================== *)
(** * Python strings *)
(* ===================================================================== *)

Abbreviation str := (list N) (only parsing).

(** An ASCII literal, as code points. *)
Definition lit (s : string) : str :=
  List.map Ascii.N_of_ascii (String.list_ascii_of_string s).

(** [str.isspace] on one code point; this is also the class [\s] of [re]
    on [str] patterns. *)
Definition isspace (c : N) : bool :=
  ((9 <=? c) && (c <=? 13)) || ((28 <=? c) && (c <=? 32))
  || (c =? 133) || (c =? 160) || (c =? 5760)
  || ((8192 <=? c) && (c <=? 8202))
  || (c =? 8232) || (c =? 8233) || (c =? 8239) || (c =? 8287) || (c =? 12288).

(** [s.lstrip(chars)], for a class of code points. *)
Fixpoint lstrip_by (f : N -> bool) (s : str) : str :=
  match s with
  | c :: s' => if f c then lstrip_by f s' else s
  | [] => []
  end.

(** [s.rstrip(chars)], for a class of code points. *)
Fixpoint rstrip_by (f : N -> bool) (s : str) : str :=
  match s with
  | c :: s' =>
      match rstrip_by f s' with
      | [] => if f c then [] else [c]
      | r => c :: r
      end
  | [] => []
  end.

Definition lstrip (s : str) : str := lstrip_by isspace s.
Definition rstrip (s : str) : str := rstrip_by isspace s.
(** [s.strip()] *)
Definition strip (s : str) : str := rstrip (lstrip s).

(** [s.split(sep)[0]] for a one-character separator: the text before the
    first [sep], all of [s] when there is none. *)
Fixpoint before (f : N -> bool) (s : str) : str :=
  match s with
  | c :: s' => if f c then [] else c :: before f s'
  | [] => []
  end.

(** [s.startswith(p)], returning the remainder. *)
Fixpoint strip_prefix (p s : str) : option str :=
  match p, s with
  | [], _ => Some s
  | a :: p', b :: s' => if a =? b then strip_prefix p' s' else None
  | _ :: _, [] => None
  end.

(** [sub in s] *)
Fixpoint contains (sub s : str) : bool :=
  match strip_prefix sub s with
  | Some _ => true
  | None => match s with
            | _ :: s' => contains sub s'
            | [] => false
            end
  end.

Definition chr_slash : N := 47.
Definition chr_hash : N := 35.
Definition chr_question : N := 63.
Definition chr_amp : N := 38.
Definition chr_lf : N := 10.
Definition chr_cr : N := 13.
Definition chr_bar : N := 124.
Definition chr_bullet : N := 8226.      (* U+2022 *)
Definition chr_middot : N := 183.       (* U+00B7 *)
Definition chr_ellipsis : N := 8230.    (* U+2026 *)
Definition chr_space : N := 32.

(** [f"{n}"] for an [int]. *)
Definition format_int (z : Z) : str :=
  lit (NilZero.string_of_int (Z.to_int z)).

(** [re.sub(r"\s+", " ", s)]: every maximal run of whitespace becomes one
    space.  [in_run] tells that the previous character was whitespace. *)
Fixpoint collapse_ws_from (in_run : bool) (s : str) : str :=
  match s with
  | c :: s' =>
      if isspace c
      then (if in_run then collapse_ws_from true s'
            else chr_space :: collapse_ws_from true s')
      else c :: collapse_ws_from false s'
  | [] => []
  end.

Definition collapse_ws (s : str) : str := collapse_ws_from false s.

(** Python truthiness of an [Optional[str]]: [None] and [""] are falsy. *)
Definition truthy (o : option str) : bool :=
  match o with
  | Some (_ :: _) => true
  | _ => false
  end.

(** [a or b] on [Optional[str]] values. *)
Definition py_or (a b : option str) : option str :=
  if truthy a then a else b.

(** [u in set(l)] *)
Definition py_in (u : str) (l : list str) : bool := bool_decide (u ∈ l).

(** [l[-k:]] on a list. *)
Definition last_k {A} (k : nat) (l : list A) : list A :=
  drop (length l - k) l.

(* ===================================================================== *)
(** * Data model *)
(* ===================================================================== *)

(** [class Source] *)
Record Source := {
  id : str;
  name : str;
  list_url : str;
  paging : str;
}.

(** One value of the [state] dictionary.  [archive_page] is optional because
    the scan reads it with [s.get("archive_page", 1)]. *)
Record SourceState := {
  sent_urls : list str;
  queue_new : list str;
  archive_page : option Z;
}.

(** The dictionary returned by [parse_project]. *)
Record Project := {
  title : str;
  desc : option str;
  authors : option str;
  photographer : option str;
  preview : option str;
  url : str;
}.

(** Texts handed to the Telegram API.  Their HTML rendering
    ([format_caption] and the two notice templates) is not modelled. *)
Inductive Message :=
| NoProjectNotice (source_name : str)
| ParseErrorNotice (source_name link : str)
| Caption (source_name : str) (project : Project).

Inductive TgCall :=
| SendPhoto (photo_url : str) (caption : Message)
| SendMessage (text : Message).

(** What the program takes from outside [bot.py].
    - [isdecimal] is the class [\d] of [re] (Unicode category Nd, which
      contains the ASCII digits);
    - [re_search pat text] is group 1 of
      [re.search(pat, text, flags=re.IGNORECASE)];
    - [requests_get] is [requests.get] followed by [raise_for_status]:
      [None] stands for a raised exception;
    - [random_shuffle] is [random.shuffle];
    - [extract_links_from_list] is the link extractor, a function of the
      source and the document: [None] stands for a raised exception (the
      feed branch hands the document to [ET.fromstring], which raises on a
      document that is not well-formed);
    - the [soup_*] fields stand for the queries made on a parsed page;
    - [requests_post] is [requests.post] on the Telegram API followed by
      [.ok]: the flag of the response, [None] when the call raises (a
      connection error, a timeout). *)
Record Runtime := {
  isdecimal : N -> bool;
  isdecimal_ascii : forall c, 48 <= c <= 57 -> isdecimal c = true;
  re_search : str -> str -> option str;
  World : Type;
  requests_get : str -> World -> option str * World;
  random_shuffle : list str -> World -> list str * World;
  random_shuffle_perm : forall l w, (random_shuffle l w).1 ≡ₚ l;
  extract_links_from_list : Source -> str -> option (list str);
  Soup : Type;
  BeautifulSoup : str -> Soup;
  soup_meta : Soup -> str -> option str;
  soup_h1 : Soup -> option str;
  soup_select_one : Soup -> str -> option str;
  soup_get_text : Soup -> str;
  requests_post : TgCall -> World -> option bool * World;
}.

(* ===================================================================== *)
(** * Pure helpers of [bot.py] *)
(* ===================================================================== *)

Section Pure.
Context (R : Runtime).

(** [utc_mode], as a function of the current UTC hour. *)
Definition utc_mode (hour : Z) : str :=
  if (hour <? 12)%Z then lit "morning" else lit "evening".

(** ** [build_paged_url] *)

(** The class [[?&]] of the pattern [([?&])page=\d+]. *)
Definition is_page_sep (c : N) : bool := (c =? chr_question) || (c =? chr_amp).

(** Length of the maximal prefix of [s] in class [f]. *)
Fixpoint span_len (f : N -> bool) (s : str) : nat :=
  match s with
  | c :: s' => if f c then S (span_len f s') else O
  | [] => O
  end.

(** When [s] starts with [page=\d+], the number of characters the greedy
    match takes. *)
Definition page_param_len (s : str) : option nat :=
  match strip_prefix (lit "page=") s with
  | Some (d :: r) =>
      if isdecimal R d then Some (5 + S (span_len (isdecimal R) r))%nat else None
  | _ => None
  end.

(** [re.search(r"([?&])page=\d+", s)] as a truth value. *)
Fixpoint re_search_page (s : str) : bool :=
  match s with
  | c :: s' =>
      if is_page_sep c && bool_decide (is_Some (page_param_len s')) then true
      else re_search_page s'
  | [] => false
  end.

(** [re.sub(r"([?&])page=\d+", rf"\1page={page}", s)]: a left-to-right scan
    replacing every non-overlapping match; [skip] counts the characters of
    the current match that are still to be consumed. *)
Fixpoint re_sub_page_from (skip : nat) (page : str) (s : str) : str :=
  match s with
  | c :: s' =>
      match skip with
      | S k => re_sub_page_from k page s'
      | O =>
          if is_page_sep c then
            match page_param_len s' with
            | Some k => c :: lit "page=" ++ page ++ re_sub_page_from k page s'
            | None => c :: re_sub_page_from O page s'
            end
          else c :: re_sub_page_from O page s'
      end
  | [] => []
  end.

Definition re_sub_page (page : str) (s : str) : str := re_sub_page_from O page s.

Definition is_slash (c : N) : bool := c =? chr_slash.

Definition build_paged_url (source : Source) (page : Z) : str :=
  if (page <=? 1)%Z then list_url source
  else if bool_decide (paging source = lit "wp_page") then
    rstrip_by is_slash (list_url source) ++ lit "/page/" ++ format_int page ++ lit "/"
  else if bool_decide (paging source = lit "dezeen_page") then
    rstrip_by is_slash (list_url source) ++ lit "/page/" ++ format_int page ++ lit "/"
  else if bool_decide (paging source = lit "archdaily_search_page") then
    if contains (lit "?") (list_url source) then
      if re_search_page (list_url source)
      then re_sub_page (format_int page) (list_url source)
      else list_url source ++ lit "&page=" ++ format_int page
    else list_url source ++ lit "?page=" ++ format_int page
  else if bool_decide (paging source = lit "archdaily_category_page") then
    rstrip_by is_slash (list_url source) ++ lit "/page/" ++ format_int page
  else
    rstrip_by is_slash (list_url source) ++ lit "/page/" ++ format_int page ++ lit "/".

(** ** [normalize_url] *)

Definition normalize_url (url : str) : str :=
  let url := strip url in
  let url := before (N.eqb chr_hash) url in
  if contains (lit "?") url && negb (contains (lit "archdaily.com/search/") url)
  then before (N.eqb chr_question) url
  else url.

(** ** [find_credit] *)

(** The class [[\n\r|•·]] on which a captured credit is cut. *)
Definition is_credit_sep (c : N) : bool :=
  (c =? chr_lf) || (c =? chr_cr) || (c =? chr_bar)
  || (c =? chr_bullet) || (c =? chr_middot).

(** The two statements applied to group 1 of a match. *)
Definition credit_value (group1 : str) : str :=
  strip (before is_credit_sep (strip group1)).

Fixpoint find_credit (text : str) (patterns : list str) : option str :=
  match patterns with
  | pat :: rest =>
      match re_search R pat text with
      | Some group1 =>
          let val := credit_value group1 in
          if (2 <=? length val)%nat && (length val <=? 120)%nat
          then Some val
          else find_credit text rest
      | None => find_credit text rest
      end
  | [] => None
  end.

(** ** The description snippet of [parse_project] (the [if desc:] block) *)

Definition trim_desc (desc : option str) : option str :=
  if truthy desc then
    match desc with
    | Some d =>
        let d := collapse_ws (strip d) in
        if (320 <? length d)%nat
        then Some (rstrip (take 317 d) ++ [chr_ellipsis])
        else Some d
    | None => None
    end
  else desc.

End Pure.

(* ===================================================================== *)
(** * The stateful part: scheduler and run orchestrator *)
(* ===================================================================== *)

(** Outcome of a call: a returned value, or a raised exception. *)
Inductive Res (A : Type) :=
| Returned (a : A)
| Raised.
Arguments Returned {A} a.
Arguments Raised {A}.

Section Bot.
Context (R : Runtime).

(** Everything a call can read or change: the in-memory [state] dictionary,
    the outside world, and two logs kept for the specification only: the
    URLs requested with [http_get], each with the document received
    ([None] for a failed request), and the Telegram calls made, whether
    they returned or raised. *)
Record Store := {
  state : gmap (list N) SourceState;
  world : World R;
  fetched : list (list N * option (list N));
  telegram : list TgCall;
}.

Definition M (A : Type) : Type := Store -> Res A * Store.

Definition ret {A} (a : A) : M A := fun σ => (Returned a, σ).

Definition bind {A B} (m : M A) (k : A -> M B) : M B := fun σ =>
  match m σ with
  | (Returned a, σ') => k a σ'
  | (Raised, σ') => (Raised, σ')
  end.

Definition raise {A} : M A := fun σ => (Raised, σ).

(** [try: m  except Exception: h] *)
Definition try_except {A} (m h : M A) : M A := fun σ =>
  match m σ with
  | (Returned a, σ') => (Returned a, σ')
  | (Raised, σ') => h σ'
  end.

Notation "x <- m ;; k" := (bind m (fun x => k))
  (at level 100, m at next level, right associativity).
Notation "m ;; k" := (bind m (fun _ => k))
  (at level 100, right associativity).

Definition with_state (f : gmap (list N) SourceState -> gmap (list N) SourceState)
    (σ : Store) : Store :=
  {| state := f (state σ); world := world σ;
     fetched := fetched σ; telegram := telegram σ |}.

(** [state[key]]; a missing key raises [KeyError]. *)
Definition get_entry (key : str) : M SourceState := fun σ =>
  match state σ !! key with
  | Some s => (Returned s, σ)
  | None => (Raised, σ)
  end.

(** In-place mutation of the dictionary [state[key]]. *)
Definition update_entry (key : str) (f : SourceState -> SourceState) : M unit :=
  fun σ => (Returned tt, with_state (alter f key) σ).

Definition set_queue_new (q : list str) (s : SourceState) : SourceState :=
  {| sent_urls := sent_urls s; queue_new := q; archive_page := archive_page s |}.
Definition set_sent_urls (l : list str) (s : SourceState) : SourceState :=
  {| sent_urls := l; queue_new := queue_new s; archive_page := archive_page s |}.
Definition set_archive_page (p : Z) (s : SourceState) : SourceState :=
  {| sent_urls := sent_urls s; queue_new := queue_new s; archive_page := Some p |}.

(** [s.get("archive_page", 1)] *)
Definition get_archive_page (s : SourceState) : Z := default 1%Z (archive_page s).

(** [http_get]: one request, logged; a failed request raises. *)
Definition http_get (u : str) : M str := fun σ =>
  let '(r, w) := requests_get R u (world σ) in
  let σ' := {| state := state σ; world := w;
               fetched := fetched σ ++ [(u, r)];
               telegram := telegram σ |} in
  match r with
  | Some html => (Returned html, σ')
  | None => (Raised, σ')
  end.

(** [random.shuffle(links)] *)
Definition shuffle (links : list str) : M (list str) := fun σ =>
  let '(l, w) := random_shuffle R links (world σ) in
  (Returned l, {| state := state σ; world := w;
                  fetched := fetched σ; telegram := telegram σ |}).

(** [extract_links_from_list(source, html)], which may raise. *)
Definition extract_links (source : Source) (html : str) : M (list str) :=
  fun σ =>
    match extract_links_from_list R source html with
    | Some links => (Returned links, σ)
    | None => (Raised, σ)
    end.

(** One call of the Telegram API, logged; the exception of [requests.post]
    is not caught by [tg_send_photo] and [tg_send_message]. *)
Definition tg_call (c : TgCall) : M bool := fun σ =>
  let '(r, w) := requests_post R c (world σ) in
  let σ' := {| state := state σ; world := w;
               fetched := fetched σ; telegram := telegram σ ++ [c] |} in
  match r with
  | Some ok => (Returned ok, σ')
  | None => (Raised, σ')
  end.

Definition tg_send_photo (photo_url : str) (caption : Message) : M bool :=
  tg_call (SendPhoto photo_url caption).
Definition tg_send_message (text : Message) : M bool :=
  tg_call (SendMessage text).

(** ** [ensure_source_state] *)

Definition default_state : SourceState :=
  {| sent_urls := []; queue_new := []; archive_page := Some 1%Z |}.

Definition ensure_source_state (source_id : str) : M unit := fun σ =>
  match state σ !! source_id with
  | Some _ => (Returned tt, σ)
  | None => (Returned tt, with_state <[source_id := default_state]> σ)
  end.

(** ** [add_new_links_to_queue] *)

(** The [for u in links] loop; [sent] and [queued] are the two sets built
    before the loop, [q] is the list being appended to. *)
Fixpoint append_new (sent queued : list str) (links : list str) (q : list str)
  : list str :=
  match links with
  | u :: rest =>
      if negb (py_in u sent) && negb (py_in u queued)
      then append_new sent queued rest (q ++ [u])
      else append_new sent queued rest q
  | [] => q
  end.

Definition add_new_links_to_queue (source : Source) (links : list str) : M unit :=
  s <- get_entry (id source) ;;
  let sent := sent_urls s in
  let queued := queue_new s in
  update_entry (id source)
    (fun s => set_queue_new (append_new sent queued links (queue_new s)) s).

(** ** [pick_old_link] *)

(** First link of the shuffled list that is not in [sent]. *)
Definition first_unseen (sent : list str) (links : list str) : option str :=
  List.find (fun u => negb (py_in u sent)) links.

(** [n] iterations of the [for _ in range(1, 6)] loop.  Only [http_get]
    is inside the [try]: an exception of the extractor leaves the loop. *)
Fixpoint scan_pages (n : nat) (source : Source) (sent : list str)
  : M (option str) :=
  match n with
  | S n' =>
      s <- get_entry (id source) ;;
      let page := get_archive_page s in
      let u := build_paged_url R source page in
      r <- try_except (html <- http_get u ;; ret (Some html)) (ret None) ;;
      match r with
      | None => ret None
      | Some html =>
          extracted <- extract_links source html ;;
          links <- shuffle extracted ;;
          match first_unseen sent links with
          | Some u =>
              update_entry (id source) (set_archive_page (page + 1)) ;;
              ret (Some u)
          | None =>
              update_entry (id source) (set_archive_page (page + 1)) ;;
              scan_pages n' source sent
          end
      end
  | O => ret None
  end.

Definition pick_old_link (source : Source) : M (option str) :=
  s <- get_entry (id source) ;;
  scan_pages 5 source (sent_urls s).

(** ** [pick_link_for_run] *)

(** [s["queue_new"].pop(0)] guarded by [if s["queue_new"]]; [otherwise] runs
    when the queue is empty. *)
Definition pop_queue_or (source : Source) (otherwise : M (option str))
  : M (option str) :=
  s <- get_entry (id source) ;;
  match queue_new s with
  | u :: q => update_entry (id source) (set_queue_new q) ;; ret (Some u)
  | [] => otherwise
  end.

Definition pick_link_for_run (source : Source) (mode : str) : M (option str) :=
  get_entry (id source) ;;
  if bool_decide (mode = lit "morning") then
    pop_queue_or source (pick_old_link source)
  else
    old <- pick_old_link source ;;
    if truthy old then ret old
    else pop_queue_or source (ret None).

(** ** [parse_project] *)

Definition meta_content (soup : Soup R) (prop : str) : option str :=
  match soup_meta R soup prop with
  | Some content => if truthy (Some content) then Some (strip content) else None
  | None => None
  end.

Definition paragraph_selectors : list str :=
  [lit "article p"; lit ".article__body p"; lit ".post-content p";
   lit ".entry-content p"; lit "main p"].

(** The [for sel in ...] loop of [find_first_paragraph]; the text of a
    paragraph is [" ".join(p.get_text(" ", strip=True).split())]. *)
Fixpoint first_paragraph_in (soup : Soup R) (sels : list str) : option str :=
  match sels with
  | sel :: rest =>
      match soup_select_one R soup sel with
      | Some t =>
          let txt := collapse_ws (strip t) in
          if (50 <=? length txt)%nat then Some txt
          else first_paragraph_in soup rest
      | None => first_paragraph_in soup rest
      end
  | [] => None
  end.

Definition find_first_paragraph (soup : Soup R) : option str :=
  first_paragraph_in soup paragraph_selectors.

(** The credit patterns of one site: (authors, photographer). *)
Definition credit_patterns (domain : str) : list str * list str :=
  if contains (lit "leibal.com") domain then
    ([lit "Architects?:\s*([^\n]+)";
      lit "Design(?:er|ers)?:\s*([^\n]+)";
      lit "Studio:\s*([^\n]+)"],
     [lit "Photographs?:\s*([^\n]+)";
      lit "Photography:\s*([^\n]+)";
      lit "Photo(?:s)?\s*by\s*([^\n]+)"])
  else if contains (lit "archdaily.com") domain then
    ([lit "Architects?:\s*([^\n]+)";
      lit "Architecture(?:\s*Firm)?:\s*([^\n]+)";
      lit "Design(?:\s*Team)?:\s*([^\n]+)"],
     [lit "Photographs?:\s*([^\n]+)";
      lit "Photography:\s*([^\n]+)"])
  else if contains (lit "dezeen.com") domain then
    ([lit "by\s+([A-Z][^\n]{2,80})";
      lit "Architecture\s+by\s*([^\n]+)";
      lit "Design\s+by\s*([^\n]+)"],
     [lit "Photography\s+by\s*([^\n]+)";
      lit "Photographs?\s+by\s*([^\n]+)";
      lit "Photos?\s+by\s*([^\n]+)"])
  else if contains (lit "landezine") domain then
    ([lit "Landscape\s+Architect(?:ure)?\s*:\s*([^\n]+)";
      lit "Office\s*:\s*([^\n]+)";
      lit "Design\s*:\s*([^\n]+)"],
     [lit "Photographer\s*:\s*([^\n]+)";
      lit "Photography\s*:\s*([^\n]+)";
      lit "Photo(?:s)?\s*:\s*([^\n]+)"])
  else if contains (lit "worldlandscapearchitect") domain then
    ([lit "Landscape\s+Architect(?:ure)?\s*:\s*([^\n]+)";
      lit "Designer\s*:\s*([^\n]+)";
      lit "Firm\s*:\s*([^\n]+)"],
     [lit "Photographer\s*:\s*([^\n]+)";
      lit "Photography\s*:\s*([^\n]+)";
      lit "Photo(?:s)?\s*:\s*([^\n]+)"])
  else ([], []).

(** The part of [parse_project] after the page has been fetched. *)
Definition project_of_page (link : str) (html : str) : Project :=
  let soup := BeautifulSoup R html in
  let title :=
    py_or (meta_content soup (lit "og:title"))
          (match soup_h1 R soup with Some h => Some h | None => Some link end) in
  let desc :=
    py_or (meta_content soup (lit "og:description")) (find_first_paragraph soup) in
  let preview := meta_content soup (lit "og:image") in
  let full_text := soup_get_text R soup in
  let pats := credit_patterns link in
  {| title := match title with
              | Some t => if truthy title then strip t else link
              | None => link
              end;
     desc := trim_desc desc;
     authors := find_credit R full_text pats.1;
     photographer := find_credit R full_text pats.2;
     preview := preview;
     url := link |}.

Definition parse_project (link : str) : M Project :=
  html <- http_get link ;;
  ret (project_of_page link html).

(** ** [main] *)

(** The refresh phase for one source (first loop of [main]); here the
    extractor is called inside the [try]. *)
Definition refresh_source (src : Source) : M unit :=
  ensure_source_state (id src) ;;
  try_except
    (html <- http_get (list_url src) ;;
     links <- extract_links src html ;;
     add_new_links_to_queue src links)
    (ret tt).

(** The three statements under [# mark as sent]. *)
Definition mark_sent (src : Source) (link : str) : M unit :=
  get_entry (id src) ;;
  update_entry (id src) (fun st => set_sent_urls (sent_urls st ++ [link]) st) ;;
  st <- get_entry (id src) ;;
  if (5000 <? length (sent_urls st))%nat
  then update_entry (id src) (set_sent_urls (last_k 5000 (sent_urls st)))
  else ret tt.

(** The [try] block of the second loop; an exception of a Telegram call
    made in it is caught with the others. *)
Definition send_project (src : Source) (link : str) : M unit :=
  project <- parse_project link ;;
  let caption := Caption (name src) project in
  sent_ok <-
    match preview project with
    | Some p =>
        if truthy (Some p) && bool_decide (is_Some (strip_prefix (lit "http") p))
        then tg_send_photo p caption
        else ret false
    | None => ret false
    end ;;
  if sent_ok then ret tt else (tg_send_message caption ;; ret tt).

(** The selection and publish phase for one source (second loop).  The
    two notices are sent outside the [try] (the error notice from the
    [except] clause): an exception of theirs leaves the loop, as does an
    exception of the selection. *)
Definition publish_source (mode : str) (src : Source) : M unit :=
  ensure_source_state (id src) ;;
  link <- pick_link_for_run src mode ;;
  match link with
  | Some l =>
      if truthy link then
        sent <- try_except
                  (send_project src l ;; ret true)
                  (tg_send_message (ParseErrorNotice (name src) l) ;; ret false) ;;
        if sent : bool then mark_sent src l else ret tt
      else tg_send_message (NoProjectNotice (name src)) ;; ret tt
  | None => tg_send_message (NoProjectNotice (name src)) ;; ret tt
  end.

Fixpoint for_each {A} (f : A -> M unit) (l : list A) : M unit :=
  match l with
  | x :: l' => f x ;; for_each f l'
  | [] => ret tt
  end.

(** [main], between [load_state] and [save_state], for a given mode and
    source list. *)
Definition main (mode : str) (sources : list Source) : M unit :=
  for_each refresh_source sources ;;
  for_each (publish_source mode) sources.

(** One execution of the program on the state loaded from disk:
    [save_state] is reached only when [main] returns, otherwise the stored
    state stays what it was. *)
Definition run (mode : str) (sources : list Source) (σ : Store) : Store :=
  match main mode sources σ with
  | (Returned _, σ') => σ'
  | (Raised, σ') =>
      {| state := state σ; world := world σ';
         fetched := fetched σ'; telegram := telegram σ' |}
  end.

(** Successive executions, each with its mode and its source list. *)
Fixpoint runs (plan : list (list N * list Source)) (σ : Store) : Store :=
  match plan with
  | (mode, sources) :: rest => runs rest (run mode sources σ)
  | [] => σ
  end.

End Bot.

Arguments state {R} _.
Arguments world {R} _.
Arguments fetched {R} _.
Arguments telegram {R} _.
Arguments ret {R A} a.
Arguments bind {R A B} m k.
Arguments try_except {R A} m h.

(* ===================================================================== *)
(** * Vocabulary of the statements *)
(* ===================================================================== *)

(** The needle of the query test of [normalize_url]. *)
Definition needle_search : str := Eval vm_compute in lit "archdaily.com/search/".

(** [s] does not start with a character of the class [\d]. *)
Definition digit_free_head (R : Runtime) (s : str) : Prop :=
  match s with
  | c :: _ => isdecimal R c = false
  | [] => True
  end.

(** The entry of a source after [m] pages of its backlog were fetched. *)
Definition advance (m : nat) (s : SourceState) : SourceState :=
  match m with
  | O => s
  | S _ => set_archive_page (get_archive_page s + Z.of_nat m) s
  end.

(** Number of successful requests in a piece of the request log. *)
Definition successes (log : list (list N * option (list N))) : nat :=
  length (omap snd log).

(** Number of pages that a scan has recorded in the cursor: the pages
    fetched, less the last one when the scan raised on it. *)
Definition recorded {A} (log : list (list N * option (list N))) (r : Res A)
    : nat :=
  match r with
  | Returned _ => successes log
  | Raised => pred (successes log)
  end.

(** What a scan that started at page [p0] with [n] iterations left may have
    logged, and how it ended. *)
Definition scan_facts (R : Runtime) (source : Source) (sent : list str)
    (p0 : Z) (n : nat) (log : list (list N * option (list N)))
    (r : Res (option str)) : Prop :=
  (length log <= n)%nat
  /\ (forall i e, log !! i = Some e ->
        e.1 = build_paged_url R source (p0 + Z.of_nat i))
  /\ (forall i u, log !! i = Some (u, None) ->
        S i = length log /\ r = Returned None)
  /\ (r = Returned None ->
        (exists u, last log = Some (u, None)) \/ length log = n)
  /\ (forall v, r = Returned (Some v) ->
        (v ∉ sent)
        /\ exists u html links,
             last log = Some (u, Some html)
             /\ extract_links_from_list R source html = Some links
             /\ v ∈ links)
  /\ (r = Raised <->
        exists u html, last log = Some (u, Some html)
                       /\ extract_links_from_list R source html = None)
  /\ (forall i u html, log !! i = Some (u, Some html) ->
        ((S i < length log)%nat \/ r = Returned None) ->
        exists links, extract_links_from_list R source html = Some links
                      /\ forall v, v ∈ links -> v ∈ sent).

(** The store after [s["queue_new"].pop(0)] left the tail [q]. *)
Definition popped {R : Runtime} (source : Source) (q : list str) (σ : Store R)
  : Store R :=
  with_state R (alter (set_queue_new q) (id source)) σ.

(** No two whitespace characters in a row; [prev] tells whether the
    character in front of [s] is whitespace. *)
Fixpoint ws_separated_from (prev : bool) (s : str) : Prop :=
  match s with
  | c :: s' => (prev = true -> isspace c = false)
               /\ ws_separated_from (isspace c) s'
  | [] => True
  end.

(** A pattern is passed over when it does not match or when the value cut
    from its match has a length outside 2..120. *)
Definition credit_rejected (R : Runtime) (text pat : str) : Prop :=
  re_search R pat text = None
  \/ exists group1, re_search R pat text = Some group1
                    /\ ~ (2 <= length (credit_value group1) <= 120)%nat.

(** Every queue of the state dictionary is free of duplicates. *)
Definition queues_nodup (m : gmap (list N) SourceState) : Prop :=
  forall k e, m !! k = Some e -> NoDup (queue_new e).

(* ===================================================================== *)
(** * Concrete runtimes, sources and stores used in the examples *)
(* ===================================================================== *)

Definition is_ascii_digit (c : N) : bool := (48 <=? c) && (c <=? 57).

(** A static web: [site u] is the list of links found on the page at [u],
    [None] when requesting [u] fails.  A document is identified with the
    URL it was served from; pages carry no metadata, shuffling keeps the
    order, the extractor and Telegram accept everything, and [search] is
    the regular expression engine. *)
Definition static_runtime (site : str -> option (list str))
    (search : str -> str -> option str) : Runtime :=
  {| isdecimal := is_ascii_digit;
     isdecimal_ascii := fun c H =>
       andb_true_intro (conj (proj2 (N.leb_le 48 c) (proj1 H))
                             (proj2 (N.leb_le c 57) (proj2 H)));
     re_search := search;
     World := unit;
     requests_get := fun u w => (match site u with
                                 | Some _ => Some u
                                 | None => None
                                 end, w);
     random_shuffle := fun l w => (l, w);
     random_shuffle_perm := fun l w => reflexivity l;
     extract_links_from_list := fun _ html => Some (default [] (site html));
     Soup := unit;
     BeautifulSoup := fun _ => tt;
     soup_meta := fun _ _ => None;
     soup_h1 := fun _ => None;
     soup_select_one := fun _ _ => None;
     soup_get_text := fun _ => [];
     requests_post := fun _ w => (Some true, w) |}.

Definition no_search : str -> str -> option str := fun _ _ => None.

(** A web where more can go wrong: [site u] is [None] when requesting [u]
    fails, [Some None] when the page comes but the extractor raises on it,
    and [Some (Some links)] when the page comes with these links; [post] is
    the outcome of a Telegram call, [None] when it raises. *)
Definition web_runtime (site : str -> option (option (list str)))
    (post : TgCall -> option bool) : Runtime :=
  {| isdecimal := is_ascii_digit;
     isdecimal_ascii := fun c H =>
       andb_true_intro (conj (proj2 (N.leb_le 48 c) (proj1 H))
                             (proj2 (N.leb_le c 57) (proj2 H)));
     re_search := no_search;
     World := unit;
     requests_get := fun u w => (match site u with
                                 | Some _ => Some u
                                 | None => None
                                 end, w);
     random_shuffle := fun l w => (l, w);
     random_shuffle_perm := fun l w => reflexivity l;
     extract_links_from_list := fun _ html => default (Some []) (site html);
     Soup := unit;
     BeautifulSoup := fun _ => tt;
     soup_meta := fun _ _ => None;
     soup_h1 := fun _ => None;
     soup_select_one := fun _ _ => None;
     soup_get_text := fun _ => [];
     requests_post := fun c w => (post c, w) |}.

Definition empty_store (R : Runtime) (w : World R) : Store R :=
  {| state := ∅; world := w; fetched := []; telegram := [] |}.

Definition demo_runtime : Runtime := static_runtime (fun _ => None) no_search.

Definition archdaily_paged : Source :=
  {| id := lit "archdaily"; name := lit "ArchDaily";
     list_url := lit "https://www.archdaily.com/search/projects/categories/houses?page=2";
     paging := lit "archdaily_search_page" |}.

Definition leibal : Source :=
  {| id := lit "leibal"; name := lit "Leibal";
     list_url := lit "https://leibal.com/";
     paging := lit "wp_page" |}.

Definition url_b : str := lit "https://leibal.com/interiors/b/".
Definition url_a : str := lit "https://leibal.com/architecture/a/".

(** A site whose front page lists the single article [url_b]; the articles
    [url_a] and [url_b] can be fetched, and there is no second listing
    page. *)
Definition leibal_web : Runtime :=
  static_runtime
    (fun u => if bool_decide (u = lit "https://leibal.com/") then Some [url_b]
              else if bool_decide (u = url_b) then Some []
              else if bool_decide (u = url_a) then Some []
              else None)
    no_search.


(** A feed source; one item of the feed has a blank [<link>], which the
    feed branch of the extractor turns into the empty string. *)
Definition landezine_feed : Source :=
  {| id := lit "landezine"; name := lit "Landezine";
     list_url := lit "https://landezine.com/feed/";
     paging := lit "rss" |}.


(** The feed of [landezine_feed] when its document is not well-formed: the
    request succeeds and the extractor raises on the document. *)
Definition broken_feed_web : Runtime :=
  web_runtime
    (fun u => if bool_decide (u = lit "https://landezine.com/feed/")
              then Some None else None)
    (fun _ => Some true).

(** The site of [leibal_web] seen from a machine that reaches the site but
    not Telegram: every Telegram call raises. *)
Definition leibal_web_mute : Runtime :=
  web_runtime
    (fun u => if bool_decide (u = lit "https://leibal.com/") then Some (Some [url_b])
              else if bool_decide (u = url_b) then Some (Some [])
              else if bool_decide (u = url_a) then Some (Some [])
              else None)
    (fun _ => None).

(** No network at all: every request and every Telegram call raises. *)
Definition offline : Runtime := web_runtime (fun _ => None) (fun _ => None).

Definition store_of (R : Runtime) (w : World R) (key : str) (s : SourceState)
  : Store R :=
  {| state := {[ key := s ]}; world := w; fetched := []; telegram := [] |}.

Definition queued_a : SourceState :=
  {| sent_urls := []; queue_new := [url_a]; archive_page := Some 1%Z |}.

Definition sent_b : SourceState :=
  {| sent_urls := [url_b]; queue_new := []; archive_page := Some 1%Z |}.

(** ** A regular expression engine for label patterns

    [label_search] is [re.search(pat, text, re.IGNORECASE)] followed by
    [group(1)] for patterns [LABEL\s*([^\n]+)] whose label is made of ASCII
    letters, digits and colons, on ASCII text; other patterns are not
    interpreted. *)

Definition ascii_lower (c : N) : N :=
  if (65 <=? c) && (c <=? 90) then c + 32 else c.

Definition is_label_char (c : N) : bool :=
  is_ascii_digit c || ((97 <=? ascii_lower c) && (ascii_lower c <=? 122))
  || (c =? 58).

Fixpoint strip_prefix_nocase (p s : str) : option str :=
  match p, s with
  | [], _ => Some s
  | a :: p', b :: s' =>
      if ascii_lower a =? ascii_lower b then strip_prefix_nocase p' s' else None
  | _ :: _, [] => None
  end.

(** Group 1 of a match of [\s*([^\n]+)] at the head of [rest]: the line
    after the whitespace; when only whitespace is left, backtracking gives
    its last character that is not a line feed. *)
Definition line_group (rest : str) : option str :=
  match lstrip rest with
  | c :: r => Some (before (N.eqb chr_lf) (c :: r))
  | [] =>
      match reverse (List.filter (fun c => negb (c =? chr_lf)) rest) with
      | c :: _ => Some [c]
      | [] => None
      end
  end.

Fixpoint search_label (label text : str) : option str :=
  match
    match strip_prefix_nocase label text with
    | Some rest => line_group rest
    | None => None
    end
  with
  | Some g => Some g
  | None =>
      match text with
      | _ :: text' => search_label label text'
      | [] => None
      end
  end.

Definition label_search (pat text : str) : option str :=
  match strip_prefix (reverse (lit "\s*([^\n]+)")) (reverse pat) with
  | Some rev_label =>
      if forallb is_label_char rev_label
      then search_label (reverse rev_label) text
      else None
  | None => None
  end.

Definition label_runtime : Runtime := static_runtime (fun _ => None) label_search.

Definition credits_text : str :=
  lit "Photography: -" ++ [chr_lf] ++ lit "Studio: Foster + Partners".

Definition credit_patterns_demo : list str :=
  [lit "Photography:\s*([^\n]+)"; lit "Studio:\s*([^\n]+)"].

(* ===================================================================== *)
(** * [format_caption] *)
(* ===================================================================== *)

Definition chr_lt : N := 60.
Definition chr_gt : N := 62.

(** [s.replace(c, rep)] for a one-character [c]. *)
Definition replace_char (c : N) (rep : str) (s : str) : str :=
  flat_map (fun x => if x =? c then rep else [x]) s.

(** The local function [esc] of [format_caption]. *)
Definition esc (s : str) : str :=
  replace_char chr_gt (lit "&gt;")
    (replace_char chr_lt (lit "&lt;")
       (replace_char chr_amp (lit "&amp;") s)).

(** The escape of one character: one pass with [esc_char] has the effect
    of the three replacements. *)
Definition esc_char (c : N) : str :=
  if c =? chr_amp then lit "&amp;"
  else if c =? chr_lt then lit "&lt;"
  else if c =? chr_gt then lit "&gt;"
  else [c].

(** [x or d] for a string [x]. *)
Definition str_or (x d : str) : str :=
  match x with
  | [] => d
  | _ :: _ => x
  end.

(** [project.get(key) or d] for an optional field. *)
Definition field_or (x : option str) (d : str) : str :=
  match x with
  | Some v => str_or v d
  | None => d
  end.

(** [sep.join(l)] *)
Fixpoint join (sep : str) (l : list str) : str :=
  match l with
  | [] => []
  | [x] => x
  | x :: rest => x ++ sep ++ join sep rest
  end.

(** The three Russian labels and the dash used for a missing credit. *)
Definition label_authors : str :=
  [1040; 1074; 1090; 1086; 1088; 1099; 47; 1073; 1102; 1088; 1086; 58].
Definition label_photographer : str :=
  [1060; 1086; 1090; 1086; 1075; 1088; 1072; 1092; 58].
Definition label_source : str :=
  [1048; 1089; 1090; 1086; 1095; 1085; 1080; 1082; 58].
Definition em_dash : str := [8212].

Definition caption_lines (source_name : str) (project : Project) : list str :=
  let title := str_or (title project) (lit "Untitled") in
  let desc := field_or (desc project) [] in
  let authors := field_or (authors project) em_dash in
  let photographer := field_or (photographer project) em_dash in
  let url := str_or (url project) [] in
  [lit "<b>" ++ esc title ++ lit "</b>";
   lit "<i>" ++ esc source_name ++ lit "</i>";
   []]
  ++ (match desc with
      | [] => []
      | _ :: _ => [esc desc; []]
      end)
  ++ [lit "<b>" ++ label_authors ++ lit "</b> " ++ esc authors;
      lit "<b>" ++ label_photographer ++ lit "</b> " ++ esc photographer;
      lit "<b>" ++ label_source ++ lit "</b> " ++ esc url].

Definition format_caption (source_name : str) (project : Project) : str :=
  join [chr_lf] (caption_lines source_name project).

(** Number of occurrences of a character. *)
Definition count_char (c : N) (s : str) : nat :=
  length (List.filter (N.eqb c) s).

(** The entry of a source as [ensure_source_state] leaves it: the stored
    entry, or the default one. *)
Definition entry_of {R : Runtime} (σ : Store R) (key : str) : SourceState :=
  default default_state (state σ !! key).

(** No entry disappears and no cursor moves backwards from [m] to [m']. *)
Definition cursors_advance (m m' : gmap (list N) SourceState) : Prop :=
  forall k s, m !! k = Some s ->
    exists s', m' !! k = Some s' /\ (get_archive_page s <= get_archive_page s')%Z.

(** Every sent history respects the cap. *)
Definition sent_capped (m : gmap (list N) SourceState) : Prop :=
  forall k s, m !! k = Some s -> (length (sent_urls s) <= 5000)%nat.

(** The sites cannot be reached: every request fails, in every state of the
    world.  Nothing is said of the Telegram calls. *)
Definition outage (R : Runtime) : Prop :=
  forall u w, (requests_get R u w).1 = None.

(** The Telegram calls that carry a caption: a message; a photo; or a
    photo and then, the photo having been refused, a message. *)
Definition caption_calls (caption : Message) (calls : list TgCall) : Prop :=
  calls = [SendMessage caption]
  \/ exists p, calls = [SendPhoto p caption]
               \/ calls = [SendPhoto p caption; SendMessage caption].

(** The Telegram call [c] raises, in some state of the world. *)
Definition call_raises (R : Runtime) (c : TgCall) : Prop :=
  exists w, (requests_post R c w).1 = None.

(** The extractor raises on the document fetched last. *)
Definition extraction_raised (R : Runtime) (source : Source)
    (log : list (list N * option (list N))) : Prop :=
  exists u html, last log = Some (u, Some html)
                 /\ extract_links_from_list R source html = None.

(** A Telegram call that is one of the two notices of a source. *)
Definition is_notice (src : Source) (c : TgCall) : Prop :=
  c = SendMessage (NoProjectNotice (name src))
  \/ exists l, c = SendMessage (ParseErrorNotice (name src) l).

(** Same entries, each with the [sent_urls] and the cursor it had. *)
Definition history_kept (m m' : gmap (list N) SourceState) : Prop :=
  forall k s, m !! k = Some s ->
    exists s', m' !! k = Some s'
               /\ sent_urls s' = sent_urls s /\ archive_page s' = archive_page s.

(** How the selection and publish step of a source can end, with [old] and
    [new] the sent history of the source before and after, [log] the
    requests made and [calls] the Telegram calls made.
    - The selection raised: the extractor raised on the page fetched last,
      and no call was made.
    - No link was selected: the "no project" notice was sent.
    - The link [l] was selected and could not be published: its page could
      not be fetched, or a call carrying its caption raised; the "parse
      error" notice for [l] was sent after these attempts.
    - The link [l] was published: the calls carry the caption made from its
      page, and [l] is appended to the sent history, cut to its last 5000
      entries.
    Only in the last case does the sent history change. *)
Definition publish_outcome (R : Runtime) (src : Source) (old new : list (list N))
    (r : Res unit) (log : list (list N * option (list N)))
    (calls : list TgCall) : Prop :=
  (r = Raised /\ calls = [] /\ new = old /\ extraction_raised R src log)
  \/ (calls = [SendMessage (NoProjectNotice (name src))] /\ new = old)
  \/ (exists l doc attempts,
        l <> []
        /\ calls = attempts ++ [SendMessage (ParseErrorNotice (name src) l)]
        /\ last log = Some (l, doc) /\ new = old
        /\ match doc with
           | None => attempts = []
           | Some html =>
               caption_calls (Caption (name src) (project_of_page R l html))
                             attempts
               /\ exists c, last attempts = Some c /\ call_raises R c
           end)
  \/ (r = Returned tt
      /\ exists l html,
           l <> [] /\ last log = Some (l, Some html)
           /\ new = last_k 5000 (old ++ [l])
           /\ caption_calls (Caption (name src) (project_of_page R l html)) calls).

(* ===================================================================== *)
(** * The source list ([load_sources]) *)
(* ===================================================================== *)

(** [load_sources] reads the configuration with a reader of its own.  The
    text of the file (what [f.read()] returns) is the argument of the
    model; a [KeyError] is [Raised]. *)

Definition chr_colon : N := 58.
Definition chr_dquote : N := 34.
Definition chr_squote : N := 39.
Definition chr_minus : N := 45.

Definition is_colon (c : N) : bool := c =? chr_colon.
Definition is_dquote (c : N) : bool := c =? chr_dquote.
Definition is_squote (c : N) : bool := c =? chr_squote.

(** [s.strip(chars)], for a class of code points. *)
Definition strip_by (f : N -> bool) (s : str) : str :=
  rstrip_by f (lstrip_by f s).

(** [s.split(sep, 1)[1]] for a one-character separator that occurs in [s]:
    the text after the first [sep]. *)
Fixpoint after (f : N -> bool) (s : str) : str :=
  match s with
  | c :: s' => if f c then s' else after f s'
  | [] => []
  end.

(** [s.split(sep)] for a non-empty separator: the pieces between the
    occurrences of [sep], found from left to right without overlap.  [cur]
    is the piece being read and [skip] counts the characters of a separator
    still to pass. *)
Fixpoint py_split_from (sep : str) (skip : nat) (cur : str) (s : str)
    : list str :=
  match s with
  | [] => [cur]
  | c :: s' =>
      match skip with
      | S k => py_split_from sep k cur s'
      | O =>
          match strip_prefix sep s with
          | Some _ => cur :: py_split_from sep (length sep - 1) [] s'
          | None => py_split_from sep 0 (cur ++ [c]) s'
          end
      end
  end.

Definition py_split (sep s : str) : list str := py_split_from sep 0 [] s.

(** The line boundaries of [str.splitlines]. *)
Definition is_linebreak (c : N) : bool :=
  ((10 <=? c) && (c <=? 13)) || ((28 <=? c) && (c <=? 30))
  || (c =? 133) || (c =? 8232) || (c =? 8233).

(** [s.splitlines()]: the lines without their boundaries; a carriage
    return followed by a line feed is one boundary ([after_cr] tells that
    the previous character was a carriage return), and a text that ends
    with a boundary has no empty last line. *)
Fixpoint splitlines_from (after_cr : bool) (cur : str) (s : str) : list str :=
  match s with
  | [] => match cur with [] => [] | _ :: _ => [cur] end
  | c :: s' =>
      if after_cr && (c =? chr_lf) then splitlines_from false cur s'
      else if is_linebreak c
           then cur :: splitlines_from (c =? chr_cr) [] s'
           else splitlines_from false (cur ++ [c]) s'
  end.

Definition splitlines (s : str) : list str := splitlines_from false [] s.

(** The separator between the blocks of the file: a line feed, a dash and
    a space. *)
Definition entry_sep : str := chr_lf :: lit "- ".

(** [[b.strip() for b in text.split(sep) if b.strip()]], and the same for
    the lines of a block. *)
Definition stripped_nonblank (pieces : list str) : list str :=
  filter (fun b => b <> []) (strip <$> pieces).

(** The body of the loop over the lines of a block: comment lines and
    lines without a colon are passed over; the text before the first colon
    is the key, the text after it, without surrounding whitespace and
    quotes, the value. *)
Definition read_line (data : gmap (list N) (list N)) (ln : str)
    : gmap (list N) (list N) :=
  match strip_prefix (lit "#") ln with
  | Some _ => data
  | None =>
      if contains (lit ":") ln
      then <[strip (before is_colon ln) :=
               strip_by is_squote (strip_by is_dquote
                 (strip (after is_colon ln)))]> data
      else data
  end.

(** The dictionary [data] of a block. *)
Definition block_data (block : str) : gmap (list N) (list N) :=
  foldl read_line ∅ (stripped_nonblank (splitlines block)).

(** [if i == 0 and block.startswith("- "): block = block[2:]] *)
Definition first_block (i : nat) (block : str) : str :=
  match i with
  | O => default block (strip_prefix (lit "- ") block)
  | S _ => block
  end.

(** [Source(id=data["id"], ..., paging=data.get("paging", "wp_page"))] *)
Definition source_of_data (data : gmap (list N) (list N)) : Res Source :=
  match data !! lit "id", data !! lit "name", data !! lit "list_url" with
  | Some i, Some n, Some u =>
      Returned {| id := i; name := n; list_url := u;
                  paging := default (lit "wp_page") (data !! lit "paging") |}
  | _, _, _ => Raised
  end.

(** The loop over the blocks, from the block of index [i] on. *)
Fixpoint load_blocks (i : nat) (blocks : list str) : Res (list Source) :=
  match blocks with
  | [] => Returned []
  | block :: rest =>
      match source_of_data (block_data (first_block i block)) with
      | Raised => Raised
      | Returned src =>
          match load_blocks (S i) rest with
          | Raised => Raised
          | Returned l => Returned (src :: l)
          end
      end
  end.

Definition load_sources (text : str) : Res (list Source) :=
  load_blocks 0 (stripped_nonblank (py_split entry_sep text)).

(** ** Vocabulary for the properties of the reader *)

(** A field value that the reader gives back as it is written: on one
    line, without surrounding whitespace and without a quote character at
    either end. *)
Definition plain (v : str) : bool :=
  forallb (fun c => negb (is_linebreak c)) v
  && bool_decide (strip v = v)
  && bool_decide (strip_by is_dquote v = v)
  && bool_decide (strip_by is_squote v = v).

Definition plain_source (s : Source) : bool :=
  plain (id s) && plain (name s) && plain (list_url s) && plain (paging s).

(** One line [key: value] of an entry, the value between the quotes [q]. *)
Definition entry_line (key q v : str) : str :=
  key ++ lit ": " ++ q ++ v ++ q.

(** The fields of an entry, in the order of the file; the [paging] line is
    optional. *)
Definition entry_fields (e : bool * Source) : list (list N * list N) :=
  [(lit "id", id e.2); (lit "name", name e.2); (lit "list_url", list_url e.2)]
  ++ (if e.1 then [(lit "paging", paging e.2)] else []).

(** The break between two lines of an entry: a line feed and an
    indentation of two spaces. *)
Definition line_sep : str := chr_lf :: lit "  ".

(** An entry of the file as the reader expects it: a dash, then one line
    per field, the later ones indented by two spaces. *)
Definition entry_body (q : str) (e : bool * Source) : str :=
  join line_sep
       ((fun kv => entry_line kv.1 q kv.2) <$> entry_fields e).

Definition render_entry (q : str) (e : bool * Source) : str :=
  lit "- " ++ entry_body q e ++ [chr_lf].

Definition render (q : str) (entries : list (bool * Source)) : str :=
  concat (render_entry q <$> entries).

(** What the reader makes of an entry: the source itself, with the default
    strategy when the [paging] line is left out. *)
Definition read_entry (e : bool * Source) : Source :=
  if e.1 then e.2
  else {| id := id e.2; name := name e.2; list_url := list_url e.2;
          paging := lit "wp_page" |}.

(** A key as the file writes it, with the text [w] that follows its colon:
    the key starts with a character that is neither whitespace nor [#],
    holds no colon and does not end with whitespace, and the whole is on
    one line. *)
Definition key_line (kw : list N * list N) : Prop :=
  exists k0 key,
    kw.1 = k0 :: key
    /\ isspace k0 = false /\ k0 <> chr_hash
    /\ forallb (fun x => negb (is_colon x)) (k0 :: key) = true
    /\ strip (k0 :: key) = k0 :: key
    /\ forallb (fun c => negb (is_linebreak c)) (kw.1 ++ kw.2) = true.

(** The dictionary that a list of such lines makes. *)
Definition data_of (d : gmap (list N) (list N)) (kws : list (list N * list N))
    : gmap (list N) (list N) :=
  foldl (fun d kw =>
           <[kw.1 := strip_by is_squote (strip_by is_dquote (strip kw.2))]> d)
        d kws.

Definition line_text (kw : list N * list N) : str := kw.1 ++ chr_colon :: kw.2.

(* ===================================================================== *)
(** * Facts about the string helpers *)
(* ===================================================================== *)

Section StringFacts.

Lemma strip_prefix_Some p s r : strip_prefix p s = Some r <-> s = p ++ r.
Proof.
  revert s. induction p as [|a p IH]; intros s; simpl.
  - split; [intros [= ->]; reflexivity | intros ->; reflexivity].
  - destruct s as [|b s]; [split; discriminate|].
    destruct (N.eqb_spec a b) as [->|Hab].
    + rewrite IH. split; [intros ->; reflexivity | intros [= ->]; reflexivity].
    + split; [discriminate | intros [= ? _]; congruence].
Qed.

Lemma contains_true sub s :
  contains sub s = true <-> exists a b, s = a ++ sub ++ b.
Proof.
  induction s as [|c s IH]; simpl.
  - destruct (strip_prefix sub []) as [r|] eqn:E.
    + apply strip_prefix_Some in E. split; [|reflexivity].
      intros _. exists [], r. exact E.
    + split; [discriminate|]. intros (a & b & H).
      destruct a; [|discriminate]. simpl in H.
      assert (strip_prefix sub [] = Some b) by (apply strip_prefix_Some; exact H).
      congruence.
  - destruct (strip_prefix sub (c :: s)) as [r|] eqn:E.
    + apply strip_prefix_Some in E. split; [|reflexivity].
      intros _. exists [], r. exact E.
    + rewrite IH. split.
      * intros (a & b & ->). exists (c :: a), b. reflexivity.
      * intros (a & b & H). destruct a as [|x a]; simpl in H.
        -- assert (strip_prefix sub (c :: s) = Some b)
             by (apply strip_prefix_Some; exact H).
           congruence.
        -- injection H as -> ->. exists a, b. reflexivity.
Qed.

(** A one-character needle is plain membership. *)
Lemma contains_char c s : contains [c] s = true <-> c ∈ s.
Proof.
  rewrite contains_true. split.
  - intros (a & b & ->). set_solver.
  - intros H. apply list_elem_of_split in H as (a & b & ->).
    exists a, b. reflexivity.
Qed.

Lemma before_no_sep f s c : c ∈ before f s -> f c = false.
Proof.
  induction s as [|x s IH]; simpl; [set_solver|].
  destruct (f x) eqn:E; [set_solver|].
  intros [->|H]%elem_of_cons; auto.
Qed.

Lemma before_subseteq f s c : c ∈ before f s -> c ∈ s.
Proof.
  induction s as [|x s IH]; simpl; [trivial|].
  destruct (f x); [intros H; inversion H|].
  intros [->|H]%elem_of_cons; [left | right; auto].
Qed.

Lemma before_id f s : (forall c, c ∈ s -> f c = false) -> before f s = s.
Proof.
  induction s as [|x s IH]; simpl; intros H; [reflexivity|].
  rewrite (H x) by set_solver. f_equal. apply IH. intros; apply H; set_solver.
Qed.

Lemma lstrip_by_subseteq f s c : c ∈ lstrip_by f s -> c ∈ s.
Proof.
  induction s as [|x s IH]; simpl; [trivial|].
  destruct (f x); [right; auto | trivial].
Qed.

(** Decomposition of a string around its right strip. *)
Lemma rstrip_by_split f s :
  exists t, s = rstrip_by f s ++ t /\ Forall (fun c => f c = true) t.
Proof.
  induction s as [|x s (t & Hs & Ht)]; simpl.
  - exists []. split; [reflexivity | constructor].
  - destruct (rstrip_by f s) as [|y r] eqn:E.
    + destruct (f x) eqn:Hx.
      * exists (x :: s). split; [reflexivity|].
        simpl in Hs. subst t. constructor; assumption.
      * exists s. split; [reflexivity|]. simpl in Hs. subst t. assumption.
    + exists t. split; [|assumption]. simpl. f_equal. exact Hs.
Qed.

Lemma rstrip_by_subseteq f s c : c ∈ rstrip_by f s -> c ∈ s.
Proof.
  destruct (rstrip_by_split f s) as (t & Hs & _).
  intros H. rewrite Hs. set_solver.
Qed.

(** A character outside the class protects everything on its left. *)
Lemma rstrip_by_keep f l c r :
  f c = false -> rstrip_by f (l ++ c :: r) = l ++ c :: rstrip_by f r.
Proof.
  intros Hc. induction l as [|x l IH]; simpl.
  - destruct (rstrip_by f r); [rewrite Hc|]; reflexivity.
  - rewrite IH. destruct l; reflexivity.
Qed.

Lemma rstrip_by_snoc f l c :
  rstrip_by f (l ++ [c]) = if f c then rstrip_by f l else l ++ [c].
Proof.
  induction l as [|x l IH]; simpl.
  - destruct (f c); reflexivity.
  - rewrite IH. destruct (f c) eqn:Hc; [reflexivity|].
    destruct l; reflexivity.
Qed.

Lemma strip_subseteq s c : c ∈ strip s -> c ∈ s.
Proof.
  unfold strip, rstrip, lstrip. intros H%rstrip_by_subseteq.
  eapply lstrip_by_subseteq, H.
Qed.

(** Stripping cannot remove an occurrence of a needle that starts and ends
    with visible characters. *)
Lemma contains_lstrip a sub s :
  isspace a = false -> contains (a :: sub) s = true ->
  contains (a :: sub) (lstrip s) = true.
Proof.
  intros Ha. unfold lstrip. induction s as [|x s IH]; [trivial|].
  intros H. cbn [lstrip_by]. destruct (isspace x) eqn:Hx; [|exact H].
  apply IH. cbn [contains strip_prefix] in H.
  destruct (N.eqb_spec a x) as [->|_]; [congruence|exact H].
Qed.

Lemma contains_rstrip sub z s :
  isspace z = false -> contains (sub ++ [z]) s = true ->
  contains (sub ++ [z]) (rstrip s) = true.
Proof.
  intros Hz (a & b & ->)%contains_true. apply contains_true.
  unfold rstrip.
  replace (a ++ (sub ++ [z]) ++ b) with ((a ++ sub) ++ z :: b)
    by (rewrite <- !app_assoc; reflexivity).
  rewrite rstrip_by_keep by exact Hz.
  exists a, (rstrip_by isspace b). rewrite <- !app_assoc. reflexivity.
Qed.

End StringFacts.

(* ===================================================================== *)
(** * URL normalisation *)
(* ===================================================================== *)

Section NormalizeFacts.

Lemma normalize_url_no_hash u : chr_hash ∉ normalize_url u.
Proof.
  unfold normalize_url. intros H.
  assert (chr_hash ∈ before (N.eqb chr_hash) (strip u)) as H'.
  { destruct (_ && _) in H; [apply before_subseteq in H|]; exact H. }
  apply before_no_sep in H'. rewrite N.eqb_refl in H'. discriminate.
Qed.

(** The query test is already settled on a normalised URL. *)
Lemma normalize_url_query_kept u :
  contains (lit "?") (normalize_url u) = true ->
  contains needle_search (normalize_url u) = true.
Proof.
  unfold normalize_url. set (x := before (N.eqb chr_hash) (strip u)).
  destruct (contains (lit "?") x) eqn:Hq; cbn [andb]; [|congruence].
  destruct (contains (lit "archdaily.com/search/") x) eqn:Hs; cbn [negb].
  - intros _. exact Hs.
  - intros H. apply (contains_char chr_question) in H.
    apply before_no_sep in H. rewrite N.eqb_refl in H. discriminate.
Qed.

Lemma contains_needle_strip s :
  contains needle_search s = true -> contains needle_search (strip s) = true.
Proof.
  intros H. unfold strip.
  change needle_search with (removelast needle_search ++ [chr_slash]).
  apply contains_rstrip; [reflexivity|].
  apply (contains_lstrip 97 (tail needle_search)); [reflexivity | exact H].
Qed.

(** A second pass only strips what the first one left around the result. *)
Lemma normalize_url_again u :
  normalize_url (normalize_url u) = strip (normalize_url u).
Proof.
  set (v := normalize_url u).
  assert (chr_hash ∉ v) as Hh by apply normalize_url_no_hash.
  assert (contains (lit "?") v = true -> contains needle_search v = true) as Hq
    by apply normalize_url_query_kept.
  clearbody v. unfold normalize_url.
  rewrite (before_id (N.eqb chr_hash) (strip v)).
  2:{ intros c Hc%strip_subseteq. apply N.eqb_neq. intros <-. contradiction. }
  destruct (contains (lit "?") (strip v)) eqn:E; [|reflexivity].
  assert (contains (lit "?") v = true) as Hv.
  { apply (contains_char chr_question). apply (contains_char chr_question) in E.
    apply strip_subseteq, E. }
  apply Hq, contains_needle_strip in Hv.
  change (lit "archdaily.com/search/") with needle_search.
  rewrite Hv. reflexivity.
Qed.

End NormalizeFacts.

(** C9 (as amended).  For every input, applying [normalize_url] a second
    time is stripping the result of the first:
    [normalize_url (normalize_url u) = strip (normalize_url u)] (the second
    pass only removes the whitespace that the first one left in front of a
    removed [#...] or [?...] part).  Hence [normalize_url] is idempotent at
    [u] exactly when the normalised form of [u] carries no surrounding
    whitespace. *)
Theorem normalize_url_idempotent_when_stripped (u : str) :
  normalize_url (normalize_url u) = strip (normalize_url u)
  /\ (strip (normalize_url u) = normalize_url u ->
      normalize_url (normalize_url u) = normalize_url u)
  /\ (normalize_url (normalize_url u) = normalize_url u ->
      strip (normalize_url u) = normalize_url u).
Proof.
  pose proof (normalize_url_again u) as Hagain.
  split; [exact Hagain|]. split.
  - intros H. rewrite Hagain. exact H.
  - intros H. rewrite <- Hagain. exact H.
Qed.

Lemma normalize_url_idempotent_when_stripped_witness :
  let u := lit "https://www.dezeen.com/2024/01/15/house/?utm_source=rss#comments" in
  normalize_url u = lit "https://www.dezeen.com/2024/01/15/house/"
  /\ normalize_url (normalize_url u) = normalize_url u.
Proof.
  split; [reflexivity|].
  apply (normalize_url_idempotent_when_stripped
           (lit "https://www.dezeen.com/2024/01/15/house/?utm_source=rss#comments")).
  reflexivity.
Defined.

(** C9 (as stated) fails: whitespace in front of the fragment survives the
    first pass and is stripped by the second. *)
Lemma normalize_url_not_idempotent :
  let u := lit "https://leibal.com/interiors/house/ #gallery" in
  normalize_url u = lit "https://leibal.com/interiors/house/ "
  /\ normalize_url (normalize_url u) = lit "https://leibal.com/interiors/house/"
  /\ normalize_url (normalize_url u) <> normalize_url u.
Proof.
  split; [reflexivity|]. split; [reflexivity|]. discriminate.
Qed.

(* ===================================================================== *)
(** * Pagination *)
(* ===================================================================== *)

Section DecimalFacts.

Lemma lit_inj s1 s2 : lit s1 = lit s2 -> s1 = s2.
Proof.
  unfold lit. intros H.
  rewrite <- (String.string_of_list_ascii_of_string s1),
          <- (String.string_of_list_ascii_of_string s2).
  f_equal. revert H.
  generalize (String.list_ascii_of_string s1) (String.list_ascii_of_string s2).
  induction l as [|a l IH]; intros [|b l']; simpl; try discriminate; [trivial|].
  intros [= Hab Hl]. f_equal; [|apply IH, Hl].
  rewrite <- (Ascii.ascii_N_embedding a), <- (Ascii.ascii_N_embedding b).
  f_equal. exact Hab.
Qed.

Lemma format_int_inj p q : format_int p = format_int q -> p = q.
Proof.
  unfold format_int. intros H%lit_inj.
  apply DecimalZ.to_int_inj.
  assert (forall z, NilZero.int_of_string (NilZero.string_of_int (Z.to_int z))
                    = Some (Z.to_int z)) as Hi.
  { intros z. apply NilZero.isi; destruct z; simpl; try discriminate;
      intros [= E]; revert E; apply DecimalPos.Unsigned.to_uint_nonnil. }
  pose proof (Hi p) as Hp. rewrite H, Hi in Hp. congruence.
Qed.

Lemma string_of_uint_digits d :
  Forall (fun c => is_ascii_digit c = true) (lit (NilEmpty.string_of_uint d)).
Proof.
  induction d; simpl; constructor; (reflexivity || assumption).
Qed.

Lemma format_int_digits z :
  (0 < z)%Z -> Forall (fun c => is_ascii_digit c = true) (format_int z).
Proof.
  destruct z as [|p|p]; try lia. intros _. unfold format_int. simpl.
  pose proof (DecimalPos.Unsigned.to_uint_nonnil p) as Hn.
  unfold NilZero.string_of_uint.
  destruct (Pos.to_uint p) as [|u|u|u|u|u|u|u|u|u|u]; [congruence | ..];
    match goal with |- context [NilEmpty.string_of_uint ?d] =>
      exact (string_of_uint_digits d) end.
Qed.

End DecimalFacts.

Section PageFacts.
Context (R : Runtime).

Lemma digits_app_inj d1 d2 r1 r2 :
  Forall (fun c => isdecimal R c = true) d1 ->
  Forall (fun c => isdecimal R c = true) d2 ->
  digit_free_head R r1 -> digit_free_head R r2 ->
  d1 ++ r1 = d2 ++ r2 -> d1 = d2.
Proof.
  intros H1. revert d2. induction H1 as [|c d1 Hc _ IH]; intros d2 H2 Hr1 Hr2 E.
  - destruct H2 as [|c' d2 Hc' _]; [reflexivity|].
    simpl in E. subst r1. simpl in Hr1. congruence.
  - destruct H2 as [|c' d2 Hc' H2].
    + simpl in E. subst r2. simpl in Hr2. congruence.
    + injection E as -> E. f_equal. eapply IH; eassumption.
Qed.

Lemma re_sub_page_from_skip k page s :
  re_sub_page_from R k page s = re_sub_page_from R 0 page (drop k s).
Proof.
  revert s. induction k as [|k IH]; intros [|c s]; try reflexivity.
  simpl. apply IH.
Qed.

Lemma re_sub_page_head page s :
  digit_free_head R s -> digit_free_head R (re_sub_page_from R 0 page s).
Proof.
  destruct s as [|c s]; simpl; [trivial|]. intros H.
  destruct (is_page_sep c); [destruct (page_param_len R s)|]; exact H.
Qed.

Lemma span_len_rest s :
  digit_free_head R (drop (span_len (isdecimal R) s) s).
Proof.
  induction s as [|c s IH]; simpl; [trivial|].
  destruct (isdecimal R c) eqn:E; simpl; [exact IH | exact E].
Qed.

Lemma page_param_len_rest s k :
  page_param_len R s = Some k -> digit_free_head R (drop k s).
Proof.
  unfold page_param_len.
  destruct (strip_prefix (lit "page=") s) as [[|d r]|] eqn:E; try discriminate.
  apply strip_prefix_Some in E. subst s.
  destruct (isdecimal R d); [|discriminate]. intros [= <-].
  apply span_len_rest.
Qed.

(** The rewritten URL determines the page number it was rewritten with. *)
Lemma re_sub_page_inj d1 d2 s :
  Forall (fun c => isdecimal R c = true) d1 ->
  Forall (fun c => isdecimal R c = true) d2 ->
  re_search_page R s = true ->
  re_sub_page R d1 s = re_sub_page R d2 s -> d1 = d2.
Proof.
  intros H1 H2. unfold re_sub_page.
  induction s as [|c s IH]; [discriminate|]. cbn [re_search_page re_sub_page_from].
  destruct (is_page_sep c); cbn [andb].
  - destruct (page_param_len R s) as [k|] eqn:Ek.
    + intros _ [= E].
      rewrite !(re_sub_page_from_skip k) in E.
      eapply digits_app_inj; [exact H1 | exact H2 | | | exact E];
        apply re_sub_page_head, page_param_len_rest, Ek.
    + rewrite bool_decide_eq_false_2 by (intros [? [=]]).
      intros Hs [= E]. auto.
  - intros Hs [= E]. auto.
Qed.

Lemma format_int_isdecimal z :
  (0 < z)%Z -> Forall (fun c => isdecimal R c = true) (format_int z).
Proof.
  intros Hz. eapply Forall_impl; [apply format_int_digits, Hz|].
  intros c Hc. apply isdecimal_ascii. unfold is_ascii_digit in Hc.
  apply andb_prop in Hc as [?%N.leb_le ?%N.leb_le]. split; assumption.
Qed.

Lemma path_page_differs base tail z :
  rstrip_by is_slash base ++ lit "/page/" ++ format_int z ++ tail <> base.
Proof.
  destruct (rstrip_by_split is_slash base) as (t & Hb & Ht).
  intros E. rewrite Hb in E at 2. apply app_inv_head in E.
  subst t. inversion Ht as [|? ? _ Ht']. inversion Ht' as [|? ? Hp _].
  discriminate Hp.
Qed.

Lemma app_nonempty_differs (s t : str) : t <> [] -> s ++ t <> s.
Proof.
  intros Ht E. apply Ht. apply (app_inv_head s). rewrite app_nil_r. exact E.
Qed.

End PageFacts.

(** C3 (as amended).  Page 1 is the listing URL itself for every strategy;
    the URL is a function of the source and the page number alone; distinct
    page numbers from 2 on give distinct URLs under every strategy; and the
    URL of a page from 2 on differs from the URL of page 1, except under the
    search-query strategy when the listing URL already carries a
    [page=<digits>] parameter. *)
Theorem build_paged_url_pages (R : Runtime) (source : Source) (p q : Z) :
  build_paged_url R source 1 = list_url source
  /\ (forall source' p', source' = source -> p' = p ->
        build_paged_url R source' p' = build_paged_url R source p)
  /\ ((2 <= p)%Z -> (2 <= q)%Z -> p <> q ->
        build_paged_url R source p <> build_paged_url R source q)
  /\ ((2 <= p)%Z ->
      ~ (paging source = lit "archdaily_search_page"
         /\ contains (lit "?") (list_url source) = true
         /\ re_search_page R (list_url source) = true) ->
        build_paged_url R source p <> build_paged_url R source 1).
Proof.
  split; [reflexivity|]. split; [intros ? ? -> ->; reflexivity|]. split.
  - intros Hp Hq Hne E. apply Hne. revert E. unfold build_paged_url.
    rewrite !(proj2 (Z.leb_gt _ 1)) by lia.
    repeat case_bool_decide;
      try (intros E; do 2 apply app_inv_head in E;
           try apply app_inv_tail in E; apply format_int_inj, E).
    destruct (contains (lit "?") (list_url source)).
    + destruct (re_search_page R (list_url source)) eqn:Hs.
      * intros E. apply format_int_inj.
        eapply re_sub_page_inj; [| | exact Hs | exact E];
          apply format_int_isdecimal; lia.
      * intros E. do 2 apply app_inv_head in E. apply format_int_inj, E.
    + intros E. do 2 apply app_inv_head in E. apply format_int_inj, E.
  - intros Hp Hex. unfold build_paged_url.
    rewrite (proj2 (Z.leb_gt p 1)) by lia. change (1 <=? 1)%Z with true.
    cbv iota.
    repeat case_bool_decide; try apply path_page_differs.
    + destruct (contains (lit "?") (list_url source)) eqn:Hq.
      * destruct (re_search_page R (list_url source)) eqn:Hs.
        -- exfalso. apply Hex. auto.
        -- apply app_nonempty_differs. discriminate.
      * apply app_nonempty_differs. discriminate.
    + rewrite <- (app_nil_r (format_int p)). apply path_page_differs.
Qed.

Lemma build_paged_url_pages_witness :
  build_paged_url demo_runtime leibal 2 = lit "https://leibal.com/page/2/"
  /\ build_paged_url demo_runtime leibal 2 <> build_paged_url demo_runtime leibal 3
  /\ build_paged_url demo_runtime leibal 2 <> build_paged_url demo_runtime leibal 1.
Proof.
  destruct (build_paged_url_pages demo_runtime leibal 2 3) as (_ & _ & H3 & H4).
  split; [reflexivity|]. split.
  - apply H3; lia.
  - apply H4; [lia|]. intros [H _]. discriminate H.
Defined.

(** C3 (as stated) fails: when the listing URL of a search-query source
    already names page 2, pages 1 and 2 have the same URL. *)
Lemma build_paged_url_pages_collide :
  (1 <= 1)%Z /\ (1 <= 2)%Z /\ (1 <> 2)%Z
  /\ build_paged_url demo_runtime archdaily_paged 1
     = build_paged_url demo_runtime archdaily_paged 2.
Proof.
  split; [lia|]. split; [lia|]. split; [lia|]. reflexivity.
Qed.

(* ===================================================================== *)
(** * The backlog scan *)
(* ===================================================================== *)

Section ScanFacts.
Context (R : Runtime).

Lemma first_unseen_Some sent links v :
  first_unseen sent links = Some v -> v ∈ links /\ v ∉ sent.
Proof.
  unfold first_unseen. intros H. apply find_some in H as [Hin Hv].
  split; [apply list_elem_of_In, Hin|].
  unfold py_in in Hv. apply negb_true_iff, bool_decide_eq_false in Hv. exact Hv.
Qed.

Lemma first_unseen_None sent links v :
  first_unseen sent links = None -> v ∈ links -> v ∈ sent.
Proof.
  unfold first_unseen. intros H Hin.
  apply list_elem_of_In in Hin. apply (find_none _ _ H) in Hin.
  unfold py_in in Hin. apply negb_false_iff, bool_decide_eq_true in Hin.
  exact Hin.
Qed.

Lemma shuffle_elem links w v :
  v ∈ (random_shuffle R links w).1 <-> v ∈ links.
Proof. rewrite (random_shuffle_perm R links w). reflexivity. Qed.

(** One iteration of the loop, spelled out on the store. *)
Lemma scan_pages_step n source sent σ s :
  state σ !! id source = Some s ->
  let u := build_paged_url R source (get_archive_page s) in
  scan_pages R (S n) source sent σ =
  match requests_get R u (world σ) with
  | (None, w) =>
      (Returned None,
       {| state := state σ; world := w;
          fetched := fetched σ ++ [(u, None)]; telegram := telegram σ |})
  | (Some html, w) =>
      match extract_links_from_list R source html with
      | None =>
          (Raised,
           {| state := state σ; world := w;
              fetched := fetched σ ++ [(u, Some html)];
              telegram := telegram σ |})
      | Some extracted =>
          let σ2 :=
            {| state := <[id source := set_archive_page (get_archive_page s + 1) s]>
                          (state σ);
               world := (random_shuffle R extracted w).2;
               fetched := fetched σ ++ [(u, Some html)];
               telegram := telegram σ |} in
          match first_unseen sent (random_shuffle R extracted w).1 with
          | Some v => (Returned (Some v), σ2)
          | None => scan_pages R n source sent σ2
          end
      end
  end.
Proof.
  intros Hs u. cbn [scan_pages]. unfold bind at 1. unfold get_entry at 1.
  rewrite Hs. fold u. unfold bind at 1, try_except, bind at 1, http_get.
  destruct (requests_get R u (world σ)) as [[html|] w]; [|reflexivity].
  cbn [ret]. unfold bind at 1, extract_links.
  destruct (extract_links_from_list R source html) as [extracted|]; [|reflexivity].
  unfold bind at 1, shuffle. cbn [world state fetched telegram].
  destruct (random_shuffle R extracted w) as [links w'] eqn:Esh. cbn [fst snd].
  assert (forall f : SourceState -> SourceState,
            alter f (id source) (state σ) = <[id source := f s]> (state σ)) as Halt.
  { intros f. apply map_eq. intros k.
    destruct (decide (k = id source)) as [->|Hk].
    - rewrite lookup_alter_eq, lookup_insert_eq, Hs. reflexivity.
    - rewrite lookup_alter_ne, lookup_insert_ne by congruence. reflexivity. }
  destruct (first_unseen sent links) as [v|];
    unfold bind, update_entry, with_state; cbn [world state fetched telegram ret];
    rewrite Halt; reflexivity.
Qed.

End ScanFacts.

Section ScanSpec.
Context (R : Runtime).

Lemma advance_next m s :
  advance m (set_archive_page (get_archive_page s + 1) s) = advance (S m) s.
Proof.
  destruct m as [|m]; unfold advance, set_archive_page, get_archive_page; simpl.
  - reflexivity.
  - f_equal. f_equal. lia.
Qed.

Lemma successes_last (log : list (list N * option (list N))) u html :
  last log = Some (u, Some html) -> (1 <= successes log)%nat.
Proof.
  intros H. destruct (exists_last (l := log)) as (l & e & ->).
  { intros ->. discriminate. }
  rewrite last_snoc in H. injection H as ->.
  unfold successes. rewrite omap_app, length_app. cbn. lia.
Qed.

Lemma scan_pages_spec n source sent (σ : Store R) s :
  state σ !! id source = Some s ->
  exists r σ' log,
    scan_pages R n source sent σ = (r, σ')
    /\ fetched σ' = fetched σ ++ log
    /\ telegram σ' = telegram σ
    /\ state σ' = <[id source := advance (recorded log r) s]> (state σ)
    /\ scan_facts R source sent (get_archive_page s) n log r.
Proof.
  revert σ s. induction n as [|n IH]; intros σ s Hs.
  - exists (Returned None), σ, []. split; [reflexivity|].
    split; [symmetry; apply app_nil_r|].
    split; [reflexivity|]. split; [symmetry; apply insert_id, Hs|].
    split; [reflexivity|]. split; [intros i e [=]|].
    split; [intros i u [=]|]. split; [auto|]. split; [intros v [=]|].
    split; [|intros i u html [=]].
    split; [discriminate | intros (u & html & [=] & _)].
  - rewrite (scan_pages_step R n source sent σ s Hs).
    set (u := build_paged_url R source (get_archive_page s)).
    assert (Hurl0 : forall i e (o : option (list N)),
              [(u, o)] !! i = Some e ->
              e.1 = build_paged_url R source (get_archive_page s + Z.of_nat i)).
    { intros [|i] e o [= <-]. simpl. rewrite Z.add_0_r. reflexivity. }
    destruct (requests_get R u (world σ)) as [[html|] w].
    2:{ eexists (Returned None), _, [(u, None)]. split; [reflexivity|].
        split; [reflexivity|]. split; [reflexivity|].
        split; [symmetry; apply insert_id, Hs|].
        split; [simpl; lia|]. split; [intros i e; apply Hurl0|].
        split. { intros [|i] u' [=]. auto. }
        split. { intros _. left. eexists. reflexivity. }
        split. { intros v [=]. }
        split. { split; [discriminate | intros (u' & html' & [=] & _)]. }
        intros [|i] u' html' [=]. }
    destruct (extract_links_from_list R source html) as [extracted|] eqn:Ex.
    2:{ eexists Raised, _, [(u, Some html)]. split; [reflexivity|].
        split; [reflexivity|]. split; [reflexivity|].
        split; [symmetry; apply insert_id, Hs|].
        split; [simpl; lia|]. split; [intros i e; apply Hurl0|].
        split. { intros [|i] u' [=]. }
        split. { intros [=]. }
        split. { intros v [=]. }
        split. { split; [|reflexivity]. intros _. exists u, html. auto. }
        intros [|i] u' html' [=]. simpl. intros [?|[=]]. lia. }
    cbv zeta.
    set (links := random_shuffle R extracted w).
    destruct (first_unseen sent links.1) as [v|] eqn:Ef.
    + apply first_unseen_Some in Ef as [Hin Hv]. apply shuffle_elem in Hin.
      eexists (Returned (Some v)), _, [(u, Some html)]. split; [reflexivity|].
      split; [reflexivity|]. split; [reflexivity|]. split; [reflexivity|].
      split; [simpl; lia|]. split; [intros i e; apply Hurl0|].
      split. { intros [|i] u' [=]. }
      split. { intros [=]. }
      split. { intros v' [= <-]. split; [exact Hv|]. exists u, html, extracted. auto. }
      split. { split; [discriminate|]. intros (u' & html' & [= <- <-] & E). congruence. }
      intros [|i] u' html' [=]. simpl. intros [?|[=]]. lia.
    + match goal with |- context [scan_pages R n source sent ?σ2] =>
        destruct (IH σ2 (set_archive_page (get_archive_page s + 1) s))
          as (r & σ' & log & Hrun & Hf & Ht & Hst & Hfacts)
      end.
      { apply lookup_insert_eq. }
      destruct Hfacts as (Hlen & Hurl & Hfail & Hnone & Hsome & Hraise & Hseen).
      exists r, σ', ((u, Some html) :: log). split; [exact Hrun|].
      split; [rewrite Hf; cbn [fetched]; rewrite <- app_assoc; reflexivity|].
      split; [exact Ht|].
      split.
      { rewrite Hst. cbn [state]. rewrite insert_insert_eq.
        rewrite advance_next.
        replace (recorded ((u, Some html) :: log) r) with (S (recorded log r));
          [reflexivity|].
        destruct r as [o|]; [reflexivity|].
        destruct (proj1 Hraise eq_refl) as (u' & html' & Hl & _).
        apply successes_last in Hl. unfold recorded, successes in *.
        change (omap snd ((u, Some html) :: log)) with (html :: omap snd log).
        cbn [length Nat.pred]. lia. }
      change (get_archive_page (set_archive_page (get_archive_page s + 1) s))
        with (get_archive_page s + 1)%Z in Hurl.
      split; [simpl; lia|]. split.
      { intros [|i] e He.
        - injection He as <-. simpl. rewrite Z.add_0_r. reflexivity.
        - rewrite (Hurl i e He). f_equal. lia. }
      split.
      { intros [|i] u' He; [discriminate|]. simpl.
        destruct (Hfail i u' He) as [<- ->]. auto. }
      split.
      { intros Hr. destruct (Hnone Hr) as [[u' Hl]|Hl].
        - left. exists u'. rewrite last_cons, Hl. reflexivity.
        - right. simpl. lia. }
      split.
      { intros v Hr. destruct (Hsome v Hr) as (Hv & u' & html' & ls & Hl & Hls & Hin).
        split; [exact Hv|]. exists u', html', ls. rewrite last_cons, Hl. auto. }
      split.
      { rewrite Hraise. split.
        - intros (u' & html' & Hl & E). exists u', html'.
          rewrite last_cons, Hl. auto.
        - intros (u' & html' & Hl & E). rewrite last_cons in Hl.
          destruct (last log) as [e|] eqn:El.
          + exists u', html'. auto.
          + injection Hl as <- <-. congruence. }
      intros [|i] u' html' He Hpos.
      * injection He as <- <-. exists extracted. split; [exact Ex|].
        intros v Hin. eapply first_unseen_None; [exact Ef|].
        apply shuffle_elem, Hin.
      * eapply (Hseen i u' html' He).
        destruct Hpos as [Hlt|Hr]; [left; simpl in Hlt; lia | right; exact Hr].
Qed.

End ScanSpec.

Section PickOld.
Context (R : Runtime).

Lemma pick_old_link_scan source (σ : Store R) s :
  state σ !! id source = Some s ->
  pick_old_link R source σ = scan_pages R 5 source (sent_urls s) σ.
Proof.
  intros Hs. unfold pick_old_link, bind, get_entry. rewrite Hs. reflexivity.
Qed.

Lemma get_archive_page_advance m s :
  get_archive_page (advance m s) = (get_archive_page s + Z.of_nat m)%Z.
Proof.
  destruct m; unfold advance; [lia | reflexivity].
Qed.

Lemma sent_urls_advance m s : sent_urls (advance m s) = sent_urls s.
Proof. destruct m; reflexivity. Qed.

Lemma queue_new_advance m s : queue_new (advance m s) = queue_new s.
Proof. destruct m; reflexivity. Qed.

End PickOld.

(** X21.  One call of [pick_old_link] on a source that has a state entry
    makes at most 5 requests, which are for the consecutive pages starting
    at the cursor.  It leaves the source's [sent_urls] and [queue_new] and
    every other source alone, and moves the cursor forward by one for every
    page fetched and extracted, so the cursor never decreases.  A failed
    request is the last one and makes the call return none.  The call
    raises exactly when the extractor raises on the page fetched last, and
    that page is then not counted in the cursor.  The call returns none
    only after a failed request or after 5 requests; a returned link is an
    unseen link of the last fetched page, and every page fetched before it
    (every fetched page, when none is returned) held no unseen link. *)
Theorem pick_old_link_bounded (R : Runtime) (source : Source)
    (σ : Store R) (s : SourceState) :
  state σ !! id source = Some s ->
  exists r σ' s' log,
    pick_old_link R source σ = (r, σ')
    /\ fetched σ' = fetched σ ++ log
    /\ (length log <= 5)%nat
    /\ (forall i e, log !! i = Some e ->
          e.1 = build_paged_url R source (get_archive_page s + Z.of_nat i))
    /\ state σ' !! id source = Some s'
    /\ (forall k, k <> id source -> state σ' !! k = state σ !! k)
    /\ sent_urls s' = sent_urls s
    /\ queue_new s' = queue_new s
    /\ get_archive_page s' = (get_archive_page s + Z.of_nat (recorded log r))%Z
    /\ (get_archive_page s <= get_archive_page s')%Z
    /\ (forall i u, log !! i = Some (u, None) ->
          S i = length log /\ r = Returned None)
    /\ (r = Returned None ->
          (exists u, last log = Some (u, None)) \/ length log = 5%nat)
    /\ (forall v, r = Returned (Some v) ->
          (v ∉ sent_urls s)
          /\ exists u html links,
               last log = Some (u, Some html)
               /\ extract_links_from_list R source html = Some links
               /\ v ∈ links)
    /\ (r = Raised <->
          exists u html, last log = Some (u, Some html)
                         /\ extract_links_from_list R source html = None)
    /\ (forall i u html, log !! i = Some (u, Some html) ->
          ((S i < length log)%nat \/ r = Returned None) ->
          exists links, extract_links_from_list R source html = Some links
                        /\ forall v, v ∈ links -> v ∈ sent_urls s).
Proof.
  intros Hs. rewrite (pick_old_link_scan R source σ s Hs).
  destruct (scan_pages_spec R 5 source (sent_urls s) σ s Hs)
    as (r & σ' & log & Hrun & Hf & _ & Hst
        & Hlen & Hurl & Hfail & Hnone & Hsome & Hraise & Hseen).
  exists r, σ', (advance (recorded log r) s), log.
  split; [exact Hrun|]. split; [exact Hf|]. split; [exact Hlen|].
  split; [exact Hurl|].
  split; [rewrite Hst; apply lookup_insert_eq|].
  split; [intros k Hk; rewrite Hst; apply lookup_insert_ne; congruence|].
  split; [apply sent_urls_advance|]. split; [apply queue_new_advance|].
  split; [apply get_archive_page_advance|].
  split; [rewrite get_archive_page_advance; lia|].
  split; [exact Hfail|]. split; [exact Hnone|]. split; [exact Hsome|].
  split; [exact Hraise | exact Hseen].
Qed.

Lemma pick_old_link_bounded_witness :
  let σ := store_of leibal_web tt (lit "leibal") sent_b in
  (pick_old_link leibal_web leibal σ).1 = Returned None
  /\ exists s' log,
       state (pick_old_link leibal_web leibal σ).2 !! lit "leibal" = Some s'
       /\ fetched (pick_old_link leibal_web leibal σ).2 = log
       /\ (length log <= 5)%nat
       /\ (1 <= get_archive_page s')%Z.
Proof.
  intros σ. split; [vm_compute; reflexivity|].
  destruct (pick_old_link_bounded leibal_web leibal σ sent_b)
    as (r & σ' & s' & log & Hrun & Hlog & Hlen & _ & Hs' & _ & _ & _ & _ & Hpage & _).
  - reflexivity.
  - exists s', log. rewrite Hrun. cbn [snd].
    split; [exact Hs'|]. split; [exact Hlog|]. split; [exact Hlen | exact Hpage].
Defined.

(** C4.  A defect of [pick_old_link]: the extractor is called outside the
    [try] that protects the request, so a page that was fetched but on
    which the extractor raises (a feed that is not well-formed) makes
    [pick_old_link] raise instead of advancing the cursor: the page is in
    the request log, the cursor is where it was, and the exception aborts
    [main] before any notice is sent.  In the refresh loop the same
    document is harmless, the extractor being called inside the [try]. *)
Lemma pick_old_link_raises_on_malformed_feed :
  let σ := store_of broken_feed_web tt (lit "landezine") default_state in
  let feed := lit "https://landezine.com/feed/" in
  pick_old_link broken_feed_web landezine_feed σ
  = (Raised,
     {| state := state σ; world := world σ; fetched := [(feed, Some feed)];
        telegram := [] |})
  /\ (get_archive_page <$> state σ !! lit "landezine") = Some 1%Z
  /\ (refresh_source broken_feed_web landezine_feed σ).1 = Returned tt
  /\ (main broken_feed_web (lit "evening") [landezine_feed] σ).1 = Raised
  /\ telegram (main broken_feed_web (lit "evening") [landezine_feed] σ).2 = [].
Proof.
  intros σ feed. split; [vm_compute; reflexivity|].
  split; [reflexivity|]. split; [vm_compute; reflexivity|].
  split; vm_compute; reflexivity.
Qed.

(* ===================================================================== *)
(** * Selection *)
(* ===================================================================== *)

Section PickFacts.
Context (R : Runtime).

(** [pick_old_link] on a source that has an entry only moves that source's
    cursor, and a returned link is not in [sent_urls]. *)
Lemma pick_old_link_outcome source (σ : Store R) s :
  state σ !! id source = Some s ->
  exists r σ' m,
    pick_old_link R source σ = (r, σ')
    /\ state σ' = <[id source := advance m s]> (state σ)
    /\ telegram σ' = telegram σ
    /\ (forall v, r = Returned (Some v) -> v ∉ sent_urls s).
Proof.
  intros Hs. rewrite (pick_old_link_scan R source σ s Hs).
  destruct (scan_pages_spec R 5 source (sent_urls s) σ s Hs)
    as (r & σ' & log & Hrun & _ & Ht & Hst & _ & _ & _ & _ & Hsome & _).
  exists r, σ', (recorded log r). split; [exact Hrun|]. split; [exact Hst|].
  split; [exact Ht|]. intros v Hv. apply (Hsome v Hv).
Qed.

Lemma pop_queue_or_cons source other (σ : Store R) s u q :
  state σ !! id source = Some s -> queue_new s = u :: q ->
  pop_queue_or R source other σ = (Returned (Some u), popped source q σ).
Proof.
  intros Hs Hq. unfold pop_queue_or, bind at 1, get_entry. rewrite Hs, Hq.
  reflexivity.
Qed.

Lemma pop_queue_or_nil source other (σ : Store R) s :
  state σ !! id source = Some s -> queue_new s = [] ->
  pop_queue_or R source other σ = other σ.
Proof.
  intros Hs Hq. unfold pop_queue_or, bind at 1, get_entry. rewrite Hs, Hq.
  reflexivity.
Qed.

Lemma pick_link_for_run_morning source (σ : Store R) s :
  state σ !! id source = Some s ->
  pick_link_for_run R source (lit "morning") σ =
  match queue_new s with
  | u :: q => (Returned (Some u), popped source q σ)
  | [] => pick_old_link R source σ
  end.
Proof.
  intros Hs. unfold pick_link_for_run, bind at 1, get_entry. rewrite Hs.
  rewrite bool_decide_eq_true_2 by reflexivity.
  destruct (queue_new s) as [|u q] eqn:Hq.
  - eapply pop_queue_or_nil; eassumption.
  - eapply pop_queue_or_cons; eassumption.
Qed.

(** Every mode but ["morning"] runs the backlog scan first and falls back
    on the queue when the scan returned nothing truthy. *)
Lemma pick_link_for_run_other source mode (σ : Store R) s old σ1 :
  state σ !! id source = Some s ->
  mode <> lit "morning" ->
  pick_old_link R source σ = (Returned old, σ1) ->
  pick_link_for_run R source mode σ =
  if truthy old then (Returned old, σ1)
  else match queue_new s with
       | u :: q => (Returned (Some u), popped source q σ1)
       | [] => (Returned None, σ1)
       end.
Proof.
  intros Hs Hmode Hold.
  destruct (pick_old_link_outcome source σ s Hs) as (r & σ' & m & Hrun & Hst & _).
  rewrite Hold in Hrun. injection Hrun as <- <-.
  unfold pick_link_for_run, bind at 1, get_entry. rewrite Hs.
  rewrite bool_decide_eq_false_2 by exact Hmode.
  unfold bind at 1. rewrite Hold.
  destruct (truthy old); [reflexivity|].
  assert (state σ1 !! id source = Some (advance m s)) as Hs1
    by (rewrite Hst; apply lookup_insert_eq).
  destruct (queue_new s) as [|u q] eqn:Hq.
  - erewrite pop_queue_or_nil; [reflexivity | exact Hs1 |].
    rewrite queue_new_advance. exact Hq.
  - eapply pop_queue_or_cons; [exact Hs1|].
    rewrite queue_new_advance. exact Hq.
Qed.

(** An exception of the scan leaves the selection, except when
    ["morning"] finds a link in the queue and does not scan. *)
Lemma pick_link_for_run_raised source mode (σ : Store R) s σ1 :
  state σ !! id source = Some s ->
  mode <> lit "morning" ->
  pick_old_link R source σ = (Raised, σ1) ->
  pick_link_for_run R source mode σ = (Raised, σ1).
Proof.
  intros Hs Hmode Hold.
  unfold pick_link_for_run, bind at 1, get_entry. rewrite Hs.
  rewrite bool_decide_eq_false_2 by exact Hmode.
  unfold bind at 1. rewrite Hold. reflexivity.
Qed.

End PickFacts.

(** [utc_mode] only produces the two modes, ["morning"] before noon UTC. *)
Lemma utc_mode_morning hour :
  (utc_mode hour = lit "morning" <-> (hour < 12)%Z)
  /\ (utc_mode hour = lit "evening" <-> (12 <= hour)%Z).
Proof.
  unfold utc_mode. destruct (Z.ltb_spec hour 12); split; split;
    (reflexivity || discriminate || lia || (intros; lia)).
Qed.







(* ===================================================================== *)
(** * The publish step *)
(* ===================================================================== *)

Section PublishFacts.
Context (R : Runtime).

Lemma alter_entry (f : SourceState -> SourceState) (k : str)
    (m : gmap (list N) SourceState) s :
  m !! k = Some s -> alter f k m = <[k := f s]> m.
Proof.
  intros Hs. apply map_eq. intros j. destruct (decide (j = k)) as [->|Hj].
  - rewrite lookup_alter_eq, lookup_insert_eq, Hs. reflexivity.
  - rewrite lookup_alter_ne, lookup_insert_ne by congruence. reflexivity.
Qed.

(** Selection only touches the selected source's queue and cursor. *)
Lemma pick_link_for_run_frame source mode (σ : Store R) s :
  state σ !! id source = Some s ->
  exists r σ1 s1,
    pick_link_for_run R source mode σ = (r, σ1)
    /\ telegram σ1 = telegram σ
    /\ state σ1 = <[id source := s1]> (state σ)
    /\ sent_urls s1 = sent_urls s
    /\ queue_new s1 `suffix_of` queue_new s.
Proof.
  intros Hs.
  destruct (pick_old_link_outcome R source σ s Hs) as (old & σ' & m & Hold & Hst & Ht & _).
  assert (state σ' !! id source = Some (advance m s)) as Hs'
    by (rewrite Hst; apply lookup_insert_eq).
  destruct (decide (mode = lit "morning")) as [->|Hmode].
  - rewrite (pick_link_for_run_morning R source σ s Hs).
    destruct (queue_new s) as [|u q] eqn:Hq.
    + exists old, σ', (advance m s).
      rewrite sent_urls_advance, queue_new_advance, Hq. auto.
    + exists (Returned (Some u)), (popped source q σ), (set_queue_new q s).
      split; [reflexivity|]. split; [reflexivity|].
      split; [apply alter_entry, Hs|]. split; [reflexivity|].
      cbn [set_queue_new queue_new]. apply suffix_cons_r. reflexivity.
  - destruct old as [old|].
    2:{ rewrite (pick_link_for_run_raised R source mode σ s σ' Hs Hmode Hold).
        exists Raised, σ', (advance m s).
        rewrite sent_urls_advance, queue_new_advance. auto. }
    rewrite (pick_link_for_run_other R source mode σ s old σ' Hs Hmode Hold).
    destruct (truthy old).
    { exists (Returned old), σ', (advance m s).
      rewrite sent_urls_advance, queue_new_advance. auto. }
    destruct (queue_new s) as [|u q] eqn:Hq.
    { exists (Returned None), σ', (advance m s).
      rewrite sent_urls_advance, queue_new_advance, Hq. auto. }
    exists (Returned (Some u)), (popped source q σ'), (set_queue_new q (advance m s)).
    split; [reflexivity|]. split; [exact Ht|]. split; [|split].
    + unfold popped, with_state. cbn [state].
      rewrite (alter_entry _ _ _ _ Hs'), Hst. apply insert_insert_eq.
    + cbn [set_queue_new sent_urls]. apply sent_urls_advance.
    + cbn [set_queue_new queue_new]. apply suffix_cons_r. reflexivity.
Qed.


Lemma parse_project_frame link (σ σ' : Store R) r :
  parse_project R link σ = (r, σ') ->
  state σ' = state σ /\ telegram σ' = telegram σ.
Proof.
  unfold parse_project, bind, http_get.
  destruct (requests_get R link (world σ)) as [[html|] w];
    cbn [ret]; intros [= _ <-]; auto.
Qed.

(** A Telegram call is logged and leaves the state alone, whether it
    returns or raises. *)
Lemma tg_call_frame c (σ : Store R) :
  exists r σ', tg_call R c σ = (r, σ')
               /\ state σ' = state σ /\ telegram σ' = telegram σ ++ [c]
               /\ fetched σ' = fetched σ
               /\ (r = Raised <-> (requests_post R c (world σ)).1 = None).
Proof.
  unfold tg_call. destruct (requests_post R c (world σ)) as [[ok|] w];
    eexists _, _; (split; [reflexivity|]); cbn [state telegram fetched fst];
    repeat split; try reflexivity; discriminate.
Qed.

Lemma send_project_state src link (σ σ' : Store R) r :
  send_project R src link σ = (r, σ') -> state σ' = state σ.
Proof.
  unfold send_project. unfold bind at 1.
  destruct (parse_project R link σ) as [[project|] σ1] eqn:Ep;
    apply parse_project_frame in Ep as [Hst _].
  2:{ intros [= _ <-]. exact Hst. }
  unfold bind at 1.
  set (caption := Caption (name src) project).
  assert (forall σ2 (ok : bool),
            state σ2 = state σ1 ->
            (if ok then ret tt
             else bind (tg_send_message R caption) (fun _ => ret tt)) σ2 = (r, σ')
            -> state σ' = state σ) as Hend.
  { intros σ2 [|] H2.
    - intros [= _ <-]. congruence.
    - unfold bind, tg_send_message.
      destruct (tg_call_frame (SendMessage caption) σ2) as (r3 & σ3 & -> & H3 & _).
      destruct r3; intros [= _ <-]; congruence. }
  assert (forall p, bind (tg_send_photo R p caption)
            (fun sent_ok : bool => if sent_ok then ret tt
               else bind (tg_send_message R caption) (fun _ => ret tt)) σ1 = (r, σ')
            -> state σ' = state σ) as Hphoto.
  { intros p. unfold bind at 1, tg_send_photo.
    destruct (tg_call_frame (SendPhoto p caption) σ1) as (r2 & σ2 & -> & H2 & _).
    destruct r2 as [ok|].
    - intros H. exact (Hend σ2 ok H2 H).
    - intros [= _ <-]. congruence. }
  destruct (preview project) as [p|].
  - destruct (truthy (Some p) && bool_decide (is_Some (strip_prefix (lit "http") p))).
    + apply Hphoto.
    + intros H. exact (Hend σ1 false eq_refl H).
  - intros H. exact (Hend σ1 false eq_refl H).
Qed.

Lemma last_k_small {A} k (l : list A) : (length l <= k)%nat -> last_k k l = l.
Proof.
  intros H. unfold last_k. replace (length l - k)%nat with 0%nat by lia.
  reflexivity.
Qed.

(** The three statements under [# mark as sent], as one update. *)
Lemma mark_sent_spec src link (σ : Store R) st :
  state σ !! id src = Some st ->
  mark_sent R src link σ =
  (Returned tt,
   with_state R <[id src := set_sent_urls (last_k 5000 (sent_urls st ++ [link])) st]> σ).
Proof.
  intros Hst. unfold mark_sent, bind at 1, get_entry at 1. rewrite Hst.
  unfold bind at 1, update_entry at 1. unfold bind at 1, get_entry.
  cbn [with_state state]. rewrite lookup_alter_eq, Hst. cbn [fmap option_fmap option_map].
  cbn [set_sent_urls sent_urls].
  destruct (5000 <? length (sent_urls st ++ [link]))%nat eqn:E.
  - unfold update_entry, with_state. cbn [state world fetched telegram].
    do 2 f_equal. rewrite (alter_entry _ _ _ _ Hst).
    erewrite alter_entry by apply lookup_insert_eq.
    rewrite insert_insert_eq. reflexivity.
  - apply Nat.ltb_ge in E. rewrite (last_k_small _ _ E).
    unfold ret, with_state. do 2 f_equal.
    rewrite (alter_entry _ _ _ _ Hst). reflexivity.
Qed.

End PublishFacts.

Section PublishStep.
Context (R : Runtime).

(** [publish_source] once a non-empty link has been selected. *)
Lemma publish_source_selected mode src (σ σ0 σ1 : Store R) l :
  ensure_source_state R (id src) σ = (Returned tt, σ0) ->
  pick_link_for_run R src mode σ0 = (Returned (Some l), σ1) ->
  truthy (Some l) = true ->
  publish_source R mode src σ =
  match send_project R src l σ1 with
  | (Returned _, σ2) => mark_sent R src l σ2
  | (Raised, σ2) =>
      match tg_send_message R (ParseErrorNotice (name src) l) σ2 with
      | (Returned _, σ3) => (Returned tt, σ3)
      | (Raised, σ3) => (Raised, σ3)
      end
  end.
Proof.
  intros He Hp Ht. unfold publish_source, bind at 1. rewrite He.
  unfold bind at 1. rewrite Hp, Ht. unfold bind at 1, try_except, bind at 1.
  destruct (send_project R src l σ1) as [[[]|] σ2]; [reflexivity|].
  unfold bind.
  destruct (tg_send_message R (ParseErrorNotice (name src) l) σ2) as [[ok|] σ3];
    reflexivity.
Qed.

Lemma last_k_snoc {A} k (l : list A) x :
  (0 < k)%nat -> last (last_k k (l ++ [x])) = Some x.
Proof.
  intros Hk. unfold last_k. rewrite length_app. cbn [length].
  rewrite drop_app_le by lia. apply last_snoc.
Qed.

Lemma last_k_length {A} k (l : list A) : (length (last_k k l) <= k)%nat.
Proof. unfold last_k. rewrite length_drop. lia. Qed.

End PublishStep.

(** C6.  When the second loop of [main] publishes the link [l] it selected
    for a source (metadata extracted, caption sent), the source's
    [sent_urls] becomes the last 5000 entries of the previous list followed
    by [l]: [l] is its last element, it has at most 5000 entries, it is a
    suffix of the previous list followed by [l] (so only the oldest entries
    are dropped and the order of the others is kept), and nothing is dropped
    while the cap is not exceeded. *)
Theorem publish_appends_capped (R : Runtime) (mode : str) (src : Source)
    (σ σ0 σ1 σ2 : Store R) (s0 : SourceState) (l : str) :
  ensure_source_state R (id src) σ = (Returned tt, σ0) ->
  state σ0 !! id src = Some s0 ->
  pick_link_for_run R src mode σ0 = (Returned (Some l), σ1) ->
  truthy (Some l) = true ->
  send_project R src l σ1 = (Returned tt, σ2) ->
  exists σ' st',
    publish_source R mode src σ = (Returned tt, σ')
    /\ state σ' !! id src = Some st'
    /\ sent_urls st' = last_k 5000 (sent_urls s0 ++ [l])
    /\ last (sent_urls st') = Some l
    /\ (length (sent_urls st') <= 5000)%nat
    /\ sent_urls st' `suffix_of` (sent_urls s0 ++ [l])
    /\ ((length (sent_urls s0 ++ [l]) <= 5000)%nat ->
        sent_urls st' = sent_urls s0 ++ [l]).
Proof.
  intros He Hs0 Hp Ht Hsend.
  rewrite (publish_source_selected R mode src σ σ0 σ1 l He Hp Ht), Hsend.
  destruct (pick_link_for_run_frame R src mode σ0 s0 Hs0)
    as (r & σ1' & s1 & Hp' & _ & Hst1 & Hsent1 & _).
  rewrite Hp in Hp'. injection Hp' as <- <-.
  assert (state σ2 !! id src = Some s1) as Hs2.
  { rewrite (send_project_state R src l σ1 σ2 _ Hsend), Hst1.
    apply lookup_insert_eq. }
  rewrite (mark_sent_spec R src l σ2 s1 Hs2), Hsent1.
  eexists _, _. split; [reflexivity|].
  split; [cbn [with_state state]; apply lookup_insert_eq|].
  cbn [set_sent_urls sent_urls].
  split; [reflexivity|]. split; [apply last_k_snoc; lia|].
  split; [apply last_k_length|]. split; [apply suffix_drop|].
  apply last_k_small.
Qed.

Lemma publish_appends_capped_witness :
  exists st',
    state (publish_source leibal_web (lit "morning") leibal
             (store_of leibal_web tt (lit "leibal") queued_a)).2 !! lit "leibal"
    = Some st'
    /\ sent_urls st' = [url_a].
Proof.
  destruct (publish_appends_capped leibal_web (lit "morning") leibal
              (store_of leibal_web tt (lit "leibal") queued_a)
              (store_of leibal_web tt (lit "leibal") queued_a)
              (pick_link_for_run leibal_web leibal (lit "morning")
                 (store_of leibal_web tt (lit "leibal") queued_a)).2
              (send_project leibal_web leibal url_a
                 (pick_link_for_run leibal_web leibal (lit "morning")
                    (store_of leibal_web tt (lit "leibal") queued_a)).2).2
              queued_a url_a)
    as (σ' & st' & Hrun & Hst & Hsent & _).
  - reflexivity.
  - reflexivity.
  - vm_compute. reflexivity.
  - reflexivity.
  - vm_compute. reflexivity.
  - exists st'. rewrite Hrun. split; [exact Hst | exact Hsent].
Defined.




(* ===================================================================== *)
(** * Deduplication *)
(* ===================================================================== *)

Section DedupFacts.
Context (R : Runtime).

Lemma append_new_filter sent queued links q :
  append_new sent queued links q
  = q ++ filter (fun u => (u ∉ sent) /\ (u ∉ queued)) links.
Proof.
  revert q. induction links as [|u links IH]; intros q; cbn [append_new].
  - rewrite app_nil_r. reflexivity.
  - unfold py_in. rewrite filter_cons.
    destruct (decide (u ∈ sent)) as [Hs|Hs].
    + rewrite (bool_decide_eq_true_2 _ Hs). cbn [negb andb].
      rewrite decide_False by tauto. apply IH.
    + rewrite (bool_decide_eq_false_2 _ Hs). cbn [negb andb].
      destruct (decide (u ∈ queued)) as [Hq|Hq].
      * rewrite (bool_decide_eq_true_2 _ Hq). cbn [negb].
        rewrite decide_False by tauto. apply IH.
      * rewrite (bool_decide_eq_false_2 _ Hq). cbn [negb].
        rewrite decide_True by tauto. rewrite IH, <- app_assoc. reflexivity.
Qed.

Lemma add_new_links_to_queue_spec source links (σ : Store R) s :
  state σ !! id source = Some s ->
  add_new_links_to_queue R source links σ =
  (Returned tt,
   with_state R
     <[id source :=
         set_queue_new
           (queue_new s ++ filter (fun u => (u ∉ sent_urls s) /\ (u ∉ queue_new s)) links)
           s]> σ).
Proof.
  intros Hs. unfold add_new_links_to_queue, bind, get_entry. rewrite Hs.
  unfold update_entry, with_state. do 2 f_equal.
  rewrite (alter_entry _ _ _ _ Hs), append_new_filter. reflexivity.
Qed.

Lemma NoDup_app_filter_fresh (q links : list str) (P : str -> Prop)
    `{!forall u, Decision (P u)} :
  (forall u, P u -> u ∉ q) ->
  NoDup links -> NoDup q -> NoDup (q ++ filter P links).
Proof.
  intros HP Hl Hq. apply NoDup_app. split; [exact Hq|]. split.
  - intros u Hu [HPu _]%list_elem_of_filter. exact (HP u HPu Hu).
  - apply NoDup_filter, Hl.
Qed.

End DedupFacts.

(* ===================================================================== *)
(** * An invariant of [main]: duplicate-free queues *)
(* ===================================================================== *)

Section QueueInvariant.
Context (R : Runtime).
Hypothesis extract_nodup :
  forall src html links,
    extract_links_from_list R src html = Some links -> NoDup links.

Lemma queues_nodup_insert m k e :
  queues_nodup m -> NoDup (queue_new e) -> queues_nodup (<[k := e]> m).
Proof.
  intros Hm He j e' Hj. destruct (decide (j = k)) as [->|Hne].
  - rewrite lookup_insert_eq in Hj. congruence.
  - rewrite lookup_insert_ne in Hj by congruence. eapply Hm, Hj.
Qed.

Lemma NoDup_suffix (q l : list str) : q `suffix_of` l -> NoDup l -> NoDup q.
Proof. intros [k ->] H. apply NoDup_app in H. tauto. Qed.

Lemma ensure_source_state_nodup key (σ : Store R) :
  queues_nodup (state σ) ->
  exists σ0 s0, ensure_source_state R key σ = (Returned tt, σ0)
                /\ state σ0 !! key = Some s0
                /\ queues_nodup (state σ0).
Proof.
  intros HI. unfold ensure_source_state.
  destruct (state σ !! key) as [s|] eqn:E.
  - exists σ, s. auto.
  - eexists _, default_state. split; [reflexivity|]. cbn [with_state state].
    split; [apply lookup_insert_eq|].
    apply queues_nodup_insert; [exact HI | constructor].
Qed.

Lemma refresh_source_nodup src (σ : Store R) :
  queues_nodup (state σ) -> queues_nodup (state (refresh_source R src σ).2).
Proof.
  intros HI.
  destruct (ensure_source_state_nodup (id src) σ HI) as (σ0 & s0 & He & Hs0 & HI0).
  unfold refresh_source, bind at 1. rewrite He.
  unfold try_except, bind at 1, http_get.
  destruct (requests_get R (list_url src) (world σ0)) as [[html|] w];
    [|exact HI0].
  unfold bind at 1, extract_links.
  destruct (extract_links_from_list R src html) as [links|] eqn:Ex; [|exact HI0].
  match goal with |- context [add_new_links_to_queue R src ?ls ?σ1] =>
    rewrite (add_new_links_to_queue_spec R src ls σ1 s0 Hs0)
  end.
  cbn [snd with_state state]. apply queues_nodup_insert; [exact HI0|].
  cbn [set_queue_new queue_new].
  apply NoDup_app_filter_fresh;
    [tauto | eapply extract_nodup, Ex | eapply HI0, Hs0].
Qed.

Lemma publish_source_nodup mode src (σ : Store R) :
  queues_nodup (state σ) -> queues_nodup (state (publish_source R mode src σ).2).
Proof.
  intros HI.
  destruct (ensure_source_state_nodup (id src) σ HI) as (σ0 & s0 & He & Hs0 & HI0).
  destruct (pick_link_for_run_frame R src mode σ0 s0 Hs0)
    as (r & σ1 & s1 & Hp & _ & Hst1 & _ & Hq1).
  assert (NoDup (queue_new s1)) as Hs1 by (eapply NoDup_suffix, HI0, Hs0; exact Hq1).
  assert (queues_nodup (state σ1)) as HI1
    by (rewrite Hst1; apply queues_nodup_insert; assumption).
  assert (forall text, queues_nodup
            (state ((bind (tg_send_message R text) (fun _ => ret tt)) σ1).2)) as Hnotice.
  { intros text. unfold bind, tg_send_message.
    destruct (tg_call_frame R (SendMessage text) σ1) as (r2 & σ2 & -> & Hst2 & _).
    destruct r2; cbv beta iota delta [ret snd]; rewrite Hst2; exact HI1. }
  destruct r as [[l|]|].
  3:{ unfold publish_source, bind at 1. rewrite He. unfold bind at 1. rewrite Hp.
      exact HI1. }
  2:{ unfold publish_source, bind at 1. rewrite He. unfold bind at 1. rewrite Hp.
      apply Hnotice. }
  destruct (truthy (Some l)) eqn:Ht.
  2:{ unfold publish_source, bind at 1. rewrite He. unfold bind at 1.
      rewrite Hp, Ht. apply Hnotice. }
  rewrite (publish_source_selected R mode src σ σ0 σ1 l He Hp Ht).
  destruct (send_project R src l σ1) as [[[]|] σ2] eqn:Esend;
    apply send_project_state in Esend.
  - assert (state σ2 !! id src = Some s1) as Hs2
      by (rewrite Esend, Hst1; apply lookup_insert_eq).
    rewrite (mark_sent_spec R src l σ2 s1 Hs2). cbn [snd with_state state].
    apply queues_nodup_insert; [rewrite Esend; exact HI1 | exact Hs1].
  - unfold tg_send_message.
    destruct (tg_call_frame R (SendMessage (ParseErrorNotice (name src) l)) σ2)
      as (r3 & σ3 & -> & Hst3 & _).
    destruct r3; cbn [snd]; rewrite Hst3, Esend; exact HI1.
Qed.

Lemma for_each_nodup {A} (f : A -> M R unit) (l : list A) :
  (forall x σ, queues_nodup (state σ) -> queues_nodup (state (f x σ).2)) ->
  forall σ, queues_nodup (state σ) -> queues_nodup (state (for_each R f l σ).2).
Proof.
  intros Hf. induction l as [|x l IH]; intros σ HI; [exact HI|].
  cbn [for_each]. unfold bind. specialize (Hf x σ HI).
  destruct (f x σ) as [[[]|] σ1]; [apply IH|]; exact Hf.
Qed.

(** A run keeps every queue free of duplicates. *)
Lemma main_nodup mode sources (σ : Store R) :
  queues_nodup (state σ) -> queues_nodup (state (main R mode sources σ).2).
Proof.
  intros HI. unfold main, bind.
  pose proof (for_each_nodup (refresh_source R) sources refresh_source_nodup σ HI) as H1.
  destruct (for_each R (refresh_source R) sources σ) as [[[]|] σ1]; [|exact H1].
  apply for_each_nodup; [apply publish_source_nodup | exact H1].
Qed.

Lemma runs_nodup plan (σ : Store R) :
  queues_nodup (state σ) -> queues_nodup (state (runs R plan σ)).
Proof.
  revert σ. induction plan as [|[mode sources] plan IH]; intros σ HI; [exact HI|].
  cbn [runs]. apply IH. unfold run.
  pose proof (main_nodup mode sources σ HI) as H.
  destruct (main R mode sources σ) as [[[]|] σ']; [exact H | exact HI].
Qed.

End QueueInvariant.

(** X20.  What the code does against duplicates.  Membership is tested on
    the URL strings as they are ([normalize_url] is not applied).  On a
    source that has a state entry, a refresh appends to [queue_new] exactly
    the extracted links that are in neither [sent_urls] nor [queue_new]
    when it starts and leaves [sent_urls] alone, so that it never inserts a
    URL that [sent_urls] holds at that time, and [pick_old_link] never
    returns a URL that [sent_urls] holds when it is called.  And, whatever
    the stored state (also when it is empty), if every list that the
    extractor returns is duplicate-free, no sequence of runs puts a
    duplicate into a [queue_new] that had none. *)
Theorem dedup_guards (R : Runtime) (σ : Store R) :
  (forall source s links,
      state σ !! id source = Some s ->
      exists σ' s',
        add_new_links_to_queue R source links σ = (Returned tt, σ')
        /\ state σ' !! id source = Some s'
        /\ sent_urls s' = sent_urls s
        /\ queue_new s'
           = queue_new s
             ++ filter (fun u => (u ∉ sent_urls s) /\ (u ∉ queue_new s)) links
        /\ (forall u, u ∈ queue_new s' -> u ∈ sent_urls s -> u ∈ queue_new s)
        /\ (NoDup links -> NoDup (queue_new s) -> NoDup (queue_new s')))
  /\ (forall source s u σ',
        state σ !! id source = Some s ->
        pick_old_link R source σ = (Returned (Some u), σ') ->
        u ∉ sent_urls s)
  /\ ((forall src html links,
         extract_links_from_list R src html = Some links -> NoDup links) ->
      queues_nodup (state σ) ->
      forall plan, queues_nodup (state (runs R plan σ))).
Proof.
  split; [|split].
  - intros source s links Hs. eexists _, _.
    split; [apply (add_new_links_to_queue_spec R source links σ s Hs)|].
    split; [cbn [with_state state]; apply lookup_insert_eq|].
    cbn [set_queue_new sent_urls queue_new].
    split; [reflexivity|]. split; [reflexivity|]. split.
    + intros u [Hu|Hu]%elem_of_app Hsent; [exact Hu|].
      apply list_elem_of_filter in Hu as [[Hns _] _]. contradiction.
    + apply NoDup_app_filter_fresh. tauto.
  - intros source s u σ' Hs Hrun.
    destruct (pick_old_link_outcome R source σ s Hs)
      as (r & σ1 & m & Hrun' & _ & _ & Hv).
    rewrite Hrun in Hrun'. injection Hrun' as <- <-. apply Hv. reflexivity.
  - intros Hex HI plan. apply runs_nodup; assumption.
Qed.

Lemma dedup_guards_witness :
  (queue_new <$>
     state (add_new_links_to_queue leibal_web leibal [url_b; url_a]
              (store_of leibal_web tt (lit "leibal") sent_b)).2
       !! lit "leibal") = Some [url_a]
  /\ queues_nodup
       (state (runs leibal_web
                 [(lit "evening", [leibal]); (lit "morning", [leibal])]
                 (empty_store leibal_web tt))).
Proof.
  split.
  - destruct (dedup_guards leibal_web (store_of leibal_web tt (lit "leibal") sent_b))
      as (Hadd & _ & _).
    destruct (Hadd leibal sent_b [url_b; url_a] eq_refl)
      as (σ' & s' & -> & Hs' & _ & Hq & _).
    change (state σ' !! lit "leibal" = Some s') in Hs'.
    cbn [snd]. rewrite Hs'. cbn [fmap option_fmap option_map]. rewrite Hq.
    vm_compute. reflexivity.
  - destruct (dedup_guards leibal_web (empty_store leibal_web tt)) as (_ & _ & Hinv).
    apply Hinv.
    + intros src html links. cbn. intros [= <-].
      repeat case_bool_decide; repeat constructor.
      intros Hin. inversion Hin.
    + intros k e Hk. cbn in Hk. rewrite lookup_empty in Hk. discriminate.
Defined.

(** C1.  A defect of the selection: the link that [pick_link_for_run] pops
    from [queue_new] is not tested against [sent_urls], while the refresh
    and the backlog scan both test the links they handle.  Two runs over a
    site whose front page lists one article: the evening run queues the
    article, finds it again by the backlog scan and publishes it, so that
    after the run it is in [sent_urls] and still in [queue_new]; the next
    morning run pops it from the queue and publishes it a second time. *)
Lemma dedup_invariant_broken :
  let σ1 := run leibal_web (lit "evening") [leibal] (empty_store leibal_web tt) in
  let σ2 := run leibal_web (lit "morning") [leibal] σ1 in
  let project_b :=
    {| title := url_b; desc := None; authors := None; photographer := None;
       preview := None; url := url_b |} in
  state σ1 !! lit "leibal"
    = Some {| sent_urls := [url_b]; queue_new := [url_b]; archive_page := Some 2%Z |}
  /\ ~ NoDup (List.map normalize_url ([url_b] ++ [url_b]))
  /\ (pick_link_for_run leibal_web leibal (lit "morning") σ1).1
     = Returned (Some url_b)
  /\ state σ2 !! lit "leibal"
     = Some {| sent_urls := [url_b; url_b]; queue_new := []; archive_page := Some 2%Z |}
  /\ telegram σ2 = [SendMessage (Caption (lit "Leibal") project_b);
                    SendMessage (Caption (lit "Leibal") project_b)].
Proof.
  intros σ1 σ2 project_b.
  split; [vm_compute; reflexivity|]. split.
  - intros H. apply NoDup_cons in H as [H _]. apply H. left.
  - split; [vm_compute; reflexivity|]. split; vm_compute; reflexivity.
Qed.

(* ===================================================================== *)
(** * The description snippet *)
(* ===================================================================== *)

Section SnippetFacts.

Lemma collapse_ws_from_separated b s :
  ws_separated_from b (collapse_ws_from b s).
Proof.
  revert b. induction s as [|c s IH]; intros b; cbn [collapse_ws_from]; [exact I|].
  destruct (isspace c) eqn:Hc.
  - destruct b; [apply IH|]. split; [discriminate|]. apply IH.
  - split; [intros _; exact Hc|]. rewrite Hc. apply IH.
Qed.

Lemma ws_separated_from_take b n s :
  ws_separated_from b s -> ws_separated_from b (take n s).
Proof.
  revert b s. induction n as [|n IH]; intros b [|c s]; cbn; auto.
  intros [H1 H2]. split; auto.
Qed.

Lemma rstrip_nil_all_ws s : rstrip s = [] -> Forall (fun c => isspace c = true) s.
Proof.
  unfold rstrip. intros H.
  destruct (rstrip_by_split isspace s) as (t & Hs & Ht).
  rewrite H in Hs. simpl in Hs. subst s. exact Ht.
Qed.

(** On such a string [rstrip] removes at most one character. *)
Lemma rstrip_separated_length b s :
  ws_separated_from b s -> (length s <= S (length (rstrip s)))%nat.
Proof.
  revert b. induction s as [|c s IH]; intros b; [cbn; lia|].
  intros [_ Hs]. specialize (IH _ Hs). unfold rstrip in *. cbn [rstrip_by].
  destruct (rstrip_by isspace s) as [|y r] eqn:E; [|cbn in *; lia].
  destruct (isspace c) eqn:Hc; [|cbn in *; lia].
  apply rstrip_nil_all_ws in E. destruct s as [|y s]; [cbn; lia|].
  destruct Hs as [Hy _]. inversion E; subst. rewrite Hy in *; [discriminate|reflexivity].
Qed.

Lemma rstrip_length s : (length (rstrip s) <= length s)%nat.
Proof.
  destruct (rstrip_by_split isspace s) as (t & Hs & _).
  rewrite Hs at 2. rewrite length_app. unfold rstrip. lia.
Qed.

Lemma trim_desc_Some d :
  trim_desc (Some d) =
  Some (if (320 <? length (collapse_ws (strip d)))%nat
        then rstrip (take 317 (collapse_ws (strip d))) ++ [chr_ellipsis]
        else collapse_ws (strip d)).
Proof.
  destruct d as [|c d]; [reflexivity|]. unfold trim_desc. cbn [truthy].
  destruct (320 <? _)%nat; reflexivity.
Qed.

End SnippetFacts.

(** C7 (as amended).  With [nd] the stripped, whitespace-collapsed form of
    an extracted description: when [nd] is longer than 320 characters the
    stored description is the first 317 characters of [nd] with trailing
    whitespace removed, followed by one ellipsis character; it has 318
    characters, or 317 when the 317th character of [nd] is a space, and it
    is the first 317 characters followed by the ellipsis whenever that
    character is not whitespace.  When [nd] has 320 characters or fewer the
    stored description is [nd] itself. *)
Theorem trim_desc_snippet (d : str) :
  let nd := collapse_ws (strip d) in
  ((320 < length nd)%nat ->
     trim_desc (Some d) = Some (rstrip (take 317 nd) ++ [chr_ellipsis])
     /\ (317 <= length (rstrip (take 317 nd) ++ [chr_ellipsis]) <= 318)%nat
     /\ (forall c, nd !! 316%nat = Some c -> isspace c = false ->
           trim_desc (Some d) = Some (take 317 nd ++ [chr_ellipsis])))
  /\ ((length nd <= 320)%nat -> trim_desc (Some d) = Some nd).
Proof.
  intros nd. rewrite trim_desc_Some. fold nd. split.
  - intros Hlen. rewrite (proj2 (Nat.ltb_lt _ _) Hlen).
    split; [reflexivity|]. split.
    + rewrite length_app. cbn [length].
      pose proof (rstrip_separated_length false (take 317 nd)
                    (ws_separated_from_take _ _ _ (collapse_ws_from_separated false _))).
      pose proof (rstrip_length (take 317 nd)).
      rewrite length_take in *. lia.
    + intros c Hc Hws. rewrite (take_S_r nd 316 c Hc).
      unfold rstrip. rewrite rstrip_by_snoc, Hws. reflexivity.
  - intros Hlen. rewrite (proj2 (Nat.ltb_ge _ _) Hlen). reflexivity.
Qed.

Lemma trim_desc_snippet_witness :
  let d := replicate 400 97 in
  trim_desc (Some d) = Some (replicate 317 97 ++ [chr_ellipsis])
  /\ trim_desc (Some (lit "A  small   house")) = Some (lit "A small house").
Proof.
  split.
  - destruct (trim_desc_snippet (replicate 400 97)) as [[H _] _].
    + vm_compute. lia.
    + rewrite H. vm_compute. reflexivity.
  - destruct (trim_desc_snippet (lit "A  small   house")) as [_ H].
    rewrite H; [reflexivity | vm_compute; lia].
Defined.

(** C7 (as stated) fails: when the 317th character is a space, the stored
    description is 316 characters and the ellipsis, not the first 317
    characters and the ellipsis. *)
Lemma trim_desc_drops_trailing_space :
  let d := replicate 316 97 ++ [chr_space] ++ replicate 10 98 in
  collapse_ws (strip d) = d
  /\ length d = 327%nat
  /\ trim_desc (Some d) = Some (replicate 316 97 ++ [chr_ellipsis])
  /\ trim_desc (Some d) <> Some (take 317 d ++ [chr_ellipsis])
  /\ (length <$> trim_desc (Some d)) = Some 317%nat.
Proof.
  intros d.
  assert (trim_desc (Some d) = Some (replicate 316 97 ++ [chr_ellipsis])) as H
    by (vm_compute; reflexivity).
  split; [vm_compute; reflexivity|]. split; [reflexivity|]. split; [exact H|].
  rewrite H. split; [|reflexivity].
  intros E. apply (f_equal (fmap length)) in E. vm_compute in E. discriminate.
Qed.

(* ===================================================================== *)
(** * Credit extraction *)
(* ===================================================================== *)

Section CreditFacts.
Context (R : Runtime).

Lemma credit_value_no_sep group1 c :
  c ∈ credit_value group1 -> is_credit_sep c = false.
Proof.
  unfold credit_value. intros H%strip_subseteq. eapply before_no_sep, H.
Qed.

Lemma find_credit_cons text pat rest :
  find_credit R text (pat :: rest) =
  match re_search R pat text with
  | Some group1 =>
      if (2 <=? length (credit_value group1))%nat
         && (length (credit_value group1) <=? 120)%nat
      then Some (credit_value group1)
      else find_credit R text rest
  | None => find_credit R text rest
  end.
Proof. reflexivity. Qed.

Lemma length_test_true (v : str) :
  (2 <=? length v)%nat && (length v <=? 120)%nat = true
  <-> (2 <= length v <= 120)%nat.
Proof.
  rewrite andb_true_iff, Nat.leb_le, Nat.leb_le. reflexivity.
Qed.

Lemma find_credit_Some text patterns v :
  find_credit R text patterns = Some v <->
  exists skipped pat rest group1,
    patterns = skipped ++ pat :: rest
    /\ (forall p, p ∈ skipped -> credit_rejected R text p)
    /\ re_search R pat text = Some group1
    /\ v = credit_value group1
    /\ (2 <= length v <= 120)%nat.
Proof.
  induction patterns as [|pat0 pats IH].
  - split; [discriminate|]. intros (sk & ? & ? & ? & H & _).
    destruct sk; discriminate.
  - rewrite find_credit_cons. split.
    + destruct (re_search R pat0 text) as [g|] eqn:Eg.
      * destruct (_ && _) eqn:Hlen.
        -- intros [= <-]. exists [], pat0, pats, g.
           apply length_test_true in Hlen.
           split; [reflexivity|]. split; [intros p Hp; inversion Hp|]. auto.
        -- intros (sk & pat & rest & g' & -> & Hsk & Hrest)%IH.
           exists (pat0 :: sk), pat, rest, g'. split; [reflexivity|].
           split; [|exact Hrest]. intros p [->|Hp]%elem_of_cons; [|auto].
           right. exists g. split; [exact Eg|].
           intros Hv%length_test_true. congruence.
      * intros (sk & pat & rest & g' & -> & Hsk & Hrest)%IH.
        exists (pat0 :: sk), pat, rest, g'. split; [reflexivity|].
        split; [|exact Hrest]. intros p [->|Hp]%elem_of_cons; [|auto].
        left. exact Eg.
    + intros (sk & pat & rest & g' & Hsplit & Hsk & Hg & -> & Hlen).
      destruct sk as [|p0 sk]; injection Hsplit as -> ->.
      * rewrite Hg. rewrite (proj2 (length_test_true _) Hlen). reflexivity.
      * assert (find_credit R text (sk ++ pat :: rest) = Some (credit_value g')) as Hrec.
        { apply IH. exists sk, pat, rest, g'. split; [reflexivity|].
          split; [intros p Hp; apply Hsk; right; exact Hp|]. auto. }
        destruct (Hsk p0) as [->|(g & -> & Hbad)]; [left | exact Hrec |].
        destruct (_ && _) eqn:Hl; [|exact Hrec].
        apply length_test_true in Hl. contradiction.
Qed.

Lemma find_credit_None text patterns :
  find_credit R text patterns = None <->
  forall p, p ∈ patterns -> credit_rejected R text p.
Proof.
  induction patterns as [|pat0 pats IH].
  - split; [intros _ p Hp; inversion Hp | reflexivity].
  - rewrite find_credit_cons. split.
    + destruct (re_search R pat0 text) as [g|] eqn:Eg.
      * destruct (_ && _) eqn:Hlen; [discriminate|].
        intros Hn p [->|Hp]%elem_of_cons; [|exact (proj1 IH Hn p Hp)].
        right. exists g. split; [exact Eg|].
        intros Hv%length_test_true. congruence.
      * intros Hn p [->|Hp]%elem_of_cons; [|exact (proj1 IH Hn p Hp)].
        left. exact Eg.
    + intros Hall.
      assert (find_credit R text pats = None) as Hrec
        by (apply IH; intros p Hp; apply Hall; right; exact Hp).
      destruct (Hall pat0) as [->|(g & -> & Hbad)]; [left | exact Hrec |].
      destruct (_ && _) eqn:Hl; [|exact Hrec].
      apply length_test_true in Hl. contradiction.
Qed.

End CreditFacts.

(** C8 (as amended).  [find_credit] tries the patterns in order and returns
    the value of the first pattern that matches the text and whose value
    (group 1, stripped, cut at the first line break or separator character,
    stripped again) has between 2 and 120 characters; patterns that do not
    match, or whose value has another length, are passed over, and the
    result is absent only when every pattern is passed over.  A returned
    value contains no line break or separator character. *)
Theorem find_credit_first_acceptable (R : Runtime) (text : str)
    (patterns : list str) :
  (forall v, find_credit R text patterns = Some v <->
     exists skipped pat rest group1,
       patterns = skipped ++ pat :: rest
       /\ (forall p, p ∈ skipped -> credit_rejected R text p)
       /\ re_search R pat text = Some group1
       /\ v = strip (before is_credit_sep (strip group1))
       /\ (2 <= length v <= 120)%nat)
  /\ (find_credit R text patterns = None <->
      forall p, p ∈ patterns -> credit_rejected R text p)
  /\ (forall v c, find_credit R text patterns = Some v -> c ∈ v ->
        is_credit_sep c = false).
Proof.
  split; [intros v; apply find_credit_Some|]. split; [apply find_credit_None|].
  intros v c (_ & _ & _ & g & _ & _ & _ & -> & _)%find_credit_Some.
  apply credit_value_no_sep.
Qed.

Lemma find_credit_first_acceptable_witness :
  find_credit label_runtime credits_text credit_patterns_demo
  = Some (lit "Foster + Partners").
Proof.
  destruct (find_credit_first_acceptable label_runtime credits_text
              credit_patterns_demo) as (H & _ & _).
  apply H.
  exists [lit "Photography:\s*([^\n]+)"], (lit "Studio:\s*([^\n]+)"), [],
         (lit "Foster + Partners").
  split; [reflexivity|]. split.
  - intros p ->%list_elem_of_singleton. right. exists (lit "-").
    split; [reflexivity|]. vm_compute. lia.
  - split; [reflexivity|]. split; [reflexivity|]. vm_compute. lia.
Defined.

(** C8 (as stated) fails: the first pattern that matches yields a value of
    one character, and the result is not absent: the search goes on and a
    later pattern wins. *)
Lemma find_credit_later_pattern_wins :
  re_search label_runtime (lit "Photography:\s*([^\n]+)") credits_text
    = Some (lit "-")
  /\ length (credit_value (lit "-")) = 1%nat
  /\ find_credit label_runtime credits_text credit_patterns_demo
     = Some (lit "Foster + Partners")
  /\ find_credit label_runtime credits_text credit_patterns_demo <> None.
Proof.
  split; [reflexivity|]. split; [reflexivity|]. split; [reflexivity|].
  discriminate.
Qed.

(* ===================================================================== *)
(** * Captions *)
(* ===================================================================== *)

Section CaptionFacts.

Lemma replace_char_app c rep s1 s2 :
  replace_char c rep (s1 ++ s2) = replace_char c rep s1 ++ replace_char c rep s2.
Proof. unfold replace_char. apply flat_map_app. Qed.

Lemma replace_char_elem c rep s x :
  x ∈ replace_char c rep s -> x ∈ rep \/ (x ∈ s /\ x <> c).
Proof.
  unfold replace_char. induction s as [|y s IH]; cbn [flat_map].
  - intros H. inversion H.
  - intros [H|H]%elem_of_app.
    + destruct (N.eqb_spec y c) as [->|Hne]; [left; exact H|].
      apply list_elem_of_singleton in H as ->. right. split; [left | exact Hne].
    + destruct (IH H) as [?|[? ?]]; [left; assumption|].
      right. split; [right|]; assumption.
Qed.

Lemma esc_cons c s : esc (c :: s) = esc_char c ++ esc s.
Proof.
  unfold esc, esc_char.
  change (replace_char chr_amp (lit "&amp;") (c :: s))
    with ((if c =? chr_amp then lit "&amp;" else [c])
          ++ replace_char chr_amp (lit "&amp;") s).
  rewrite !replace_char_app. f_equal.
  destruct (N.eqb_spec c chr_amp) as [->|Ha]; [reflexivity|].
  destruct (N.eqb_spec c chr_lt) as [->|Hl]; [reflexivity|].
  destruct (N.eqb_spec c chr_gt) as [->|Hg]; [reflexivity|].
  unfold replace_char. cbn [flat_map app].
  rewrite (proj2 (N.eqb_neq c chr_lt) Hl). cbn [flat_map app].
  rewrite (proj2 (N.eqb_neq c chr_gt) Hg). reflexivity.
Qed.

Lemma esc_app s1 s2 : esc (s1 ++ s2) = esc s1 ++ esc s2.
Proof. unfold esc. rewrite !replace_char_app. reflexivity. Qed.

Lemma esc_char_cases c :
  (c = chr_amp /\ esc_char c = lit "&amp;")
  \/ (c = chr_lt /\ esc_char c = lit "&lt;")
  \/ (c = chr_gt /\ esc_char c = lit "&gt;")
  \/ (c <> chr_amp /\ c <> chr_lt /\ c <> chr_gt /\ esc_char c = [c]).
Proof.
  unfold esc_char.
  destruct (N.eqb_spec c chr_amp) as [->|Ha]; [left; auto|].
  destruct (N.eqb_spec c chr_lt) as [->|Hl]; [right; left; auto|].
  destruct (N.eqb_spec c chr_gt) as [->|Hg]; [right; right; left; auto|].
  right. right. right. auto.
Qed.

Lemma esc_inj s1 s2 : esc s1 = esc s2 -> s1 = s2.
Proof.
  revert s2. induction s1 as [|a s1 IH]; intros [|b s2].
  - reflexivity.
  - rewrite esc_cons. destruct (esc_char_cases b) as [[_ ->]|[[_ ->]|[[_ ->]|(_ & _ & _ & ->)]]];
      discriminate.
  - rewrite esc_cons. destruct (esc_char_cases a) as [[_ ->]|[[_ ->]|[[_ ->]|(_ & _ & _ & ->)]]];
      discriminate.
  - rewrite !esc_cons.
    destruct (esc_char_cases a) as [[-> ->]|[[-> ->]|[[-> ->]|(Ha1 & Ha2 & Ha3 & ->)]]];
    destruct (esc_char_cases b) as [[-> ->]|[[-> ->]|[[-> ->]|(Hb1 & Hb2 & Hb3 & ->)]]];
      unfold chr_amp, chr_lt, chr_gt in *;
      change (lit "&amp;") with [38; 97; 109; 112; 59];
      change (lit "&lt;") with [38; 108; 116; 59];
      change (lit "&gt;") with [38; 103; 116; 59];
      cbn [app]; intros E; try discriminate E;
      try (injection E as E; f_equal; apply IH, E);
      try (injection E as E1 E; congruence);
      try (injection E as -> E; f_equal; apply IH, E).
Qed.

Lemma count_char_app c s1 s2 :
  count_char c (s1 ++ s2) = (count_char c s1 + count_char c s2)%nat.
Proof. unfold count_char. rewrite List.filter_app, length_app. reflexivity. Qed.

Lemma count_char_cons c x s :
  count_char c (x :: s) = ((if (c =? x)%N then 1 else 0) + count_char c s)%nat.
Proof. unfold count_char. cbn [List.filter]. destruct (c =? x); reflexivity. Qed.

Lemma count_char_zero c s : c ∉ s -> count_char c s = 0%nat.
Proof.
  unfold count_char. induction s as [|x s IH]; [reflexivity|].
  intros H. cbn [List.filter]. destruct (N.eqb_spec c x) as [->|_].
  - exfalso. apply H. left.
  - apply IH. intros Hin. apply H. right. exact Hin.
Qed.

Lemma esc_no_angle s : (chr_lt ∉ esc s) /\ (chr_gt ∉ esc s).
Proof.
  induction s as [|c s [IH1 IH2]]; [split; intros H; inversion H|].
  rewrite esc_cons.
  assert ((chr_lt ∉ esc_char c) /\ (chr_gt ∉ esc_char c)) as [H1 H2].
  { destruct (esc_char_cases c) as [[_ ->]|[[_ ->]|[[_ ->]|(_ & Hl & Hg & ->)]]];
      split; intros H;
      try (apply list_elem_of_singleton in H; congruence);
      vm_compute in H;
      repeat (apply elem_of_cons in H as [H|H]; [discriminate H|]);
      inversion H. }
  split; intros [H|H]%elem_of_app; contradiction.
Qed.

End CaptionFacts.

(** X1.  The escaping of [format_caption] leaves no [<] and no [>] in its
    result, distributes over concatenation, and sends different texts to
    different results. *)
Theorem esc_safe_and_injective (s1 s2 : str) :
  (chr_lt ∉ esc s1) /\ (chr_gt ∉ esc s1)
  /\ esc (s1 ++ s2) = esc s1 ++ esc s2
  /\ (esc s1 = esc s2 -> s1 = s2).
Proof.
  destruct (esc_no_angle s1) as [H1 H2].
  split; [exact H1|]. split; [exact H2|]. split; [apply esc_app | apply esc_inj].
Qed.

(** X2.  Whatever the source name and the project fields contain, the
    caption has exactly ten [<] and ten [>]: those of its own five pairs of
    tags.  Text taken from a page never opens or closes a tag. *)
Theorem format_caption_tags (source_name : str) (project : Project) :
  count_char chr_lt (format_caption source_name project) = 10%nat
  /\ count_char chr_gt (format_caption source_name project) = 10%nat.
Proof.
  assert (forall s, count_char chr_lt (esc s) = 0%nat) as Hl
    by (intros s; apply count_char_zero, esc_no_angle).
  assert (forall s, count_char chr_gt (esc s) = 0%nat) as Hg
    by (intros s; apply count_char_zero, esc_no_angle).
  unfold format_caption, caption_lines.
  destruct (field_or (desc project) []); cbn [app join];
    repeat (rewrite count_char_app || rewrite count_char_cons);
    rewrite ?Hl, ?Hg; split; reflexivity.
Qed.

(* ===================================================================== *)
(** * More on the state dictionary *)
(* ===================================================================== *)

(** X3.  [ensure_source_state] never raises and touches nothing but the
    state dictionary; afterwards the key is present; an entry that was
    there, under this key or another, is left as it was; a missing key gets
    the default entry (no sent URL, empty queue, cursor on page 1); and a
    second call changes nothing. *)
Theorem ensure_source_state_effect (R : Runtime) (key : str) (σ : Store R) :
  exists σ0,
    ensure_source_state R key σ = (Returned tt, σ0)
    /\ world σ0 = world σ /\ fetched σ0 = fetched σ /\ telegram σ0 = telegram σ
    /\ (forall k s, state σ !! k = Some s -> state σ0 !! k = Some s)
    /\ (forall k, k <> key -> state σ0 !! k = state σ !! k)
    /\ (state σ !! key = None -> state σ0 !! key = Some default_state)
    /\ is_Some (state σ0 !! key)
    /\ ensure_source_state R key σ0 = (Returned tt, σ0).
Proof.
  unfold ensure_source_state at 1. destruct (state σ !! key) as [s|] eqn:E.
  - exists σ. split; [reflexivity|]. do 3 (split; [reflexivity|]).
    split; [auto|]. split; [auto|]. split; [discriminate|]. split; [eauto|].
    unfold ensure_source_state. rewrite E. reflexivity.
  - eexists. split; [reflexivity|]. do 3 (split; [reflexivity|]).
    cbn [with_state state].
    split. { intros k s Hk. rewrite lookup_insert_ne; [exact Hk | congruence]. }
    split. { intros k Hk. apply lookup_insert_ne. congruence. }
    split. { intros _. apply lookup_insert_eq. }
    split. { rewrite lookup_insert_eq. eauto. }
    unfold ensure_source_state. cbn [with_state state].
    rewrite lookup_insert_eq. reflexivity.
Qed.

Section QueueMore.
Context (R : Runtime).

Lemma set_queue_new_same s : set_queue_new (queue_new s) s = s.
Proof. destruct s; reflexivity. Qed.

Lemma filter_none {A} (P : A -> Prop) `{!forall x, Decision (P x)} (l : list A) :
  (forall x, x ∈ l -> ~ P x) -> filter P l = [].
Proof.
  induction l as [|x l IH]; intros Hall; [reflexivity|].
  rewrite filter_cons, decide_False by (apply Hall; left).
  apply IH. intros y Hy. apply Hall. right. exact Hy.
Qed.

Lemma add_new_links_to_queue_missing source links (σ : Store R) :
  state σ !! id source = None ->
  add_new_links_to_queue R source links σ = (Raised, σ).
Proof.
  intros H. unfold add_new_links_to_queue, bind, get_entry. rewrite H. reflexivity.
Qed.

End QueueMore.

(** X4.  [add_new_links_to_queue] on a source without a state entry raises
    and changes nothing.  On a source with an entry it returns, keeps the
    old queue as a prefix of the new one (the queued links keep their
    order), and is idempotent: a second call with the same links leaves the
    store as the first call left it. *)
Theorem add_new_links_to_queue_idempotent (R : Runtime) (source : Source)
    (links : list str) (σ : Store R) :
  (state σ !! id source = None ->
     add_new_links_to_queue R source links σ = (Raised, σ))
  /\ (forall s, state σ !! id source = Some s ->
        exists σ' s',
          add_new_links_to_queue R source links σ = (Returned tt, σ')
          /\ state σ' !! id source = Some s'
          /\ queue_new s `prefix_of` queue_new s'
          /\ add_new_links_to_queue R source links σ' = (Returned tt, σ')).
Proof.
  split; [apply add_new_links_to_queue_missing|].
  intros s Hs. rewrite (add_new_links_to_queue_spec R source links σ s Hs).
  set (q' := queue_new s
             ++ filter (fun u => (u ∉ sent_urls s) /\ (u ∉ queue_new s)) links).
  exists (with_state R <[id source := set_queue_new q' s]> σ), (set_queue_new q' s).
  split; [reflexivity|].
  split; [cbn [with_state state]; apply lookup_insert_eq|].
  cbn [set_queue_new queue_new]. split; [apply prefix_app_r; reflexivity|].
  erewrite add_new_links_to_queue_spec
    by (cbn [with_state state]; apply lookup_insert_eq).
  unfold with_state. cbn [state world fetched telegram set_queue_new sent_urls queue_new archive_page].
  rewrite insert_insert_eq. do 3 f_equal.
  rewrite filter_none; [rewrite app_nil_r; reflexivity|].
  intros u Hu [Hsent Hq]. apply Hq. apply elem_of_app. right.
  apply list_elem_of_filter. split; [|exact Hu].
  split; [exact Hsent|]. intros Hin. apply Hq, elem_of_app. left. exact Hin.
Qed.

Lemma add_new_links_to_queue_idempotent_witness :
  let σ := store_of leibal_web tt (lit "leibal") sent_b in
  exists σ',
    add_new_links_to_queue leibal_web leibal [url_a; url_b; url_a] σ = (Returned tt, σ')
    /\ add_new_links_to_queue leibal_web leibal [url_a; url_b; url_a] σ' = (Returned tt, σ').
Proof.
  intros σ.
  destruct (add_new_links_to_queue_idempotent leibal_web leibal
              [url_a; url_b; url_a] σ) as [_ H].
  destruct (H sent_b) as (σ' & s' & H1 & _ & _ & H2); [reflexivity|].
  exists σ'. split; assumption.
Defined.

(* ===================================================================== *)
(** * What one step of [main] does to the store *)
(* ===================================================================== *)

Section StepFacts.
Context (R : Runtime).

Lemma pick_old_link_log source (σ : Store R) s :
  state σ !! id source = Some s ->
  exists r σ' log,
    pick_old_link R source σ = (r, σ')
    /\ fetched σ' = fetched σ ++ log
    /\ (length log <= 5)%nat
    /\ telegram σ' = telegram σ
    /\ state σ' = <[id source := advance (recorded log r) s]> (state σ)
    /\ (r = Raised <-> extraction_raised R source log).
Proof.
  intros Hs. rewrite (pick_old_link_scan R source σ s Hs).
  destruct (scan_pages_spec R 5 source (sent_urls s) σ s Hs)
    as (r & σ' & log & Hrun & Hf & Ht & Hst & Hlen & _ & _ & _ & _ & Hraise & _).
  exists r, σ', log. auto 10.
Qed.

Lemma pick_link_for_run_missing source mode (σ : Store R) :
  state σ !! id source = None ->
  pick_link_for_run R source mode σ = (Raised, σ).
Proof.
  intros H. unfold pick_link_for_run, bind, get_entry. rewrite H. reflexivity.
Qed.

(** Selection, on a source that has an entry. *)
Lemma pick_link_for_run_effect source mode (σ : Store R) s :
  state σ !! id source = Some s ->
  exists r σ1 m q log,
    pick_link_for_run R source mode σ = (r, σ1)
    /\ telegram σ1 = telegram σ
    /\ fetched σ1 = fetched σ ++ log
    /\ (length log <= 5)%nat
    /\ state σ1 = <[id source := set_queue_new q (advance m s)]> (state σ)
    /\ (q = queue_new s \/ exists u, queue_new s = u :: q /\ r = Returned (Some u))
    /\ (r = Raised <-> extraction_raised R source log).
Proof.
  intros Hs.
  destruct (pick_old_link_log source σ s Hs)
    as (old & σ' & log & Hold & Hf & Hlen & Ht & Hst & Hraise).
  set (n := recorded log old) in *.
  assert (state σ' !! id source = Some (advance n s)) as Hs'
    by (rewrite Hst; apply lookup_insert_eq).
  assert (forall m, set_queue_new (queue_new s) (advance m s) = advance m s) as Hsame.
  { intros m. rewrite <- (queue_new_advance m s). apply set_queue_new_same. }
  assert (forall (o : option (list N)),
            Returned o = Raised <-> extraction_raised R source []) as Hnil.
  { intros o. split; [discriminate | intros (u & html & [=] & _)]. }
  assert (forall (o o' : option (list N)),
            old = Returned o' ->
            Returned o = Raised <-> extraction_raised R source log) as Hret.
  { intros o o' ->. split; [discriminate|]. intros H. apply Hraise in H.
    discriminate. }
  destruct (decide (mode = lit "morning")) as [->|Hmode].
  - rewrite (pick_link_for_run_morning R source σ s Hs).
    destruct (queue_new s) as [|u q] eqn:Hq.
    + exists old, σ', n, [], log. rewrite Hsame. auto 10.
    + exists (Returned (Some u)), (popped source q σ), 0%nat, q, [].
      split; [reflexivity|]. split; [reflexivity|].
      split; [cbn; rewrite app_nil_r; reflexivity|]. split; [cbn; lia|].
      split; [apply alter_entry, Hs|]. split; [right; exists u; auto|].
      apply Hnil.
  - destruct old as [old|].
    2:{ rewrite (pick_link_for_run_raised R source mode σ s σ' Hs Hmode Hold).
        exists Raised, σ', n, (queue_new s), log. rewrite Hsame. auto 10. }
    rewrite (pick_link_for_run_other R source mode σ s old σ' Hs Hmode Hold).
    destruct (truthy old).
    { exists (Returned old), σ', n, (queue_new s), log. rewrite Hsame.
      repeat (split; [auto; fail|]). exact (Hret old old eq_refl). }
    destruct (queue_new s) as [|u q] eqn:Hq.
    { exists (Returned None), σ', n, [], log. rewrite Hsame.
      repeat (split; [auto; fail|]). exact (Hret None old eq_refl). }
    exists (Returned (Some u)), (popped source q σ'), n, q, log.
    split; [reflexivity|]. split; [exact Ht|]. split; [exact Hf|].
    split; [exact Hlen|]. split; [|split].
    + unfold popped, with_state. cbn [state].
      rewrite (alter_entry _ _ _ _ Hs'), Hst. apply insert_insert_eq.
    + right. exists u. auto.
    + exact (Hret (Some u) old eq_refl).
Qed.

(** A notice, or the caption as a message: one call, which may raise. *)
Lemma notify_effect text (σ : Store R) :
  exists r σ',
    bind (tg_send_message R text) (fun _ => ret tt) σ = (r, σ')
    /\ state σ' = state σ /\ fetched σ' = fetched σ
    /\ telegram σ' = telegram σ ++ [SendMessage text]
    /\ (r = Raised -> call_raises R (SendMessage text)).
Proof.
  unfold bind, tg_send_message.
  destruct (tg_call_frame R (SendMessage text) σ) as (r & σ' & -> & Hst & Ht & Hf & Hr).
  destruct r as [ok|].
  - exists (Returned tt), σ'. split; [reflexivity|]. repeat split; auto.
    discriminate.
  - exists Raised, σ'. split; [reflexivity|]. repeat split; auto.
    intros _. exists (world σ). apply Hr. reflexivity.
Qed.

Lemma notify_match text (σ : Store R) :
  match tg_send_message R text σ with
  | (Returned _, σ') => (Returned tt, σ')
  | (Raised, σ') => (Raised, σ')
  end = bind (tg_send_message R text) (fun _ => ret tt) σ.
Proof.
  unfold bind. destruct (tg_send_message R text σ) as [[ok|] σ']; reflexivity.
Qed.

(** The [try] block of the second loop: one request, then, when the page
    came, one or two Telegram calls carrying the caption of that page; the
    block raises when the request fails and when one of the calls raises,
    which is then the last call made. *)
Lemma send_project_effect src l (σ1 : Store R) :
  exists r σ2 doc calls,
    send_project R src l σ1 = (r, σ2)
    /\ state σ2 = state σ1
    /\ fetched σ2 = fetched σ1 ++ [(l, doc)]
    /\ telegram σ2 = telegram σ1 ++ calls
    /\ ((doc = None /\ r = Raised /\ calls = [])
        \/ exists html,
             doc = Some html
             /\ caption_calls (Caption (name src) (project_of_page R l html)) calls
             /\ (r = Raised -> exists c, last calls = Some c /\ call_raises R c)).
Proof.
  unfold send_project, bind at 1, parse_project, bind at 1, http_get.
  destruct (requests_get R l (world σ1)) as [[html|] w].
  2:{ eexists _, _, None, []. split; [reflexivity|]. split; [reflexivity|].
      split; [reflexivity|]. split; [cbn; rewrite app_nil_r; reflexivity|].
      left. auto. }
  cbn [ret]. set (project := project_of_page R l html).
  set (caption := Caption (name src) project).
  set (σa := {| state := state σ1; world := w;
                fetched := fetched σ1 ++ [(l, Some html)];
                telegram := telegram σ1 |}).
  assert (exists r σ2, (bind (ret false)
            (fun sent_ok : bool => if sent_ok then ret tt
               else bind (tg_send_message R caption) (fun _ => ret tt))) σa
            = (r, σ2)
          /\ state σ2 = state σ1 /\ fetched σ2 = fetched σa
          /\ telegram σ2 = telegram σ1 ++ [SendMessage caption]
          /\ (r = Raised -> call_raises R (SendMessage caption))) as Hmsg.
  { unfold bind at 1, ret at 1.
    destruct (notify_effect caption σa) as (r & σ2 & Hrun & H1 & H2 & H3 & H4).
    exists r, σ2. split; [exact Hrun|]. auto. }
  assert (forall p, exists r σ2 calls, (bind (tg_send_photo R p caption)
            (fun sent_ok : bool => if sent_ok then ret tt
               else bind (tg_send_message R caption) (fun _ => ret tt))) σa
            = (r, σ2)
          /\ state σ2 = state σ1 /\ fetched σ2 = fetched σa
          /\ telegram σ2 = telegram σ1 ++ calls
          /\ (calls = [SendPhoto p caption]
              \/ calls = [SendPhoto p caption; SendMessage caption])
          /\ (r = Raised -> exists c, last calls = Some c /\ call_raises R c))
    as Hphoto.
  { intros p. unfold bind at 1, tg_send_photo.
    destruct (tg_call_frame R (SendPhoto p caption) σa)
      as (r2 & σ2 & -> & Hst & Ht & Hf & Hr).
    destruct r2 as [[|]|].
    - exists (Returned tt), σ2, [SendPhoto p caption]. split; [reflexivity|].
      repeat split; auto. discriminate.
    - destruct (notify_effect caption σ2) as (r & σ3 & Hrun & H1 & H2 & H3 & H4).
      exists r, σ3, [SendPhoto p caption; SendMessage caption].
      split; [exact Hrun|]. split; [rewrite H1, Hst; reflexivity|].
      split; [rewrite H2, Hf; reflexivity|].
      split; [rewrite H3, Ht, <- app_assoc; reflexivity|]. split; [auto|].
      intros Hraised. exists (SendMessage caption). auto.
    - exists Raised, σ2, [SendPhoto p caption]. split; [reflexivity|].
      repeat split; auto. exists (SendPhoto p caption). split; [reflexivity|].
      exists (world σa). apply Hr. reflexivity. }
  destruct (preview project) as [p|] eqn:Ep.
  - destruct (truthy (Some p) && bool_decide (is_Some (strip_prefix (lit "http") p))).
    + destruct (Hphoto p) as (r & σ2 & calls & -> & Hst & Hf & Ht & Hc & Hr).
      exists r, σ2, (Some html), calls.
      split; [reflexivity|]. split; [exact Hst|]. split; [exact Hf|].
      split; [exact Ht|]. right. exists html. split; [reflexivity|].
      split; [right; exists p; exact Hc | exact Hr].
    + destruct Hmsg as (r & σ2 & -> & Hst & Hf & Ht & Hr).
      exists r, σ2, (Some html), [SendMessage caption].
      split; [reflexivity|]. split; [exact Hst|]. split; [exact Hf|].
      split; [exact Ht|]. right. exists html. split; [reflexivity|].
      split; [left; reflexivity|]. intros Hraised. eauto.
  - destruct Hmsg as (r & σ2 & -> & Hst & Hf & Ht & Hr).
    exists r, σ2, (Some html), [SendMessage caption].
    split; [reflexivity|]. split; [exact Hst|]. split; [exact Hf|].
    split; [exact Ht|]. right. exists html. split; [reflexivity|].
    split; [left; reflexivity|]. intros Hraised. eauto.
Qed.

End StepFacts.

Section StepFacts2.
Context (R : Runtime).

Lemma ensure_source_state_entry key (σ : Store R) :
  exists σ0,
    ensure_source_state R key σ = (Returned tt, σ0)
    /\ world σ0 = world σ /\ fetched σ0 = fetched σ /\ telegram σ0 = telegram σ
    /\ state σ0 = <[key := entry_of σ key]> (state σ).
Proof.
  unfold ensure_source_state, entry_of.
  destruct (state σ !! key) as [s|] eqn:E.
  - exists σ. cbn [default]. rewrite insert_id by exact E. auto.
  - eexists. split; [reflexivity|]. auto.
Qed.

Lemma publish_source_not_selected mode src (σ σ0 σ1 : Store R) r :
  ensure_source_state R (id src) σ = (Returned tt, σ0) ->
  pick_link_for_run R src mode σ0 = (Returned r, σ1) ->
  truthy r = false ->
  publish_source R mode src σ =
  bind (tg_send_message R (NoProjectNotice (name src))) (fun _ => ret tt) σ1.
Proof.
  intros He Hp Ht. unfold publish_source, bind at 1. rewrite He.
  unfold bind at 1. rewrite Hp.
  destruct r as [l|]; [rewrite Ht|]; reflexivity.
Qed.

Lemma publish_source_pick_raised mode src (σ σ0 σ1 : Store R) :
  ensure_source_state R (id src) σ = (Returned tt, σ0) ->
  pick_link_for_run R src mode σ0 = (Raised, σ1) ->
  publish_source R mode src σ = (Raised, σ1).
Proof.
  intros He Hp. unfold publish_source, bind at 1. rewrite He.
  unfold bind at 1. rewrite Hp. reflexivity.
Qed.

(** The refresh of one source. *)
Lemma refresh_source_effect src (σ : Store R) :
  exists σ' doc s',
    refresh_source R src σ = (Returned tt, σ')
    /\ telegram σ' = telegram σ
    /\ fetched σ' = fetched σ ++ [(list_url src, doc)]
    /\ state σ' = <[id src := s']> (state σ)
    /\ sent_urls s' = sent_urls (entry_of σ (id src))
    /\ archive_page s' = archive_page (entry_of σ (id src))
    /\ queue_new (entry_of σ (id src)) `prefix_of` queue_new s'
    /\ (doc = None -> s' = entry_of σ (id src)).
Proof.
  destruct (ensure_source_state_entry (id src) σ) as (σ0 & He & _ & Hf0 & Ht0 & Hst0).
  set (s0 := entry_of σ (id src)) in *.
  assert (state σ0 !! id src = Some s0) as Hs0 by (rewrite Hst0; apply lookup_insert_eq).
  unfold refresh_source, bind at 1. rewrite He.
  unfold try_except, bind at 1, http_get.
  destruct (requests_get R (list_url src) (world σ0)) as [[html|] w].
  - unfold bind at 1, extract_links.
    destruct (extract_links_from_list R src html) as [links|].
    + match goal with |- context [add_new_links_to_queue R src ?ls ?σ1] =>
        rewrite (add_new_links_to_queue_spec R src ls σ1 s0 Hs0)
      end.
      eexists _, (Some html), _. split; [reflexivity|].
      cbn [with_state state world fetched telegram].
      split; [exact Ht0|]. split; [rewrite Hf0; reflexivity|].
      split; [rewrite Hst0; apply insert_insert_eq|].
      cbn [set_queue_new sent_urls queue_new archive_page].
      split; [reflexivity|]. split; [reflexivity|].
      split; [apply prefix_app_r; reflexivity | discriminate].
    + eexists _, (Some html), s0. split; [reflexivity|].
      cbn [state world fetched telegram].
      split; [exact Ht0|]. split; [rewrite Hf0; reflexivity|].
      split; [exact Hst0|]. auto.
  - eexists _, None, s0. split; [reflexivity|].
    cbn [state world fetched telegram].
    split; [exact Ht0|]. split; [rewrite Hf0; reflexivity|].
    split; [exact Hst0|]. auto.
Qed.

Lemma caption_calls_length caption calls :
  caption_calls caption calls -> (1 <= length calls <= 2)%nat.
Proof. intros [->|(p & [->| ->])]; cbn; lia. Qed.

(** The selection and publish step of one source. *)
Lemma publish_source_effect mode src (σ : Store R) :
  exists r σ' s' log calls,
    publish_source R mode src σ = (r, σ')
    /\ fetched σ' = fetched σ ++ log
    /\ (length log <= 6)%nat
    /\ telegram σ' = telegram σ ++ calls
    /\ state σ' = <[id src := s']> (state σ)
    /\ (get_archive_page (entry_of σ (id src)) <= get_archive_page s')%Z
    /\ queue_new s' `suffix_of` queue_new (entry_of σ (id src))
    /\ publish_outcome R src (sent_urls (entry_of σ (id src))) (sent_urls s')
                       r log calls
    /\ (r = Raised ->
        extraction_raised R src log
        \/ exists c, last calls = Some c /\ call_raises R c).
Proof.
  destruct (ensure_source_state_entry (id src) σ) as (σ0 & He & _ & Hf0 & Ht0 & Hst0).
  set (s0 := entry_of σ (id src)) in *.
  assert (state σ0 !! id src = Some s0) as Hs0 by (rewrite Hst0; apply lookup_insert_eq).
  destruct (pick_link_for_run_effect R src mode σ0 s0 Hs0)
    as (r1 & σ1 & m & q & log1 & Hp & Ht1 & Hf1 & Hlen1 & Hst1 & Hq & Hraise1).
  set (s1 := set_queue_new q (advance m s0)) in *.
  assert (state σ1 = <[id src := s1]> (state σ)) as Hst1'
    by (rewrite Hst1, Hst0; apply insert_insert_eq).
  assert (get_archive_page s0 <= get_archive_page s1)%Z as Hcur.
  { change (get_archive_page s1) with (get_archive_page (advance m s0)).
    rewrite get_archive_page_advance. lia. }
  assert (queue_new s1 `suffix_of` queue_new s0) as Hsuf.
  { change (queue_new s1) with q.
    destruct Hq as [->|(u & -> & _)]; [reflexivity | apply suffix_cons_r; reflexivity]. }
  assert (sent_urls s1 = sent_urls s0) as Hsent
    by (change (sent_urls s1) with (sent_urls (advance m s0)); apply sent_urls_advance).
  destruct r1 as [r1|].
  2:{ rewrite (publish_source_pick_raised mode src σ σ0 σ1 He Hp).
      pose proof (proj1 Hraise1 eq_refl) as Hex.
      exists Raised, σ1, s1, log1, []. split; [reflexivity|].
      split; [rewrite Hf1, Hf0; reflexivity|]. split; [lia|].
      split; [rewrite Ht1, Ht0, app_nil_r; reflexivity|].
      split; [exact Hst1'|]. split; [exact Hcur|]. split; [exact Hsuf|].
      split; [left; auto | auto]. }
  destruct (truthy r1) eqn:Htr.
  2:{ rewrite (publish_source_not_selected mode src σ σ0 σ1 r1 He Hp Htr).
      destruct (notify_effect R (NoProjectNotice (name src)) σ1)
        as (r & σ2 & -> & Ha & Hb & Hc & Hd).
      exists r, σ2, s1, log1, [SendMessage (NoProjectNotice (name src))].
      split; [reflexivity|].
      split; [rewrite Hb, Hf1, Hf0; reflexivity|]. split; [lia|].
      split; [rewrite Hc, Ht1, Ht0; reflexivity|].
      split; [rewrite Ha; exact Hst1'|]. split; [exact Hcur|]. split; [exact Hsuf|].
      split; [right; left; auto|].
      intros Hr. right. eexists. split; [reflexivity | auto]. }
  destruct r1 as [l|]; [|discriminate].
  assert (l <> []) as Hl by (intros ->; discriminate).
  rewrite (publish_source_selected R mode src σ σ0 σ1 l He Hp Htr).
  destruct (send_project_effect R src l σ1)
    as (r2 & σ2 & doc & calls & Hsend & Hst2 & Hf2 & Ht2 & Hcase).
  rewrite Hsend.
  assert (fetched σ2 = fetched σ ++ (log1 ++ [(l, doc)])) as Hf2'
    by (rewrite Hf2, Hf1, Hf0, <- app_assoc; reflexivity).
  assert (length (log1 ++ [(l, doc)]) <= 6)%nat as Hlen2
    by (rewrite length_app; cbn; lia).
  destruct r2 as [[]|].
  - destruct Hcase as [(_ & [=] & _)|(html & -> & Hcalls & _)].
    assert (state σ2 !! id src = Some s1) as Hs2
      by (rewrite Hst2, Hst1'; apply lookup_insert_eq).
    rewrite (mark_sent_spec R src l σ2 s1 Hs2).
    eexists (Returned tt), _, _, _, calls. split; [reflexivity|].
    cbn [with_state state world fetched telegram].
    split; [exact Hf2'|]. split; [exact Hlen2|].
    split; [rewrite Ht2, Ht1, Ht0; reflexivity|].
    split; [rewrite Hst2, Hst1'; apply insert_insert_eq|].
    cbn [set_sent_urls sent_urls queue_new archive_page get_archive_page].
    split; [exact Hcur|]. split; [exact Hsuf|].
    split; [|discriminate]. right. right. right. split; [reflexivity|].
    exists l, html. split; [exact Hl|]. split; [apply last_snoc|].
    split; [rewrite Hsent; reflexivity | exact Hcalls].
  - rewrite notify_match.
    destruct (notify_effect R (ParseErrorNotice (name src) l) σ2)
      as (r & σ3 & -> & Ha & Hb & Hc & Hd).
    exists r, σ3, s1, (log1 ++ [(l, doc)]),
      (calls ++ [SendMessage (ParseErrorNotice (name src) l)]).
    split; [reflexivity|].
    split; [rewrite Hb; exact Hf2'|]. split; [exact Hlen2|].
    split; [rewrite Hc, Ht2, Ht1, Ht0, <- app_assoc; reflexivity|].
    split; [rewrite Ha, Hst2; exact Hst1'|].
    split; [exact Hcur|]. split; [exact Hsuf|]. split.
    + right. right. left. exists l, doc, calls. split; [exact Hl|].
      split; [reflexivity|]. split; [apply last_snoc|]. split; [exact Hsent|].
      destruct Hcase as [(-> & _ & ->)|(html & -> & Hcalls & Hr)];
        [reflexivity | split; [exact Hcalls | apply Hr; reflexivity]].
    + intros Hr. right. eexists. split; [apply last_snoc | auto].
Qed.

End StepFacts2.

(* ===================================================================== *)
(** * Whole runs *)
(* ===================================================================== *)

Section RunFacts.
Context (R : Runtime).

Lemma entry_of_lookup (σ : Store R) key s :
  state σ !! key = Some s -> entry_of σ key = s.
Proof. unfold entry_of. intros ->. reflexivity. Qed.

Lemma for_each_refresh sources (σ : Store R) :
  exists σ' log,
    for_each R (refresh_source R) sources σ = (Returned tt, σ')
    /\ telegram σ' = telegram σ
    /\ fetched σ' = fetched σ ++ log
    /\ log.*1 = list_url <$> sources
    /\ (forall k, k ∉ id <$> sources -> state σ' !! k = state σ !! k)
    /\ cursors_advance (state σ) (state σ')
    /\ (sent_capped (state σ) -> sent_capped (state σ')).
Proof.
  revert σ. induction sources as [|src sources IH]; intros σ.
  - exists σ, []. split; [reflexivity|]. split; [reflexivity|].
    split; [symmetry; apply app_nil_r|]. split; [reflexivity|].
    split; [reflexivity|]. split; [intros k s Hk; exists s; split; [exact Hk | lia]|].
    auto.
  - destruct (refresh_source_effect R src σ)
      as (σ1 & doc & s1 & Hrun & Ht & Hf & Hst & Hsent & Hpage & _ & _).
    destruct (IH σ1) as (σ' & log & Hrun' & Ht' & Hf' & Hurls & Hframe & Hcur & Hcap).
    exists σ', ((list_url src, doc) :: log).
    split; [cbn [for_each]; unfold bind; rewrite Hrun; exact Hrun'|].
    split; [congruence|].
    split; [rewrite Hf', Hf, <- app_assoc; reflexivity|].
    split; [cbn; f_equal; exact Hurls|].
    split.
    { intros k Hk. rewrite fmap_cons in Hk. apply not_elem_of_cons in Hk as [Hne Hk].
      rewrite (Hframe k Hk), Hst. apply lookup_insert_ne. congruence. }
    split.
    { intros k s Hk.
      assert (exists s2, state σ1 !! k = Some s2
                         /\ (get_archive_page s <= get_archive_page s2)%Z) as (s2 & H2 & Hle).
      { rewrite Hst. destruct (decide (k = id src)) as [->|Hne].
        - exists s1. rewrite lookup_insert_eq. split; [reflexivity|].
          unfold get_archive_page. rewrite Hpage, (entry_of_lookup _ _ _ Hk). lia.
        - exists s. rewrite lookup_insert_ne by congruence. split; [exact Hk | lia]. }
      destruct (Hcur k s2 H2) as (s' & H' & Hle'). exists s'. split; [exact H' | lia]. }
    intros HI. apply Hcap. intros k s Hk. rewrite Hst in Hk.
    destruct (decide (k = id src)) as [->|Hne].
    + rewrite lookup_insert_eq in Hk. injection Hk as <-. rewrite Hsent.
      unfold entry_of. destruct (state σ !! id src) as [s0|] eqn:E; cbn; [eapply HI, E | lia].
    + rewrite lookup_insert_ne in Hk by congruence. eapply HI, Hk.
Qed.

Lemma cursors_advance_trans m1 m2 m3 :
  cursors_advance m1 m2 -> cursors_advance m2 m3 -> cursors_advance m1 m3.
Proof.
  intros H12 H23 k s Hk. destruct (H12 k s Hk) as (s2 & H2 & Hle).
  destruct (H23 k s2 H2) as (s3 & H3 & Hle'). exists s3. split; [exact H3 | lia].
Qed.

Lemma publish_outcome_calls src old new r log calls :
  publish_outcome R src old new r log calls ->
  (length calls <= 3)%nat /\ (r = Returned tt -> (1 <= length calls)%nat).
Proof.
  intros [(-> & -> & _)|[(-> & _)|[(l & doc & att & _ & -> & _ & _ & Hatt)|
                                  (_ & l & html & _ & _ & _ & Hc)]]].
  - split; [cbn; lia | discriminate].
  - split; cbn; lia.
  - rewrite length_app. cbn [length]. destruct doc as [html|].
    + destruct Hatt as [Hc%caption_calls_length _]. lia.
    + subst att. cbn. lia.
  - apply caption_calls_length in Hc. lia.
Qed.

Lemma publish_outcome_sent src old new r log calls :
  publish_outcome R src old new r log calls ->
  new = old \/ exists l, l <> [] /\ new = last_k 5000 (old ++ [l]).
Proof.
  intros [(_ & _ & -> & _)|[(_ & ->)|[(l & doc & att & _ & _ & _ & -> & _)|
                                     (_ & l & html & Hl & _ & -> & _)]]];
    [left; reflexivity..|right; exists l; auto].
Qed.

Lemma extraction_raised_app src log1 log2 :
  extraction_raised R src log2 -> extraction_raised R src (log1 ++ log2).
Proof.
  intros (u & html & Hl & Hex). exists u, html. rewrite last_app, Hl. auto.
Qed.

Lemma last_app_r {A} (l1 l2 : list A) x :
  last l2 = Some x -> last (l1 ++ l2) = Some x.
Proof. intros H. rewrite last_app, H. reflexivity. Qed.

(** The second loop stops at the first iteration that raises. *)
Lemma for_each_publish mode sources (σ : Store R) :
  exists r σ' log calls,
    for_each R (publish_source R mode) sources σ = (r, σ')
    /\ telegram σ' = telegram σ ++ calls
    /\ (length calls <= 3 * length sources)%nat
    /\ (r = Returned tt -> (length sources <= length calls)%nat)
    /\ fetched σ' = fetched σ ++ log
    /\ (length log <= 6 * length sources)%nat
    /\ (forall k, k ∉ id <$> sources -> state σ' !! k = state σ !! k)
    /\ cursors_advance (state σ) (state σ')
    /\ (sent_capped (state σ) -> sent_capped (state σ'))
    /\ (r = Raised ->
        (exists src, src ∈ sources /\ extraction_raised R src log)
        \/ exists c, last calls = Some c /\ call_raises R c).
Proof.
  revert σ. induction sources as [|src sources IH]; intros σ.
  - exists (Returned tt), σ, [], []. split; [reflexivity|].
    split; [symmetry; apply app_nil_r|].
    split; [cbn; lia|]. split; [cbn; lia|]. split; [symmetry; apply app_nil_r|].
    split; [cbn; lia|].
    split; [reflexivity|]. split; [intros k s Hk; exists s; split; [exact Hk | lia]|].
    split; [auto | discriminate].
  - destruct (publish_source_effect R mode src σ)
      as (r1 & σ1 & s1 & log1 & calls1 & Hrun & Hf & Hlen & Ht & Hst & Hpage & _
          & Hout & Hr1).
    destruct (publish_outcome_calls _ _ _ _ _ _ Hout) as [Hc3 Hc1].
    assert (forall k, k ∉ id <$> src :: sources -> state σ1 !! k = state σ !! k) as Hfr1.
    { intros k Hk. rewrite fmap_cons in Hk. apply not_elem_of_cons in Hk as [Hne _].
      rewrite Hst. apply lookup_insert_ne. congruence. }
    assert (cursors_advance (state σ) (state σ1)) as Hcur1.
    { intros k s Hk. rewrite Hst. destruct (decide (k = id src)) as [->|Hne].
      - exists s1. rewrite lookup_insert_eq. split; [reflexivity|].
        rewrite (entry_of_lookup _ _ _ Hk) in Hpage. exact Hpage.
      - exists s. rewrite lookup_insert_ne by congruence. split; [exact Hk | lia]. }
    assert (sent_capped (state σ) -> sent_capped (state σ1)) as Hcap1.
    { intros HI k s Hk. rewrite Hst in Hk.
      destruct (decide (k = id src)) as [->|Hne].
      + rewrite lookup_insert_eq in Hk. injection Hk as <-.
        assert (length (sent_urls (entry_of σ (id src))) <= 5000)%nat as H0.
        { unfold entry_of. destruct (state σ !! id src) as [s0|] eqn:E; cbn;
            [eapply HI, E | lia]. }
        destruct (publish_outcome_sent _ _ _ _ _ _ Hout) as [->|(l & _ & ->)];
          [exact H0 | apply last_k_length].
      + rewrite lookup_insert_ne in Hk by congruence. eapply HI, Hk. }
    cbn [for_each]. unfold bind. rewrite Hrun. destruct r1 as [[]|].
    + destruct (IH σ1)
        as (r & σ' & log & calls & Hrun' & Ht' & Hn3 & Hn1 & Hf' & Hlen' & Hframe
            & Hcur & Hcap & Hr).
      exists r, σ', (log1 ++ log), (calls1 ++ calls).
      split; [exact Hrun'|].
      split; [rewrite Ht', Ht, <- app_assoc; reflexivity|].
      split; [rewrite length_app; cbn [length]; lia|].
      split; [intros Hret; specialize (Hn1 Hret); specialize (Hc1 eq_refl);
              rewrite length_app; cbn [length]; lia|].
      split; [rewrite Hf', Hf, <- app_assoc; reflexivity|].
      split; [rewrite length_app; cbn [length]; lia|].
      split.
      { intros k Hk. rewrite <- (Hfr1 k Hk). apply Hframe.
        rewrite fmap_cons in Hk. apply not_elem_of_cons in Hk as [_ Hk]. exact Hk. }
      split; [eapply cursors_advance_trans; eassumption|].
      split; [auto|].
      intros Hraised. destruct (Hr Hraised) as [(src' & Hin & Hex)|(c & Hc & Hcr)].
      * left. exists src'. split; [right; exact Hin|].
        apply extraction_raised_app, Hex.
      * right. exists c. split; [apply last_app_r, Hc | exact Hcr].
    + exists Raised, σ1, log1, calls1. split; [reflexivity|].
      split; [exact Ht|]. split; [cbn [length]; lia|]. split; [discriminate|].
      split; [exact Hf|]. split; [cbn [length]; lia|]. split; [exact Hfr1|].
      split; [exact Hcur1|]. split; [exact Hcap1|].
      intros _. destruct (Hr1 eq_refl) as [Hex|Hc]; [left | right; exact Hc].
      exists src. split; [left | exact Hex].
Qed.

Lemma main_effect mode sources (σ : Store R) :
  exists r σ' log calls,
    main R mode sources σ = (r, σ')
    /\ telegram σ' = telegram σ ++ calls
    /\ (length calls <= 3 * length sources)%nat
    /\ (r = Returned tt -> (length sources <= length calls)%nat)
    /\ fetched σ' = fetched σ ++ log
    /\ (length sources <= length log <= 7 * length sources)%nat
    /\ (take (length sources) log).*1 = list_url <$> sources
    /\ (forall k, k ∉ id <$> sources -> state σ' !! k = state σ !! k)
    /\ cursors_advance (state σ) (state σ')
    /\ (sent_capped (state σ) -> sent_capped (state σ'))
    /\ (r = Raised ->
        (exists src, src ∈ sources /\ extraction_raised R src log)
        \/ exists c, last calls = Some c /\ call_raises R c).
Proof.
  destruct (for_each_refresh sources σ)
    as (σ1 & log1 & Hrun1 & Ht1 & Hf1 & Hurls & Hframe1 & Hcur1 & Hcap1).
  destruct (for_each_publish mode sources σ1)
    as (r & σ' & log2 & calls & Hrun2 & Ht2 & Hn3 & Hn1 & Hf2 & Hlen2 & Hframe2
        & Hcur2 & Hcap2 & Hr).
  assert (length log1 = length sources) as Hlen1.
  { rewrite <- (length_fmap fst log1), Hurls, length_fmap. reflexivity. }
  exists r, σ', (log1 ++ log2), calls.
  split; [unfold main, bind; rewrite Hrun1; exact Hrun2|].
  split; [rewrite Ht2, Ht1; reflexivity|]. split; [exact Hn3|].
  split; [exact Hn1|].
  split; [rewrite Hf2, Hf1, <- app_assoc; reflexivity|].
  split; [rewrite length_app; lia|].
  split; [rewrite <- Hlen1, take_app_length; exact Hurls|].
  split; [intros k Hk; rewrite (Hframe2 k Hk); apply Hframe1, Hk|].
  split; [eapply cursors_advance_trans; eassumption|]. split; [auto|].
  intros Hraised. destruct (Hr Hraised) as [(src & Hin & Hex)|Hc]; [left | right; exact Hc].
  exists src. split; [exact Hin | apply extraction_raised_app, Hex].
Qed.

End RunFacts.

(** X5.  The refresh of one source never raises, makes exactly one request
    (for the source's [list_url]) and no Telegram call.  It changes no other
    source's entry; in the source's own entry (the default one when there
    was none) it keeps [sent_urls] and the cursor and only appends to
    [queue_new]; and when the request fails the entry is left as it was. *)
Theorem refresh_source_footprint (R : Runtime) (src : Source) (σ : Store R) :
  exists σ' doc s',
    refresh_source R src σ = (Returned tt, σ')
    /\ fetched σ' = fetched σ ++ [(list_url src, doc)]
    /\ telegram σ' = telegram σ
    /\ (forall k, k <> id src -> state σ' !! k = state σ !! k)
    /\ state σ' !! id src = Some s'
    /\ sent_urls s' = sent_urls (entry_of σ (id src))
    /\ archive_page s' = archive_page (entry_of σ (id src))
    /\ queue_new (entry_of σ (id src)) `prefix_of` queue_new s'
    /\ (doc = None -> s' = entry_of σ (id src)).
Proof.
  destruct (refresh_source_effect R src σ)
    as (σ' & doc & s' & Hrun & Ht & Hf & Hst & Hsent & Hpage & Hq & Hfail).
  exists σ', doc, s'. split; [exact Hrun|]. split; [exact Hf|]. split; [exact Ht|].
  split; [intros k Hk; rewrite Hst; apply lookup_insert_ne; congruence|].
  split; [rewrite Hst; apply lookup_insert_eq|]. auto.
Qed.

(** X6.  [pick_link_for_run] on a source without a state entry raises and
    changes nothing.  On a source with an entry it makes at most 5 requests
    and no Telegram call; it changes no other source's entry and, in the
    source's own entry, keeps [sent_urls], never moves the cursor
    backwards, and leaves [queue_new] as it was or without its first
    element, which is then the link returned.  It raises exactly when the
    extractor raises on the page that the backlog scan fetched last, the
    extractor being called outside the [try] of the scan. *)
Theorem pick_link_for_run_footprint (R : Runtime) (source : Source) (mode : str)
    (σ : Store R) :
  (state σ !! id source = None ->
     pick_link_for_run R source mode σ = (Raised, σ))
  /\ (forall s, state σ !! id source = Some s ->
        exists r σ1 s1 log,
          pick_link_for_run R source mode σ = (r, σ1)
          /\ fetched σ1 = fetched σ ++ log /\ (length log <= 5)%nat
          /\ telegram σ1 = telegram σ
          /\ (forall k, k <> id source -> state σ1 !! k = state σ !! k)
          /\ state σ1 !! id source = Some s1
          /\ sent_urls s1 = sent_urls s
          /\ (get_archive_page s <= get_archive_page s1)%Z
          /\ (queue_new s1 = queue_new s
              \/ exists u, queue_new s = u :: queue_new s1
                           /\ r = Returned (Some u))
          /\ (r = Raised <->
              exists u html, last log = Some (u, Some html)
                             /\ extract_links_from_list R source html = None)).
Proof.
  split; [apply pick_link_for_run_missing|]. intros s Hs.
  destruct (pick_link_for_run_effect R source mode σ s Hs)
    as (r & σ1 & m & q & log & Hp & Ht & Hf & Hlen & Hst & Hq & Hraise).
  exists r, σ1, (set_queue_new q (advance m s)), log.
  split; [exact Hp|]. split; [exact Hf|]. split; [exact Hlen|]. split; [exact Ht|].
  split; [intros k Hk; rewrite Hst; apply lookup_insert_ne; congruence|].
  split; [rewrite Hst; apply lookup_insert_eq|].
  cbn [set_queue_new sent_urls queue_new].
  split; [apply sent_urls_advance|].
  split.
  - change (get_archive_page (set_queue_new q (advance m s)))
      with (get_archive_page (advance m s)).
    rewrite get_archive_page_advance. lia.
  - split; [|exact Hraise].
    destruct Hq as [->|Hq]; [left; reflexivity | right; exact Hq].
Qed.

Lemma pick_link_for_run_footprint_witness :
  let σ := store_of broken_feed_web tt (lit "landezine") queued_a in
  (pick_link_for_run broken_feed_web landezine_feed (lit "morning") σ).1
  = Returned (Some url_a)
  /\ exists σ1 s1,
       pick_link_for_run broken_feed_web landezine_feed (lit "evening") σ
       = (Raised, σ1)
       /\ state σ1 !! lit "landezine" = Some s1
       /\ sent_urls s1 = [] /\ telegram σ1 = [].
Proof.
  intros σ. split; [vm_compute; reflexivity|].
  destruct (pick_link_for_run_footprint broken_feed_web landezine_feed
              (lit "evening") σ) as [_ H].
  destruct (H queued_a) as (r & σ1 & s1 & log & Hp & _ & _ & Ht & _ & Hs1 & Hsent & _);
    [reflexivity|].
  exists σ1, s1.
  assert (r = Raised) as Er.
  { change r with (r, σ1).1. rewrite <- Hp. vm_compute. reflexivity. }
  rewrite Hp, Er. split; [reflexivity|]. split; [exact Hs1|].
  split; [exact Hsent | exact Ht].
Defined.


(** X8.  Whether [main] returns or raises, for [n] configured sources it
    makes at most [3n] Telegram calls and between [n] and [7n] requests,
    the first [n] of which are for the sources' listing pages, in
    configuration order: the refresh loop always runs to its end.  When
    [main] returns it has made at least one Telegram call per source.  It
    raises only when the extractor raised on the page fetched last, in the
    backlog scan of a configured source, or when the Telegram call made
    last raised. *)
Theorem main_within_bounds (R : Runtime) (mode : str)
    (sources : list Source) (σ : Store R) :
  exists r σ' log calls,
    main R mode sources σ = (r, σ')
    /\ telegram σ' = telegram σ ++ calls
    /\ (length calls <= 3 * length sources)%nat
    /\ (r = Returned tt -> (length sources <= length calls)%nat)
    /\ fetched σ' = fetched σ ++ log
    /\ (length sources <= length log <= 7 * length sources)%nat
    /\ (take (length sources) log).*1 = list_url <$> sources
    /\ (r = Raised ->
        (exists src, src ∈ sources /\ extraction_raised R src log)
        \/ exists c, last calls = Some c /\ call_raises R c).
Proof.
  destruct (main_effect R mode sources σ)
    as (r & σ' & log & calls & Hrun & Ht & Hn3 & Hn1 & Hf & Hlen & Hurls
        & _ & _ & _ & Hr).
  exists r, σ', log, calls. auto 10.
Qed.

(** X9.  A run of [main] leaves the entry of every key that is not the id
    of a configured source exactly as it was (absent keys stay absent). *)
Theorem main_leaves_other_sources (R : Runtime) (mode : str)
    (sources : list Source) (σ : Store R) (k : str) :
  k ∉ id <$> sources ->
  state (main R mode sources σ).2 !! k = state σ !! k.
Proof.
  intros Hk.
  destruct (main_effect R mode sources σ)
    as (r & σ' & log & calls & -> & _ & _ & _ & _ & _ & _ & H & _).
  apply H, Hk.
Qed.

Lemma main_leaves_other_sources_witness :
  state (main leibal_web (lit "evening") [leibal]
           (store_of leibal_web tt (lit "dezeen") queued_a)).2 !! lit "dezeen"
  = Some queued_a.
Proof.
  rewrite (main_leaves_other_sources leibal_web (lit "evening") [leibal]
             (store_of leibal_web tt (lit "dezeen") queued_a) (lit "dezeen")).
  - reflexivity.
  - intros H. apply list_elem_of_singleton in H. discriminate H.
Defined.

Section RunsFacts.
Context (R : Runtime).

Lemma run_effect mode sources (σ : Store R) :
  cursors_advance (state σ) (state (run R mode sources σ))
  /\ (sent_capped (state σ) -> sent_capped (state (run R mode sources σ))).
Proof.
  unfold run.
  destruct (main_effect R mode sources σ)
    as (r & σ' & log & calls & -> & _ & _ & _ & _ & _ & _ & _ & Hcur & Hcap & _).
  destruct r as [[]|]; [auto|]. cbn [state].
  split; [|auto]. intros k s Hk. exists s. split; [exact Hk | lia].
Qed.

Lemma runs_effect plan (σ : Store R) :
  cursors_advance (state σ) (state (runs R plan σ))
  /\ (sent_capped (state σ) -> sent_capped (state (runs R plan σ))).
Proof.
  revert σ. induction plan as [|[mode sources] plan IH]; intros σ; cbn [runs].
  - split; [|auto]. intros k s Hk. exists s. split; [exact Hk | lia].
  - destruct (run_effect mode sources σ) as [H1 H2].
    destruct (IH (run R mode sources σ)) as [H3 H4].
    split; [eapply cursors_advance_trans; eassumption | auto].
Qed.

End RunsFacts.

(** X10.  Across any sequence of runs no state entry disappears and no
    backlog cursor moves backwards: an entry present before the runs is
    present after them, with an [archive_page] at least as large. *)
Theorem runs_never_rewind (R : Runtime) (plan : list (list N * list Source))
    (σ : Store R) (k : str) (s : SourceState) :
  state σ !! k = Some s ->
  exists s', state (runs R plan σ) !! k = Some s'
             /\ (get_archive_page s <= get_archive_page s')%Z.
Proof.
  intros Hk. destruct (runs_effect R plan σ) as [H _]. apply H, Hk.
Qed.

Lemma runs_never_rewind_witness :
  exists s',
    state (runs leibal_web [(lit "evening", [leibal]); (lit "morning", [leibal])]
             (store_of leibal_web tt (lit "leibal") queued_a)) !! lit "leibal"
    = Some s'
    /\ (1 <= get_archive_page s')%Z.
Proof.
  apply (runs_never_rewind leibal_web _ _ (lit "leibal") queued_a). reflexivity.
Defined.

(** X11.  The cap on the sent history is an invariant of the program: if
    every stored [sent_urls] has at most 5000 entries, so it is after any
    sequence of runs. *)
Theorem runs_keep_sent_capped (R : Runtime) (plan : list (list N * list Source))
    (σ : Store R) :
  sent_capped (state σ) -> sent_capped (state (runs R plan σ)).
Proof.
  apply (runs_effect R plan σ).
Qed.

Lemma runs_keep_sent_capped_witness :
  sent_capped
    (state (runs leibal_web [(lit "evening", [leibal]); (lit "morning", [leibal])]
              (empty_store leibal_web tt))).
Proof.
  apply runs_keep_sent_capped. intros k s Hk. cbn in Hk.
  rewrite lookup_empty in Hk. discriminate.
Defined.

(* ===================================================================== *)
(** * More on the pure helpers *)
(* ===================================================================== *)

Section PureMore.

Lemma before_prefix f s : before f s `prefix_of` s.
Proof.
  induction s as [|c s IH]; cbn [before]; [reflexivity|].
  destruct (f c); [apply prefix_nil | apply prefix_cons, IH].
Qed.

Lemma contains_prefix sub s t :
  s `prefix_of` t -> contains sub s = true -> contains sub t = true.
Proof.
  intros [k ->] (a & b & ->)%contains_true. apply contains_true.
  exists a, (b ++ k). rewrite <- !app_assoc. reflexivity.
Qed.



End PureMore.

Section PageMore.
Context (R : Runtime).

Lemma page_param_len_digit d r :
  isdecimal R d = true -> is_Some (page_param_len R (lit "page=" ++ d :: r)).
Proof.
  intros Hd. unfold page_param_len.
  rewrite (proj2 (strip_prefix_Some (lit "page=") _ (d :: r)) eq_refl), Hd. eauto.
Qed.

Lemma re_search_page_app a c d r :
  is_page_sep c = true -> isdecimal R d = true ->
  re_search_page R (a ++ c :: lit "page=" ++ d :: r) = true.
Proof.
  intros Hc Hd. induction a as [|x a IH]; cbn [app re_search_page].
  - rewrite Hc, bool_decide_eq_true_2 by (apply page_param_len_digit, Hd). reflexivity.
  - rewrite IH. destruct (_ && _); reflexivity.
Qed.

(** Where the pattern matches, the rewritten URL shows the new page. *)
Lemma re_sub_page_shape page s :
  re_search_page R s = true ->
  exists a c b, is_page_sep c = true
                /\ re_sub_page R page s = a ++ c :: lit "page=" ++ page ++ b.
Proof.
  unfold re_sub_page. induction s as [|x s IH]; [discriminate|].
  cbn [re_search_page re_sub_page_from]. destruct (is_page_sep x) eqn:Hx; cbn [andb].
  - destruct (page_param_len R s) as [k|] eqn:Ek.
    + intros _. exists [], x, (re_sub_page_from R k page s). auto.
    + rewrite bool_decide_eq_false_2 by (intros [? [=]]).
      intros (a & c & b & Hc & ->)%IH. exists (x :: a), c, b. auto.
  - intros (a & c & b & Hc & ->)%IH. exists (x :: a), c, b. auto.
Qed.

Lemma format_int_head z :
  (0 < z)%Z -> exists d rest, format_int z = d :: rest /\ isdecimal R d = true.
Proof.
  intros Hz. pose proof (format_int_isdecimal R z Hz) as Hall.
  destruct (format_int z) as [|d rest] eqn:E.
  - exfalso. destruct z as [|p|p]; try lia. unfold format_int in E. cbn in E.
    pose proof (DecimalPos.Unsigned.to_uint_nonnil p) as Hn.
    unfold NilZero.string_of_uint in E.
    destruct (Pos.to_uint p); try congruence; discriminate E.
  - inversion Hall; subst. eauto.
Qed.

End PageMore.

(** X12.  [normalize_url] never adds a character: its result is a prefix of
    the stripped input.  The result contains no [#]; it contains a [?] only
    when it also contains ["archdaily.com/search/"]; and a URL without
    surrounding whitespace, [#] or [?] is returned unchanged. *)
Theorem normalize_url_shape (u : str) :
  normalize_url u `prefix_of` strip u
  /\ (chr_hash ∉ normalize_url u)
  /\ (chr_question ∈ normalize_url u ->
      contains (lit "archdaily.com/search/") (normalize_url u) = true)
  /\ (strip u = u -> chr_hash ∉ u -> chr_question ∉ u -> normalize_url u = u).
Proof.
  split; [|split; [apply normalize_url_no_hash|split]].
  - unfold normalize_url. destruct (_ && _).
    + etransitivity; apply before_prefix.
    + apply before_prefix.
  - intros H. apply (normalize_url_query_kept u). apply (contains_char chr_question), H.
  - intros Hs Hh Hq. unfold normalize_url. rewrite Hs.
    rewrite (before_id (N.eqb chr_hash) u)
      by (intros c Hc; apply N.eqb_neq; intros <-; contradiction).
    destruct (contains (lit "?") u) eqn:E; [|reflexivity].
    apply (contains_char chr_question) in E. contradiction.
Qed.

Lemma normalize_url_shape_witness :
  normalize_url (lit "https://leibal.com/interiors/b/")
  = lit "https://leibal.com/interiors/b/".
Proof.
  destruct (normalize_url_shape (lit "https://leibal.com/interiors/b/"))
    as (_ & _ & _ & H).
  apply H; [reflexivity | |]; intros Hin; vm_compute in Hin;
    repeat (apply elem_of_cons in Hin as [Hin|Hin]; [discriminate Hin|]);
    inversion Hin.
Defined.

(** X13.  For every page number from 2 on, the URL built for a search-query
    source contains [page=] followed by the decimal page number and still
    matches the page pattern (so that building from it again rewrites the
    parameter instead of appending a second one); for every other strategy
    the URL starts with the listing URL without its trailing slashes,
    followed by [/page/] and the decimal page number. *)
Theorem build_paged_url_names_page (R : Runtime) (source : Source) (page : Z) :
  (2 <= page)%Z ->
  (paging source = lit "archdaily_search_page" ->
     contains (lit "page=" ++ format_int page) (build_paged_url R source page) = true
     /\ re_search_page R (build_paged_url R source page) = true)
  /\ (paging source <> lit "archdaily_search_page" ->
      (rstrip_by is_slash (list_url source) ++ lit "/page/" ++ format_int page)
        `prefix_of` build_paged_url R source page).
Proof.
  intros Hp. unfold build_paged_url. rewrite (proj2 (Z.leb_gt page 1)) by lia.
  destruct (format_int_head R page) as (d & rest & Hfmt & Hd); [lia|].
  split.
  - intros ->. cbn [paging].
    rewrite (bool_decide_eq_false_2 (_ = lit "wp_page")) by discriminate.
    rewrite (bool_decide_eq_false_2 (_ = lit "dezeen_page")) by discriminate.
    rewrite bool_decide_eq_true_2 by reflexivity.
    assert (forall a c b, is_page_sep c = true ->
              contains (lit "page=" ++ format_int page)
                       (a ++ c :: lit "page=" ++ format_int page ++ b) = true
              /\ re_search_page R (a ++ c :: lit "page=" ++ format_int page ++ b) = true)
      as Hshape.
    { intros a c b Hc. split.
      - apply contains_true. exists (a ++ [c]), b. rewrite <- !app_assoc. reflexivity.
      - rewrite Hfmt. apply re_search_page_app; assumption. }
    destruct (contains (lit "?") (list_url source)).
    + destruct (re_search_page R (list_url source)) eqn:Hs.
      * destruct (re_sub_page_shape R (format_int page) _ Hs) as (a & c & b & Hc & ->).
        apply Hshape, Hc.
      * pose proof (Hshape (list_url source) chr_amp [] eq_refl) as H.
        rewrite app_nil_r in H. exact H.
    + pose proof (Hshape (list_url source) chr_question [] eq_refl) as H.
      rewrite app_nil_r in H. exact H.
  - intros Hne. rewrite (bool_decide_eq_false_2 (_ = lit "archdaily_search_page")) by exact Hne.
    repeat case_bool_decide;
      try (rewrite !app_assoc; apply prefix_app_r; reflexivity); reflexivity.
Qed.

Lemma build_paged_url_names_page_witness :
  contains (lit "page=7") (build_paged_url demo_runtime archdaily_paged 7) = true
  /\ lit "https://leibal.com/page/7" `prefix_of` build_paged_url demo_runtime leibal 7.
Proof.
  destruct (build_paged_url_names_page demo_runtime archdaily_paged 7) as [[H _] _];
    [lia | reflexivity |].
  destruct (build_paged_url_names_page demo_runtime leibal 7) as [_ H']; [lia|].
  split; [exact H | apply H'; discriminate].
Defined.

Section ProjectMore.
Context (R : Runtime).


Lemma first_paragraph_in_Some soup sels txt :
  first_paragraph_in R soup sels = Some txt <->
  exists skipped sel rest t,
    sels = skipped ++ sel :: rest
    /\ (forall s t', s ∈ skipped -> soup_select_one R soup s = Some t' ->
          (length (collapse_ws (strip t')) < 50)%nat)
    /\ soup_select_one R soup sel = Some t
    /\ txt = collapse_ws (strip t)
    /\ (50 <= length txt)%nat.
Proof.
  induction sels as [|sel0 sels IH]; cbn [first_paragraph_in].
  - split; [discriminate|]. intros (sk & ? & ? & ? & H & _). destruct sk; discriminate.
  - split.
    + destruct (soup_select_one R soup sel0) as [t0|] eqn:E0.
      * destruct (Nat.leb_spec 50 (length (collapse_ws (strip t0)))) as [Hlen|Hlen].
        -- intros [= <-]. exists [], sel0, sels, t0.
           split; [reflexivity|]. split; [intros s t' Hs; inversion Hs|]. auto.
        -- intros (sk & sel & rest & t & -> & Hsk & Hrest)%IH.
           exists (sel0 :: sk), sel, rest, t. split; [reflexivity|].
           split; [|exact Hrest]. intros s t' [->|Hs]%elem_of_cons Ht'; [|eauto].
           rewrite E0 in Ht'. injection Ht' as <-. exact Hlen.
      * intros (sk & sel & rest & t & -> & Hsk & Hrest)%IH.
        exists (sel0 :: sk), sel, rest, t. split; [reflexivity|].
        split; [|exact Hrest]. intros s t' [->|Hs]%elem_of_cons Ht'; [|eauto].
        rewrite E0 in Ht'. discriminate.
    + intros (sk & sel & rest & t & Hsplit & Hsk & Ht & -> & Hlen).
      destruct sk as [|s0 sk]; injection Hsplit as -> ->.
      * rewrite Ht, (proj2 (Nat.leb_le _ _) Hlen). reflexivity.
      * assert (first_paragraph_in R soup (sk ++ sel :: rest)
                = Some (collapse_ws (strip t))) as Hrec.
        { apply IH. exists sk, sel, rest, t. split; [reflexivity|].
          split; [intros s t' Hs; apply Hsk; right; exact Hs|]. auto. }
        destruct (soup_select_one R soup s0) as [t0|] eqn:E0; [|exact Hrec].
        pose proof (Hsk s0 t0 (list_elem_of_here _ _) E0) as Hshort.
        rewrite (proj2 (Nat.leb_gt _ _) Hshort). exact Hrec.
Qed.

End ProjectMore.


(** X15.  [find_first_paragraph] goes through its five selectors in order
    and returns the whitespace-normalised text of the first one whose
    paragraph has at least 50 characters once normalised; selectors without
    a paragraph, or with a shorter one, are passed over, and a returned text
    never has fewer than 50 characters. *)
Theorem find_first_paragraph_first_long (R : Runtime) (soup : Soup R) (txt : str) :
  find_first_paragraph R soup = Some txt <->
  exists skipped sel rest t,
    paragraph_selectors = skipped ++ sel :: rest
    /\ (forall s t', s ∈ skipped -> soup_select_one R soup s = Some t' ->
          (length (collapse_ws (strip t')) < 50)%nat)
    /\ soup_select_one R soup sel = Some t
    /\ txt = collapse_ws (strip t)
    /\ (50 <= length txt)%nat.
Proof. apply first_paragraph_in_Some. Qed.

(* ===================================================================== *)
(** * A run while the network is down *)
(* ===================================================================== *)

Section Outage.
Context (R : Runtime).
Hypothesis down : outage R.

Lemma requests_get_down u w : exists w', requests_get R u w = (None, w').
Proof.
  pose proof (down u w) as H. destruct (requests_get R u w) as [r w'].
  cbn in H. subst r. eauto.
Qed.

Lemma history_kept_refl m : history_kept m m.
Proof. intros k s Hk. eauto. Qed.

Lemma history_kept_trans m1 m2 m3 :
  history_kept m1 m2 -> history_kept m2 m3 -> history_kept m1 m3.
Proof.
  intros H12 H23 k s Hk. destruct (H12 k s Hk) as (s2 & H2 & Hs & Hp).
  destruct (H23 k s2 H2) as (s3 & H3 & Hs' & Hp'). exists s3.
  split; [exact H3|]. split; congruence.
Qed.

Lemma history_kept_insert (m : gmap (list N) SourceState) key s1 :
  (forall s, m !! key = Some s ->
     sent_urls s1 = sent_urls s /\ archive_page s1 = archive_page s) ->
  history_kept m (<[key := s1]> m).
Proof.
  intros H k s Hk. destruct (decide (k = key)) as [->|Hne].
  - exists s1. rewrite lookup_insert_eq. split; [reflexivity|]. apply H, Hk.
  - exists s. rewrite lookup_insert_ne by congruence. auto.
Qed.

Lemma refresh_source_down src (σ : Store R) :
  exists σ', refresh_source R src σ = (Returned tt, σ')
             /\ telegram σ' = telegram σ
             /\ history_kept (state σ) (state σ').
Proof.
  destruct (refresh_source_effect R src σ)
    as (σ' & doc & s' & Hrun & Ht & _ & Hst & Hsent & Hpage & _).
  exists σ'. split; [exact Hrun|]. split; [exact Ht|]. rewrite Hst.
  apply history_kept_insert. intros s Hs.
  rewrite (entry_of_lookup R σ _ s Hs) in Hsent, Hpage. auto.
Qed.

Lemma pick_old_link_down source (σ : Store R) s :
  state σ !! id source = Some s ->
  exists σ', pick_old_link R source σ = (Returned None, σ')
             /\ state σ' = state σ /\ telegram σ' = telegram σ.
Proof.
  intros Hs. rewrite (pick_old_link_scan R source σ s Hs).
  rewrite (scan_pages_step R 4 source (sent_urls s) σ s Hs). cbv zeta.
  destruct (requests_get_down (build_paged_url R source (get_archive_page s)) (world σ))
    as [w ->].
  eexists. split; [reflexivity|]. auto.
Qed.

Lemma publish_source_down mode src (σ : Store R) :
  exists r σ' c,
    publish_source R mode src σ = (r, σ')
    /\ telegram σ' = telegram σ ++ [c] /\ is_notice src c
    /\ (r = Raised -> call_raises R c)
    /\ history_kept (state σ) (state σ').
Proof.
  destruct (ensure_source_state_entry R (id src) σ) as (σ0 & He & _ & _ & Ht0 & Hst0).
  set (s0 := entry_of σ (id src)) in *.
  assert (state σ0 !! id src = Some s0) as Hs0 by (rewrite Hst0; apply lookup_insert_eq).
  assert (history_kept (state σ) (state σ0)) as H0.
  { rewrite Hst0. apply history_kept_insert. intros s Hs.
    unfold s0. rewrite (entry_of_lookup R σ _ s Hs). auto. }
  destruct (pick_old_link_down src σ0 s0 Hs0) as (σa & Hold & Hsta & Hta).
  assert (exists r σ1 q,
            pick_link_for_run R src mode σ0 = (Returned r, σ1)
            /\ telegram σ1 = telegram σ0
            /\ state σ1 = <[id src := set_queue_new q s0]> (state σ0))
    as (r & σ1 & q & Hp & Ht1 & Hst1).
  { destruct (decide (mode = lit "morning")) as [->|Hmode].
    - rewrite (pick_link_for_run_morning R src σ0 s0 Hs0).
      destruct (queue_new s0) as [|u q] eqn:Hq.
      + exists None, σa, []. rewrite <- Hq, set_queue_new_same, insert_id by exact Hs0. auto.
      + exists (Some u), (popped src q σ0), q.
        split; [reflexivity|]. split; [reflexivity|]. apply alter_entry, Hs0.
    - rewrite (pick_link_for_run_other R src mode σ0 s0 None σa Hs0 Hmode Hold).
      cbn [truthy]. destruct (queue_new s0) as [|u q] eqn:Hq.
      + exists None, σa, []. rewrite <- Hq, set_queue_new_same, insert_id by exact Hs0. auto.
      + exists (Some u), (popped src q σa), q.
        split; [reflexivity|]. split; [exact Hta|].
        unfold popped, with_state. cbn [state]. rewrite Hsta.
        apply alter_entry, Hs0. }
  assert (history_kept (state σ) (state σ1)) as H1.
  { eapply history_kept_trans; [exact H0|]. rewrite Hst1.
    apply history_kept_insert. intros s Hs. rewrite Hs0 in Hs. injection Hs as <-. auto. }
  destruct (truthy r) eqn:Htr.
  2:{ rewrite (publish_source_not_selected R mode src σ σ0 σ1 r He Hp Htr).
      destruct (notify_effect R (NoProjectNotice (name src)) σ1)
        as (r' & σ2 & -> & Ha & _ & Hc & Hd).
      eexists r', σ2, _. split; [reflexivity|].
      split; [rewrite Hc, Ht1, Ht0; reflexivity|]. split; [left; reflexivity|].
      split; [exact Hd|]. rewrite Ha. exact H1. }
  destruct r as [l|]; [|discriminate].
  rewrite (publish_source_selected R mode src σ σ0 σ1 l He Hp Htr).
  assert (exists σ2, send_project R src l σ1 = (Raised, σ2)
                     /\ state σ2 = state σ1 /\ telegram σ2 = telegram σ1)
    as (σ2 & -> & Hst2 & Ht2).
  { unfold send_project, bind at 1, parse_project, bind at 1, http_get.
    destruct (requests_get_down l (world σ1)) as [w ->].
    eexists. split; [reflexivity|]. auto. }
  rewrite notify_match.
  destruct (notify_effect R (ParseErrorNotice (name src) l) σ2)
    as (r' & σ3 & -> & Ha & _ & Hc & Hd).
  eexists r', σ3, _. split; [reflexivity|].
  split; [rewrite Hc, Ht2, Ht1, Ht0; reflexivity|].
  split; [right; exists l; reflexivity|]. split; [exact Hd|].
  rewrite Ha, Hst2. exact H1.
Qed.

Lemma main_down mode sources (σ : Store R) :
  exists r σ' calls,
    main R mode sources σ = (r, σ')
    /\ telegram σ' = telegram σ ++ calls
    /\ Forall2 is_notice (take (length calls) sources) calls
    /\ (r = Returned tt -> length calls = length sources)
    /\ (r = Raised -> exists c, last calls = Some c /\ call_raises R c)
    /\ history_kept (state σ) (state σ').
Proof.
  assert (forall l (σ : Store R), exists σ',
            for_each R (refresh_source R) l σ = (Returned tt, σ')
            /\ telegram σ' = telegram σ
            /\ history_kept (state σ) (state σ')) as Hrefresh.
  { induction l as [|src l IH]; intros σa.
    - exists σa. split; [reflexivity|]. split; [reflexivity | apply history_kept_refl].
    - destruct (refresh_source_down src σa) as (σb & Hrun & Ht & Hk).
      destruct (IH σb) as (σc & Hrun' & Ht' & Hk').
      exists σc. split; [cbn [for_each]; unfold bind; rewrite Hrun; exact Hrun'|].
      split; [congruence | eapply history_kept_trans; eassumption]. }
  assert (forall l (σ : Store R), exists r σ' calls,
            for_each R (publish_source R mode) l σ = (r, σ')
            /\ telegram σ' = telegram σ ++ calls
            /\ Forall2 is_notice (take (length calls) l) calls
            /\ (r = Returned tt -> length calls = length l)
            /\ (r = Raised -> exists c, last calls = Some c /\ call_raises R c)
            /\ history_kept (state σ) (state σ')) as Hpublish.
  { induction l as [|src l IH]; intros σa.
    - exists (Returned tt), σa, []. split; [reflexivity|].
      split; [symmetry; apply app_nil_r|].
      split; [constructor|]. split; [reflexivity|]. split; [discriminate|].
      apply history_kept_refl.
    - destruct (publish_source_down mode src σa) as (r1 & σb & c & Hrun & Ht & Hc & Hr1 & Hk).
      cbn [for_each]. unfold bind. rewrite Hrun. destruct r1 as [[]|].
      + destruct (IH σb) as (r & σc & calls & Hrun' & Ht' & Hcs & Hn & Hr & Hk').
        exists r, σc, (c :: calls). split; [exact Hrun'|].
        split; [rewrite Ht', Ht, <- app_assoc; reflexivity|].
        split; [cbn [length take]; constructor; assumption|].
        split; [intros Hret; cbn [length]; rewrite (Hn Hret); reflexivity|].
        split; [|eapply history_kept_trans; eassumption].
        intros Hraised. destruct (Hr Hraised) as (c' & Hl & Hcr).
        exists c'. split; [rewrite last_cons, Hl; reflexivity | exact Hcr].
      + exists Raised, σb, [c]. split; [reflexivity|]. split; [exact Ht|].
        split; [cbn [length take]; exact (List.Forall2_cons _ _ Hc (List.Forall2_nil _))|].
        split; [discriminate|]. split; [|exact Hk].
        intros _. exists c. split; [reflexivity | auto]. }
  destruct (Hrefresh sources σ) as (σ1 & Hrun1 & Ht1 & Hk1).
  destruct (Hpublish sources σ1) as (r & σ' & calls & Hrun2 & Ht2 & Hcs & Hn & Hr & Hk2).
  exists r, σ', calls. split; [unfold main, bind; rewrite Hrun1; exact Hrun2|].
  split; [rewrite Ht2, Ht1; reflexivity|]. split; [exact Hcs|].
  split; [exact Hn|]. split; [exact Hr|].
  eapply history_kept_trans; eassumption.
Qed.

End Outage.

(** X16.  When every request to the sites fails, a run of [main] makes one
    Telegram call per configured source, in configuration order, each one
    a "no project" or a "parse error" notice of that source, until one of
    these calls raises, which ends the run: [main] raises only when the
    call made last raised, and when it returns it has sent exactly one
    notice per source.  In both cases every state entry keeps its
    [sent_urls] and its cursor: nothing is marked sent and no backlog page
    is skipped. *)
Theorem main_under_outage (R : Runtime) (mode : str) (sources : list Source)
    (σ : Store R) :
  outage R ->
  exists r σ' calls,
    main R mode sources σ = (r, σ')
    /\ telegram σ' = telegram σ ++ calls
    /\ Forall2 is_notice (take (length calls) sources) calls
    /\ (r = Returned tt -> length calls = length sources)
    /\ (r = Raised -> exists c, last calls = Some c /\ call_raises R c)
    /\ history_kept (state σ) (state σ').
Proof.
  intros Hdown. apply main_down, Hdown.
Qed.

Lemma main_under_outage_witness :
  (exists σ',
     main demo_runtime (lit "morning") [leibal]
       (store_of demo_runtime tt (lit "leibal") queued_a) = (Returned tt, σ')
     /\ (sent_urls <$> state σ' !! lit "leibal") = Some [])
  /\ (exists σ',
        main offline (lit "morning") [leibal; landezine_feed]
          (store_of offline tt (lit "leibal") queued_a) = (Raised, σ')
        /\ length (telegram σ') = 1%nat
        /\ (sent_urls <$> state σ' !! lit "leibal") = Some []).
Proof.
  split.
  - destruct (main_under_outage demo_runtime (lit "morning") [leibal]
                (store_of demo_runtime tt (lit "leibal") queued_a))
      as (r & σ' & calls & Hrun & _ & _ & _ & _ & Hk).
    + intros u w. reflexivity.
    + exists σ'.
      assert (r = Returned tt) as Er.
      { change r with (r, σ').1. rewrite <- Hrun. vm_compute. reflexivity. }
      rewrite Hrun, Er. split; [reflexivity|].
      destruct (Hk (lit "leibal") queued_a eq_refl) as (s' & Hs' & Hsent & _).
      rewrite Hs'. cbn [fmap option_fmap option_map]. rewrite Hsent. reflexivity.
  - destruct (main_under_outage offline (lit "morning") [leibal; landezine_feed]
                (store_of offline tt (lit "leibal") queued_a))
      as (r & σ' & calls & Hrun & Ht & _ & _ & _ & Hk).
    + intros u w. reflexivity.
    + exists σ'.
      assert (r = Raised) as Er.
      { change r with (r, σ').1. rewrite <- Hrun. vm_compute. reflexivity. }
      rewrite Hrun, Er. split; [reflexivity|]. split.
      * change σ' with (r, σ').2. rewrite <- Hrun. vm_compute. reflexivity.
      * destruct (Hk (lit "leibal") queued_a eq_refl) as (s' & Hs' & Hsent & _).
        rewrite Hs'. cbn [fmap option_fmap option_map]. rewrite Hsent. reflexivity.
Defined.

(* ===================================================================== *)
(** * One link per source per run *)
(* ===================================================================== *)

Section OncePerRun.
Context (R : Runtime).

Lemma entry_of_ext (σ σ' : Store R) k :
  state σ' !! k = state σ !! k -> entry_of σ' k = entry_of σ k.
Proof. unfold entry_of. intros ->. reflexivity. Qed.

Lemma entry_of_insert (σ σ' : Store R) k s :
  state σ' = <[k := s]> (state σ) -> entry_of σ' k = s.
Proof. unfold entry_of. intros ->. rewrite lookup_insert_eq. reflexivity. Qed.

Lemma for_each_refresh_sent sources (σ : Store R) k :
  sent_urls (entry_of (for_each R (refresh_source R) sources σ).2 k)
  = sent_urls (entry_of σ k).
Proof.
  revert σ. induction sources as [|src sources IH]; intros σ; [reflexivity|].
  destruct (refresh_source_effect R src σ)
    as (σ1 & doc & s1 & Hrun & _ & _ & Hst & Hsent & _).
  cbn [for_each]. unfold bind. rewrite Hrun, IH.
  destruct (decide (k = id src)) as [->|Hne].
  - rewrite (entry_of_insert σ σ1 _ s1 Hst). exact Hsent.
  - f_equal. apply entry_of_ext. rewrite Hst. apply lookup_insert_ne. congruence.
Qed.

Lemma for_each_publish_once mode sources (σ : Store R) k :
  NoDup (id <$> sources) ->
  let σ' := (for_each R (publish_source R mode) sources σ).2 in
  sent_urls (entry_of σ' k) = sent_urls (entry_of σ k)
  \/ exists l, l <> []
               /\ sent_urls (entry_of σ' k) = last_k 5000 (sent_urls (entry_of σ k) ++ [l]).
Proof.
  revert σ. induction sources as [|src sources IH]; intros σ Hnd; [left; reflexivity|].
  rewrite fmap_cons in Hnd. apply NoDup_cons in Hnd as [Hfresh Hnd].
  destruct (publish_source_effect R mode src σ)
    as (r1 & σ1 & s1 & log1 & calls1 & Hrun & _ & _ & _ & Hst & _ & _ & Hout & _).
  apply publish_outcome_sent in Hout.
  cbn [for_each]. unfold bind. rewrite Hrun.
  destruct (decide (k = id src)) as [->|Hne].
  - assert (entry_of (match r1 with
                      | Returned _ => for_each R (publish_source R mode) sources σ1
                      | Raised => (Raised, σ1)
                      end).2 (id src) = s1) as E.
    { destruct r1 as [[]|]; cbn [snd]; [|apply (entry_of_insert σ σ1 _ s1 Hst)].
      destruct (for_each_publish R mode sources σ1)
        as (r & σ' & log & calls & Hrun' & _ & _ & _ & _ & _ & Hframe & _).
      rewrite Hrun'. cbn [snd].
      rewrite (entry_of_ext σ1 σ' _ (Hframe _ Hfresh)).
      apply (entry_of_insert σ σ1 _ s1 Hst). }
    cbv zeta.
    replace (let '(r, σ'') := (r1, σ1) in
             match r with
             | Returned a => (fun _ : unit => for_each R (publish_source R mode) sources) a σ''
             | Raised => (Raised, σ'')
             end)
      with (match r1 with
            | Returned _ => for_each R (publish_source R mode) sources σ1
            | Raised => (Raised, σ1)
            end) by (destruct r1; reflexivity).
    rewrite E. destruct Hout as [->|(l & Hl & ->)]; [left; reflexivity|].
    right. exists l. auto.
  - assert (entry_of σ1 k = entry_of σ k) as <-
      by (apply entry_of_ext; rewrite Hst; apply lookup_insert_ne; congruence).
    destruct r1 as [[]|]; [apply (IH σ1 Hnd) | left; reflexivity].
Qed.

End OncePerRun.

(** X17.  When the configured sources have distinct ids, a run of [main]
    publishes at most one link per source: the sent history of every source
    is afterwards what it was (empty for a source seen for the first time),
    or that history with one non-empty link appended, cut to its last 5000
    entries. *)
Theorem main_appends_at_most_one (R : Runtime) (mode : str)
    (sources : list Source) (σ : Store R) (k : str) :
  NoDup (id <$> sources) ->
  let σ' := (main R mode sources σ).2 in
  sent_urls (entry_of σ' k) = sent_urls (entry_of σ k)
  \/ exists l, l <> []
               /\ sent_urls (entry_of σ' k) = last_k 5000 (sent_urls (entry_of σ k) ++ [l]).
Proof.
  intros Hnd. cbv zeta. unfold main, bind.
  destruct (for_each_refresh R sources σ) as (σ1 & log1 & Hrun1 & _).
  pose proof (for_each_refresh_sent R sources σ k) as Hsent. rewrite Hrun1 in *.
  cbn [snd] in Hsent. rewrite <- Hsent.
  apply (for_each_publish_once R mode sources σ1 k Hnd).
Qed.

Lemma main_appends_at_most_one_witness :
  sent_urls (entry_of (main leibal_web (lit "evening") [leibal]
                         (empty_store leibal_web tt)).2 (lit "leibal"))
  = [url_b].
Proof.
  destruct (main_appends_at_most_one leibal_web (lit "evening") [leibal]
              (empty_store leibal_web tt) (lit "leibal")) as [H|(l & _ & H)].
  - repeat constructor. intros Hin. inversion Hin.
  - vm_compute. reflexivity.
  - vm_compute. reflexivity.
Defined.

(* ===================================================================== *)
(** * The source list *)
(* ===================================================================== *)

(** ** Stripping *)

Lemma lstrip_by_length f s : (length (lstrip_by f s) <= length s)%nat.
Proof.
  induction s as [|c s IH]; cbn [lstrip_by]; [lia|].
  destruct (f c); cbn [length]; lia.
Qed.

Lemma rstrip_by_length f s : (length (rstrip_by f s) <= length s)%nat.
Proof.
  destruct (rstrip_by_split f s) as (t & Hs & _).
  rewrite Hs at 2. rewrite length_app. lia.
Qed.

Lemma lstrip_by_all f a s :
  forallb f a = true -> lstrip_by f (a ++ s) = lstrip_by f s.
Proof.
  induction a as [|c a IH]; cbn [forallb app lstrip_by]; [trivial|].
  intros [-> Ha]%andb_prop. auto.
Qed.

Lemma rstrip_by_all f s a :
  forallb f a = true -> rstrip_by f (s ++ a) = rstrip_by f s.
Proof.
  revert s. induction a as [|c a IH]; intros s; cbn [forallb].
  - rewrite app_nil_r. trivial.
  - intros [Hc Ha]%andb_prop.
    change (c :: a) with ([c] ++ a). rewrite app_assoc, IH by exact Ha.
    rewrite rstrip_by_snoc, Hc. reflexivity.
Qed.

Lemma rstrip_by_app f a b :
  rstrip_by f b <> [] -> rstrip_by f (a ++ b) = a ++ rstrip_by f b.
Proof.
  intros Hb. induction a as [|c a IH]; cbn [app rstrip_by]; [reflexivity|].
  rewrite IH. destruct (a ++ rstrip_by f b) eqn:E; [|reflexivity].
  apply app_eq_nil in E as [_ E]. contradiction.
Qed.

Lemma rstrip_by_idem f s : rstrip_by f (rstrip_by f s) = rstrip_by f s.
Proof.
  induction s as [|c s IH]; cbn [rstrip_by]; [reflexivity|].
  destruct (rstrip_by f s) as [|y r] eqn:E.
  - destruct (f c) eqn:Hc; cbn [rstrip_by]; [reflexivity|].
    rewrite Hc. reflexivity.
  - cbn [rstrip_by]. cbn [rstrip_by] in IH. rewrite IH. reflexivity.
Qed.

Lemma lstrip_by_rstrip_by f s :
  lstrip_by f (rstrip_by f s) = rstrip_by f (lstrip_by f s).
Proof.
  induction s as [|c s IH]; [reflexivity|].
  cbn [lstrip_by]. destruct (f c) eqn:Hc.
  - rewrite <- IH. cbn [rstrip_by].
    destruct (rstrip_by f s) as [|y r]; [rewrite Hc; reflexivity|].
    cbn [lstrip_by]. rewrite Hc. reflexivity.
  - cbn [rstrip_by].
    destruct (rstrip_by f s) as [|y r]; [rewrite Hc|];
      cbn [lstrip_by]; rewrite Hc; reflexivity.
Qed.

Lemma strip_by_rstrip_by f s : strip_by f (rstrip_by f s) = strip_by f s.
Proof.
  unfold strip_by. rewrite lstrip_by_rstrip_by, rstrip_by_idem. reflexivity.
Qed.

(** A text that stripping leaves alone is left alone by both halves. *)
Lemma strip_by_fixed f v :
  strip_by f v = v -> lstrip_by f v = v /\ rstrip_by f v = v.
Proof.
  unfold strip_by. intros H.
  assert (Hl : lstrip_by f v = v).
  { destruct v as [|c v]; [reflexivity|]. cbn [lstrip_by] in *.
    destruct (f c); [|reflexivity]. exfalso.
    pose proof (rstrip_by_length f (lstrip_by f v)) as H1.
    pose proof (lstrip_by_length f v) as H2.
    rewrite H in H1. cbn [length] in H1. lia. }
  split; [exact Hl|]. rewrite Hl in H. exact H.
Qed.

(** Stripping takes a pair of characters of its class off a fixed text,
    and leaves alone a text between two characters outside its class. *)
Lemma strip_by_wrap f c v :
  f c = true -> strip_by f v = v -> strip_by f (c :: v ++ [c]) = v.
Proof.
  intros Hc [Hl Hr]%strip_by_fixed. unfold strip_by.
  cbn [lstrip_by]. rewrite Hc.
  destruct v as [|x v].
  - cbn. rewrite Hc. reflexivity.
  - cbn [lstrip_by app] in *. destruct (f x) eqn:Hx.
    + exfalso. pose proof (lstrip_by_length f v) as H.
      rewrite Hl in H. cbn [length] in H. lia.
    + change (x :: v ++ [c]) with ((x :: v) ++ [c]).
      rewrite rstrip_by_snoc, Hc. exact Hr.
Qed.

Lemma strip_by_between f c v :
  f c = false -> strip_by f (c :: v ++ [c]) = c :: v ++ [c].
Proof.
  intros Hc. unfold strip_by. cbn [lstrip_by]. rewrite Hc.
  change (c :: v ++ [c]) with ((c :: v) ++ [c]).
  rewrite rstrip_by_snoc, Hc. reflexivity.
Qed.

Lemma strip_lead a s :
  forallb isspace a = true -> strip (a ++ s) = strip s.
Proof.
  intros Ha. unfold strip, lstrip. rewrite lstrip_by_all by exact Ha.
  reflexivity.
Qed.

Lemma strip_trail s a :
  forallb isspace a = true -> strip (s ++ a) = strip s.
Proof.
  intros Ha. change strip with (strip_by isspace). unfold strip_by.
  rewrite <- !lstrip_by_rstrip_by, rstrip_by_all by exact Ha. reflexivity.
Qed.

Lemma strip_rstrip s : strip (rstrip s) = strip s.
Proof. apply (strip_by_rstrip_by isspace). Qed.

(** The value of a field written between the quotes [q]. *)
Lemma unquote_plain q v :
  q ∈ [[]; [chr_dquote]; [chr_squote]] -> plain v = true ->
  strip_by is_squote (strip_by is_dquote (strip (q ++ v ++ q))) = v.
Proof.
  intros Hq Hv. unfold plain in Hv.
  apply andb_prop in Hv as [Hv Hs]. apply andb_prop in Hv as [Hv Hd].
  apply andb_prop in Hv as [_ Hw].
  apply bool_decide_eq_true in Hw, Hd, Hs.
  change strip with (strip_by isspace) in *.
  rewrite !elem_of_cons in Hq. destruct Hq as [->|[->|[->|Hq]]].
  - cbn [app]. rewrite app_nil_r, Hw, Hd, Hs. reflexivity.
  - cbn [app]. rewrite strip_by_between by reflexivity.
    rewrite strip_by_wrap by (trivial || reflexivity). exact Hs.
  - cbn [app]. rewrite strip_by_between by reflexivity.
    rewrite strip_by_between by reflexivity.
    apply strip_by_wrap; [reflexivity | exact Hs].
  - inversion Hq.
Qed.

(** ** One line *)

Lemma before_app f k c r :
  forallb (fun x => negb (f x)) k = true -> f c = true ->
  before f (k ++ c :: r) = k.
Proof.
  intros Hk Hc. induction k as [|x k IH]; cbn [app before].
  - rewrite Hc. reflexivity.
  - cbn [forallb] in Hk. apply andb_prop in Hk as [Hx Hk].
    apply negb_true_iff in Hx. rewrite Hx, IH by exact Hk. reflexivity.
Qed.

Lemma after_app f k c r :
  forallb (fun x => negb (f x)) k = true -> f c = true ->
  after f (k ++ c :: r) = r.
Proof.
  intros Hk Hc. induction k as [|x k IH]; cbn [app after].
  - rewrite Hc. reflexivity.
  - cbn [forallb] in Hk. apply andb_prop in Hk as [Hx Hk].
    apply negb_true_iff in Hx. rewrite Hx, IH by exact Hk. reflexivity.
Qed.

(** A key as the file writes them: it starts with a character that is
    neither whitespace nor [#], holds no colon, and does not end with
    whitespace. *)
Lemma strip_key_line pad k0 key w :
  forallb isspace pad = true -> isspace k0 = false ->
  strip (pad ++ (k0 :: key) ++ chr_colon :: w) = (k0 :: key) ++ chr_colon :: rstrip w.
Proof.
  intros Hpad H0. rewrite strip_lead by exact Hpad.
  unfold strip, lstrip. cbn [app lstrip_by]. rewrite H0.
  change (k0 :: key ++ chr_colon :: w) with ((k0 :: key) ++ chr_colon :: w).
  unfold rstrip. rewrite rstrip_by_keep by reflexivity. reflexivity.
Qed.

Lemma read_line_entry data pad k0 key w :
  forallb isspace pad = true ->
  isspace k0 = false -> k0 <> chr_hash ->
  forallb (fun x => negb (is_colon x)) (k0 :: key) = true ->
  strip (k0 :: key) = k0 :: key ->
  read_line data (strip (pad ++ (k0 :: key) ++ chr_colon :: w))
  = <[k0 :: key := strip_by is_squote (strip_by is_dquote (strip w))]> data.
Proof.
  intros Hpad H0 Hh Hk Hs. rewrite strip_key_line by assumption.
  unfold read_line.
  replace (strip_prefix (lit "#") ((k0 :: key) ++ chr_colon :: rstrip w))
    with (@None (list N)).
  2:{ change (lit "#") with [chr_hash]. cbn [app strip_prefix].
      destruct (N.eqb_spec chr_hash k0) as [E|_]; [|reflexivity].
      symmetry in E. contradiction. }
  replace (contains (lit ":") ((k0 :: key) ++ chr_colon :: rstrip w)) with true.
  2:{ symmetry. change (lit ":") with [chr_colon]. apply contains_char.
      apply elem_of_app. right. left. }
  rewrite before_app, after_app by (exact Hk || reflexivity).
  rewrite Hs, strip_rstrip. reflexivity.
Qed.

(** ** The lines of a block *)

Lemma splitlines_from_plain cur a s :
  forallb (fun c => negb (is_linebreak c)) a = true ->
  splitlines_from false cur (a ++ s) = splitlines_from false (cur ++ a) s.
Proof.
  revert cur. induction a as [|c a IH]; intros cur; cbn [forallb app].
  - rewrite app_nil_r. trivial.
  - intros [Hc Ha]%andb_prop. apply negb_true_iff in Hc.
    cbn [splitlines_from andb]. rewrite Hc, IH by exact Ha.
    rewrite <- app_assoc. reflexivity.
Qed.

Lemma splitlines_one a :
  forallb (fun c => negb (is_linebreak c)) a = true -> a <> [] ->
  splitlines a = [a].
Proof.
  intros Ha Hne. unfold splitlines.
  rewrite <- (app_nil_r a) at 1. rewrite splitlines_from_plain by exact Ha.
  cbn [app splitlines_from]. destruct a; [contradiction | reflexivity].
Qed.

Lemma splitlines_cons a s :
  forallb (fun c => negb (is_linebreak c)) a = true ->
  splitlines (a ++ chr_lf :: s) = a :: splitlines s.
Proof.
  intros Ha. unfold splitlines. rewrite splitlines_from_plain by exact Ha.
  reflexivity.
Qed.

Lemma stripped_nonblank_cons a l :
  strip a <> [] -> stripped_nonblank (a :: l) = strip a :: stripped_nonblank l.
Proof.
  intros Ha. unfold stripped_nonblank. cbn [fmap list_fmap].
  rewrite filter_cons_True by exact Ha. reflexivity.
Qed.

Lemma stripped_nonblank_blank a l :
  strip a = [] -> stripped_nonblank (a :: l) = stripped_nonblank l.
Proof.
  intros Ha. unfold stripped_nonblank. cbn [fmap list_fmap].
  rewrite filter_cons_False; [reflexivity|]. intros H. exact (H Ha).
Qed.

Lemma rstrip_by_cons_nonnil f c s : f c = false -> rstrip_by f (c :: s) <> [].
Proof.
  intros Hc. cbn [rstrip_by]. destruct (rstrip_by f s); [rewrite Hc|]; discriminate.
Qed.

Lemma forallb_app_true {A} (f : A -> bool) l1 l2 :
  forallb f (l1 ++ l2) = true <-> forallb f l1 = true /\ forallb f l2 = true.
Proof. rewrite forallb_app. apply andb_true_iff. Qed.

Lemma forallb_subseteq {A} (f : A -> bool) l1 l2 :
  (forall x, x ∈ l1 -> x ∈ l2) -> forallb f l2 = true -> forallb f l1 = true.
Proof.
  intros Hsub H. apply forallb_forall. intros x Hx%list_elem_of_In.
  rewrite forallb_forall in H. apply H, list_elem_of_In, Hsub, Hx.
Qed.


Lemma join_cons2 sep x y l :
  join sep (x :: y :: l) = x ++ sep ++ join sep (y :: l).
Proof. reflexivity. Qed.

Lemma join_key_lines_head kw kws :
  key_line kw ->
  exists k0 r, join line_sep (line_text <$> kw :: kws) = k0 :: r
               /\ isspace k0 = false.
Proof.
  intros (k0 & key & Hk & H0 & _). destruct kw as [k w]. cbn [fst] in Hk.
  subst k. destruct kws as [|kw2 kws].
  - exists k0, (key ++ chr_colon :: w). split; [reflexivity | exact H0].
  - cbn [fmap list_fmap]. rewrite join_cons2. unfold line_text at 1.
    cbn [fst snd app]. eexists k0, _. split; [reflexivity | exact H0].
Qed.

Lemma block_lines_data kws : forall pad d,
  kws <> [] ->
  forallb isspace pad = true ->
  forallb (fun c => negb (is_linebreak c)) pad = true ->
  Forall key_line kws ->
  foldl read_line d
    (stripped_nonblank
       (splitlines (pad ++ rstrip (join line_sep (line_text <$> kws)))))
  = data_of d kws.
Proof.
  induction kws as [|kw kws IH]; intros pad d Hne Hpad Hlb Hall;
    [contradiction|].
  apply Forall_cons in Hall as [Hkw Hall].
  pose proof Hkw as (k0 & key & Hk & H0 & Hh & Hc & Hs & Hl).
  destruct kw as [k w]. cbn [fst snd] in Hk, Hl. subst k.
  apply forallb_app_true in Hl as [Hlk Hlw].
  destruct kws as [|kw2 kws].
  - cbn [fmap list_fmap join]. unfold line_text. cbn [fst snd].
    unfold rstrip. rewrite rstrip_by_keep by reflexivity.
    rewrite splitlines_one.
    + rewrite stripped_nonblank_cons.
      * cbn [stripped_nonblank fmap list_fmap filter list_filter foldl].
        rewrite read_line_entry by assumption.
        change (rstrip_by isspace w) with (rstrip w). rewrite strip_rstrip.
        reflexivity.
      * rewrite strip_key_line by assumption. discriminate.
    + apply forallb_app_true. split; [exact Hlb|].
      apply forallb_app_true. split; [exact Hlk|].
      cbn [forallb]. apply andb_true_intro. split; [reflexivity|].
      eapply forallb_subseteq; [|exact Hlw].
      intros x. apply rstrip_by_subseteq.
    + destruct pad; discriminate.
  - cbn [fmap list_fmap]. rewrite join_cons2.
    apply Forall_cons in Hall as [Hkw2 Hall].
    destruct (join_key_lines_head kw2 kws Hkw2) as (j0 & r & HJ & Hj0).
    change (line_text <$> kw2 :: kws) with (line_text kw2 :: (line_text <$> kws)) in HJ.
    unfold rstrip. rewrite app_assoc, rstrip_by_app.
    2:{ change (list_fmap _ _ line_text kws) with (line_text <$> kws).
        rewrite HJ. apply rstrip_by_cons_nonnil, Hj0. }
    unfold line_sep at 1. rewrite <- !app_assoc. cbn [app].
    rewrite !app_assoc. rewrite splitlines_cons.
    2:{ apply forallb_app_true. split; [exact Hlb|]. unfold line_text.
        cbn [fst snd]. apply forallb_app_true. split; [exact Hlk|].
        cbn [forallb]. apply andb_true_intro. split; [reflexivity | exact Hlw]. }
    rewrite stripped_nonblank_cons.
    2:{ unfold line_text. cbn [fst snd].
        rewrite strip_key_line by assumption. discriminate. }
    cbn [foldl]. unfold line_text at 1. cbn [fst snd].
    rewrite read_line_entry by assumption.
    change (list_fmap _ _ line_text kws) with (line_text <$> kws).
    change (line_text kw2 :: (line_text <$> kws)) with (line_text <$> kw2 :: kws).
    change (rstrip_by isspace ?x) with (rstrip x).
    rewrite (IH (lit "  ")); [reflexivity | discriminate | reflexivity | reflexivity|].
    apply Forall_cons. split; assumption.
Qed.

(** ** One entry *)

Lemma plain_spec v :
  plain v = true ->
  forallb (fun c => negb (is_linebreak c)) v = true.
Proof.
  unfold plain. intros H. repeat (apply andb_prop in H as [H _]). exact H.
Qed.

Lemma quote_no_linebreak q :
  q ∈ [[]; [chr_dquote]; [chr_squote]] ->
  forallb (fun c => negb (is_linebreak c)) q = true.
Proof.
  rewrite !elem_of_cons. intros [->|[->|[->|H]]]; [reflexivity..|inversion H].
Qed.

(** The lines of an entry, as keys and texts after the colon. *)
Lemma entry_body_lines q e :
  entry_body q e
  = join line_sep
      (line_text <$> ((fun kv => (kv.1, chr_space :: q ++ kv.2 ++ q))
                      <$> entry_fields e)).
Proof.
  unfold entry_body. rewrite <- list_fmap_compose. reflexivity.
Qed.

Lemma entry_key_lines q e :
  q ∈ [[]; [chr_dquote]; [chr_squote]] -> plain_source e.2 = true ->
  Forall key_line ((fun kv => (kv.1, chr_space :: q ++ kv.2 ++ q))
                   <$> entry_fields e).
Proof.
  intros Hq Hp. unfold plain_source in Hp.
  apply andb_prop in Hp as [Hp Hg]. apply andb_prop in Hp as [Hp Hu].
  apply andb_prop in Hp as [Hi Hn].
  apply plain_spec in Hi, Hn, Hu, Hg. apply quote_no_linebreak in Hq.
  assert (Hline : forall k0 key v,
            isspace k0 = false -> k0 <> chr_hash ->
            forallb (fun x => negb (is_colon x)) (k0 :: key) = true ->
            strip (k0 :: key) = k0 :: key ->
            forallb (fun c => negb (is_linebreak c)) (k0 :: key) = true ->
            forallb (fun c => negb (is_linebreak c)) v = true ->
            key_line (k0 :: key, chr_space :: q ++ v ++ q)).
  { intros k0 key v H0 Hh Hc Hs Hk Hv. exists k0, key.
    repeat split; try assumption. cbn [fst snd].
    apply forallb_app_true. split; [exact Hk|].
    cbn [forallb]. apply andb_true_intro. split; [reflexivity|].
    apply forallb_app_true. split; [exact Hq|].
    apply forallb_app_true. split; [exact Hv | exact Hq]. }
  destruct e as [b s]. cbn [fst snd] in *. unfold entry_fields. cbn [fst snd].
  rewrite fmap_app. apply Forall_app. split.
  - repeat apply Forall_cons_2; [| | |apply Forall_nil_2];
      (apply Hline; [reflexivity | discriminate | reflexivity | reflexivity
                     | reflexivity | assumption]).
  - destruct b; [|apply Forall_nil_2].
    apply Forall_cons_2; [|apply Forall_nil_2].
    apply Hline; [reflexivity | discriminate | reflexivity | reflexivity
                  | reflexivity | assumption].
Qed.

Lemma entry_body_head q e :
  exists r, entry_body q e = 105 :: r.
Proof.
  destruct e as [[] s]; unfold entry_body, entry_fields;
    cbn [fst snd app fmap list_fmap join]; unfold entry_line;
    change (lit "id") with [105; 100]; cbn [app]; eexists; reflexivity.
Qed.

Lemma plain_value q v :
  q ∈ [[]; [chr_dquote]; [chr_squote]] -> plain v = true ->
  strip_by is_squote (strip_by is_dquote (strip (chr_space :: q ++ v ++ q))) = v.
Proof.
  intros Hq Hv. change (chr_space :: q ++ v ++ q) with ([chr_space] ++ q ++ v ++ q).
  rewrite (strip_lead [chr_space]) by reflexivity.
  apply unquote_plain; assumption.
Qed.

Lemma lit_neq (a b : string) : bool_decide (lit a = lit b) = false -> lit a <> lit b.
Proof. apply bool_decide_eq_false. Qed.

(** The block of an entry gives the entry's source. *)
Lemma entry_block_source q e :
  q ∈ [[]; [chr_dquote]; [chr_squote]] -> plain_source e.2 = true ->
  source_of_data (block_data (rstrip (entry_body q e))) = Returned (read_entry e).
Proof.
  intros Hq Hp. unfold block_data.
  rewrite entry_body_lines.
  pose proof (block_lines_data
                ((fun kv => (kv.1, chr_space :: q ++ kv.2 ++ q)) <$> entry_fields e)
                [] ∅) as Hdata.
  cbn [app] in Hdata. rewrite Hdata;
    [| destruct e as [[] s]; discriminate | reflexivity | reflexivity
     | apply entry_key_lines; assumption ].
  clear Hdata.
  unfold plain_source in Hp.
  apply andb_prop in Hp as [Hp Hg]. apply andb_prop in Hp as [Hp Hu].
  apply andb_prop in Hp as [Hi Hn].
  pose proof (lit_neq "id" "name" eq_refl) as N1.
  pose proof (lit_neq "id" "list_url" eq_refl) as N2.
  pose proof (lit_neq "id" "paging" eq_refl) as N3.
  pose proof (lit_neq "name" "list_url" eq_refl) as N4.
  pose proof (lit_neq "name" "paging" eq_refl) as N5.
  pose proof (lit_neq "list_url" "paging" eq_refl) as N6.
  destruct e as [b s]. cbn [fst snd] in *.
  unfold entry_fields, data_of. cbn [fst snd].
  destruct b; cbn [app fmap list_fmap foldl fst snd];
    rewrite !plain_value by assumption; unfold source_of_data.
  - rewrite (lookup_insert_ne _ (lit "paging") (lit "id")) by (symmetry; exact N3).
    rewrite (lookup_insert_ne _ (lit "list_url") (lit "id")) by (symmetry; exact N2).
    rewrite (lookup_insert_ne _ (lit "name") (lit "id")) by (symmetry; exact N1).
    rewrite lookup_insert_eq.
    rewrite (lookup_insert_ne _ (lit "paging") (lit "name")) by (symmetry; exact N5).
    rewrite (lookup_insert_ne _ (lit "list_url") (lit "name")) by (symmetry; exact N4).
    rewrite lookup_insert_eq.
    rewrite (lookup_insert_ne _ (lit "paging") (lit "list_url")) by (symmetry; exact N6).
    rewrite !lookup_insert_eq. cbn [default read_entry fst snd].
    destruct s; reflexivity.
  - rewrite (lookup_insert_ne _ (lit "list_url") (lit "id")) by (symmetry; exact N2).
    rewrite (lookup_insert_ne _ (lit "name") (lit "id")) by (symmetry; exact N1).
    rewrite lookup_insert_eq.
    rewrite (lookup_insert_ne _ (lit "list_url") (lit "name")) by (symmetry; exact N4).
    rewrite lookup_insert_eq.
    rewrite lookup_insert_eq.
    rewrite (lookup_insert_ne _ (lit "list_url") (lit "paging")) by exact N6.
    rewrite (lookup_insert_ne _ (lit "name") (lit "paging")) by exact N5.
    rewrite (lookup_insert_ne _ (lit "id") (lit "paging")) by exact N3.
    rewrite lookup_empty. reflexivity.
Qed.

(** ** The blocks of the file *)

Lemma py_split_plain cur a s :
  forallb (fun c => negb (is_linebreak c)) a = true ->
  py_split_from entry_sep 0 cur (a ++ s)
  = py_split_from entry_sep 0 (cur ++ a) s.
Proof.
  revert cur. induction a as [|c a IH]; intros cur; cbn [forallb app].
  - rewrite app_nil_r. trivial.
  - intros [Hc Ha]%andb_prop. apply negb_true_iff in Hc.
    cbn [py_split_from]. unfold entry_sep at 1. cbn [strip_prefix].
    destruct (N.eqb_spec chr_lf c) as [<-|_]; [discriminate Hc|].
    rewrite IH by exact Ha. rewrite <- app_assoc. reflexivity.
Qed.

Lemma py_split_line_sep cur s :
  py_split_from entry_sep 0 cur (line_sep ++ s)
  = py_split_from entry_sep 0 (cur ++ line_sep) s.
Proof.
  change (line_sep ++ s) with (chr_lf :: ([chr_space; chr_space] ++ s)).
  change (py_split_from entry_sep 0 cur (chr_lf :: ([chr_space; chr_space] ++ s)))
    with (py_split_from entry_sep 0 (cur ++ [chr_lf]) ([chr_space; chr_space] ++ s)).
  rewrite py_split_plain by reflexivity. rewrite <- app_assoc. reflexivity.
Qed.

Lemma py_split_lines cur lines s :
  Forall (fun l => forallb (fun c => negb (is_linebreak c)) l = true) lines ->
  py_split_from entry_sep 0 cur (join line_sep lines ++ s)
  = py_split_from entry_sep 0 (cur ++ join line_sep lines) s.
Proof.
  revert cur. induction lines as [|x lines IH]; intros cur Hall.
  - cbn [join app]. rewrite app_nil_r. reflexivity.
  - apply Forall_cons in Hall as [Hx Hall]. destruct lines as [|y lines].
    + cbn [join]. apply py_split_plain, Hx.
    + rewrite join_cons2, <- !app_assoc.
      rewrite py_split_plain by exact Hx.
      rewrite py_split_line_sep, IH by exact Hall.
      rewrite <- !app_assoc. reflexivity.
Qed.

Lemma key_line_no_linebreak kw :
  key_line kw -> forallb (fun c => negb (is_linebreak c)) (line_text kw) = true.
Proof.
  intros (k0 & key & Hk & _ & _ & _ & _ & Hl). unfold line_text.
  apply forallb_app_true in Hl as [H1 H2]. apply forallb_app_true.
  split; [exact H1|]. cbn [forallb]. rewrite H2. reflexivity.
Qed.

Lemma py_split_entry_body q e cur s :
  q ∈ [[]; [chr_dquote]; [chr_squote]] -> plain_source e.2 = true ->
  py_split_from entry_sep 0 cur (entry_body q e ++ s)
  = py_split_from entry_sep 0 (cur ++ entry_body q e) s.
Proof.
  intros Hq Hp. rewrite entry_body_lines. apply py_split_lines.
  apply Forall_fmap. eapply Forall_impl; [apply entry_key_lines; eassumption|].
  intros kw. apply key_line_no_linebreak.
Qed.

Lemma render_cons q e es :
  render q (e :: es) = lit "- " ++ entry_body q e ++ [chr_lf] ++ render q es.
Proof.
  unfold render. cbn [fmap list_fmap concat]. unfold render_entry.
  rewrite <- !app_assoc. reflexivity.
Qed.

(** The pieces of a rendered file: the body of each entry, the first one
    still with its dash and the last one with the final line feed. *)
Lemma py_split_entries q e es cur :
  q ∈ [[]; [chr_dquote]; [chr_squote]] -> plain_source e.2 = true ->
  py_split_from entry_sep 0 cur (entry_body q e ++ [chr_lf] ++ render q es)
  = match es with
    | [] => [cur ++ entry_body q e ++ [chr_lf]]
    | e2 :: es' =>
        (cur ++ entry_body q e)
          :: py_split_from entry_sep 0 []
               (entry_body q e2 ++ [chr_lf] ++ render q es')
    end.
Proof.
  intros Hq Hp. rewrite py_split_entry_body by assumption.
  destruct es as [|e2 es'].
  - unfold render. cbn [fmap list_fmap concat app]. rewrite app_assoc.
    reflexivity.
  - rewrite render_cons. reflexivity.
Qed.

Lemma entry_body_rstrip_nonnil q e : rstrip (entry_body q e) <> [].
Proof.
  destruct (entry_body_head q e) as [r ->].
  apply rstrip_by_cons_nonnil. reflexivity.
Qed.

(** The block that the reader makes of a piece. *)
Lemma entry_piece_block q e i cur t :
  (i = 0%nat /\ cur = lit "- ") \/ (i <> 0%nat /\ cur = []) ->
  forallb isspace t = true ->
  strip (cur ++ entry_body q e ++ t) = cur ++ rstrip (entry_body q e)
  /\ first_block i (cur ++ rstrip (entry_body q e)) = rstrip (entry_body q e).
Proof.
  intros Hi Ht. rewrite app_assoc, strip_trail by exact Ht.
  pose proof (entry_body_rstrip_nonnil q e) as Hne.
  destruct (entry_body_head q e) as [r Hr].
  destruct Hi as [[-> ->]|[Hi ->]].
  - split.
    + unfold strip, lstrip. change (lit "- ") with [chr_minus; chr_space].
      cbn [app lstrip_by]. change (isspace chr_minus) with false. cbn iota.
      change (chr_minus :: chr_space :: entry_body q e)
        with ([chr_minus; chr_space] ++ entry_body q e).
      unfold rstrip. rewrite rstrip_by_app by exact Hne. reflexivity.
    + cbn [first_block].
      replace (strip_prefix (lit "- ") (lit "- " ++ rstrip (entry_body q e)))
        with (Some (rstrip (entry_body q e))); [reflexivity|].
      symmetry. apply strip_prefix_Some. reflexivity.
  - cbn [app]. split.
    + unfold strip, lstrip. rewrite Hr. cbn [lstrip_by].
      change (isspace 105) with false. cbn iota. reflexivity.
    + destruct i; [contradiction | reflexivity].
Qed.

Lemma load_entries q es : forall e i cur,
  q ∈ [[]; [chr_dquote]; [chr_squote]] ->
  Forall (fun e => plain_source e.2 = true) (e :: es) ->
  (i = 0%nat /\ cur = lit "- ") \/ (i <> 0%nat /\ cur = []) ->
  load_blocks i
    (stripped_nonblank
       (py_split_from entry_sep 0 cur
          (entry_body q e ++ [chr_lf] ++ render q es)))
  = Returned (read_entry <$> e :: es).
Proof.
  induction es as [|e2 es IH]; intros e i cur Hq Hall Hi;
    apply Forall_cons in Hall as [Hp Hall];
    rewrite py_split_entries by assumption.
  - destruct (entry_piece_block q e i cur [chr_lf] Hi eq_refl) as [Hs Hb].
    rewrite stripped_nonblank_cons; rewrite Hs.
    2:{ intros [_ H]%app_eq_nil. exact (entry_body_rstrip_nonnil q e H). }
    cbn [stripped_nonblank fmap list_fmap filter list_filter load_blocks].
    rewrite Hb, entry_block_source by assumption. reflexivity.
  - destruct (entry_piece_block q e i cur [] Hi eq_refl) as [Hs Hb].
    rewrite app_nil_r in Hs.
    rewrite stripped_nonblank_cons; rewrite Hs.
    2:{ intros [_ H]%app_eq_nil. exact (entry_body_rstrip_nonnil q e H). }
    cbn [load_blocks]. rewrite Hb, entry_block_source by assumption.
    rewrite (IH e2 (S i) []); [reflexivity | exact Hq | exact Hall|].
    right. split; [discriminate | reflexivity].
Qed.

(** X18.  [load_sources] reads back a file written in the layout it
    expects.  Take any list of sources whose fields are each on one line,
    without surrounding whitespace and without a quote at either end, and
    write one entry per source: a dash, then a line [key: value] for [id],
    [name], [list_url] and, optionally, [paging], the values bare, between
    double quotes or between single quotes.  Then [load_sources] returns
    exactly these sources, in order, with the strategy ["wp_page"] for the
    entries written without a [paging] line.  Colons, [#] and quotes
    inside a value are kept as they are. *)
Theorem load_sources_reads_entries (q : str) (entries : list (bool * Source)) :
  q ∈ [[]; [chr_dquote]; [chr_squote]] ->
  Forall (fun e => plain_source e.2 = true) entries ->
  load_sources (render q entries) = Returned (read_entry <$> entries).
Proof.
  intros Hq Hall. destruct entries as [|e es]; [reflexivity|].
  unfold load_sources, py_split. rewrite render_cons.
  rewrite (py_split_plain [] (lit "- ")) by reflexivity.
  apply load_entries; [exact Hq | exact Hall|].
  left. split; reflexivity.
Qed.

Lemma load_sources_reads_entries_witness :
  load_sources (render [chr_dquote] [(true, archdaily_paged); (false, leibal)])
  = Returned [archdaily_paged;
              {| id := id leibal; name := name leibal;
                 list_url := list_url leibal; paging := lit "wp_page" |}].
Proof.
  apply (load_sources_reads_entries [chr_dquote]
           [(true, archdaily_paged); (false, leibal)]).
  - right. left.
  - repeat constructor.
Defined.

(** ** Blocks without a required key *)

Lemma contains_app_l sub a s :
  contains sub s = true -> contains sub (a ++ s) = true.
Proof.
  intros (x & y & ->)%contains_true. apply contains_true.
  exists (a ++ x), y. rewrite <- app_assoc. reflexivity.
Qed.

Lemma contains_app_r sub s b :
  contains sub s = true -> contains sub (s ++ b) = true.
Proof. apply contains_prefix. exists b. reflexivity. Qed.

Lemma lstrip_by_suffix f s : lstrip_by f s `suffix_of` s.
Proof.
  induction s as [|c s IH]; cbn [lstrip_by]; [reflexivity|].
  destruct (f c); [apply suffix_cons_r, IH | reflexivity].
Qed.

Lemma contains_lstrip_by_inv f sub s :
  contains sub (lstrip_by f s) = true -> contains sub s = true.
Proof.
  destruct (lstrip_by_suffix f s) as [k Hk]. intros H.
  rewrite Hk. apply contains_app_l, H.
Qed.

Lemma contains_rstrip_by_inv f sub s :
  contains sub (rstrip_by f s) = true -> contains sub s = true.
Proof.
  destruct (rstrip_by_split f s) as (t & Hs & _). intros H.
  rewrite Hs. apply contains_app_r, H.
Qed.

Lemma contains_strip_inv sub s :
  contains sub (strip s) = true -> contains sub s = true.
Proof.
  unfold strip, rstrip, lstrip.
  intros H%contains_rstrip_by_inv%contains_lstrip_by_inv. exact H.
Qed.

Lemma contains_before_inv f sub s :
  contains sub (before f s) = true -> contains sub s = true.
Proof. apply contains_prefix, before_prefix. Qed.

Lemma contains_first_block_inv sub i s :
  contains sub (first_block i s) = true -> contains sub s = true.
Proof.
  destruct i as [|i]; cbn [first_block]; [|trivial].
  destruct (strip_prefix (lit "- ") s) as [r|] eqn:E; cbn [default]; [|trivial].
  apply strip_prefix_Some in E as ->. apply contains_app_l.
Qed.

Lemma contains_self sub : contains sub sub = true.
Proof. apply contains_true. exists [], []. rewrite app_nil_r. reflexivity. Qed.

(** A line of a text is a part of the text. *)
Lemma contains_splitlines_from_inv sub s : forall after_cr cur line,
  (after_cr = true -> cur = []) ->
  line ∈ splitlines_from after_cr cur s ->
  contains sub line = true -> contains sub (cur ++ s) = true.
Proof.
  induction s as [|c s IH]; intros after_cr cur line Hcr Hin Hsub.
  - cbn [splitlines_from] in Hin. rewrite app_nil_r.
    destruct cur as [|x cur]; [inversion Hin|].
    apply list_elem_of_singleton in Hin as ->. exact Hsub.
  - cbn [splitlines_from] in Hin.
    destruct (after_cr && (c =? chr_lf)) eqn:E1.
    + apply andb_prop in E1 as [-> _]. rewrite (Hcr eq_refl) in *.
      cbn [app]. apply (contains_app_l sub [c]).
      apply (IH false [] line); [discriminate | exact Hin | exact Hsub].
    + destruct (is_linebreak c).
      * apply elem_of_cons in Hin as [->|Hin].
        -- apply contains_app_r, Hsub.
        -- apply (contains_app_l sub cur), (contains_app_l sub [c]).
           apply (IH (c =? chr_cr) [] line); [trivial | exact Hin | exact Hsub].
      * rewrite (cons_middle c), app_assoc.
        apply (IH false (cur ++ [c]) line); [discriminate | exact Hin | exact Hsub].
Qed.

Lemma contains_line_inv sub block ln :
  ln ∈ stripped_nonblank (splitlines block) ->
  contains sub ln = true -> contains sub block = true.
Proof.
  unfold stripped_nonblank. intros [_ Hin]%list_elem_of_filter.
  apply list_elem_of_fmap in Hin as (l & -> & Hl).
  intros H%contains_strip_inv.
  apply (contains_splitlines_from_inv sub block false [] l);
    [discriminate | exact Hl | exact H].
Qed.

(** A key that occurs nowhere in the lines is not defined by them. *)
Lemma read_lines_without_key key lines : forall d,
  d !! key = None ->
  (forall ln, ln ∈ lines -> contains key ln = false) ->
  foldl read_line d lines !! key = None.
Proof.
  induction lines as [|ln lines IH]; intros d Hd Hno; [exact Hd|].
  cbn [foldl]. apply IH; [|intros l Hl; apply Hno; right; exact Hl].
  unfold read_line. destruct (strip_prefix (lit "#") ln); [exact Hd|].
  destruct (contains (lit ":") ln); [|exact Hd].
  rewrite lookup_insert_ne; [exact Hd|]. intros Hk.
  assert (contains key ln = true) as Hc.
  { apply (contains_before_inv is_colon), contains_strip_inv.
    rewrite Hk. apply contains_self. }
  rewrite (Hno ln) in Hc by left. discriminate.
Qed.

Lemma block_without_key key i block :
  key ∈ [lit "id"; lit "name"; lit "list_url"] ->
  contains key block = false ->
  source_of_data (block_data (first_block i block)) = Raised.
Proof.
  intros Hkey Hno.
  assert (block_data (first_block i block) !! key = None) as Hd.
  { unfold block_data. apply read_lines_without_key; [apply lookup_empty|].
    intros ln Hln. destruct (contains key ln) eqn:E; [|reflexivity].
    apply (contains_line_inv key) in Hln; [|exact E].
    apply contains_first_block_inv in Hln. congruence. }
  unfold source_of_data. rewrite !elem_of_cons in Hkey.
  destruct Hkey as [->|[->|[->|H]]]; [| | |inversion H]; rewrite Hd.
  - reflexivity.
  - destruct (_ !! lit "id"); reflexivity.
  - destruct (_ !! lit "id"); [destruct (_ !! lit "name")|]; reflexivity.
Qed.

Lemma load_blocks_raised blocks : forall i block,
  block ∈ blocks ->
  (forall j, source_of_data (block_data (first_block j block)) = Raised) ->
  load_blocks i blocks = Raised.
Proof.
  induction blocks as [|b blocks IH]; intros i block Hin Hr; [inversion Hin|].
  cbn [load_blocks]. apply elem_of_cons in Hin as [<-|Hin].
  - rewrite Hr. reflexivity.
  - destruct (source_of_data (block_data (first_block i b))); [|reflexivity].
    rewrite (IH (S i) block Hin Hr). reflexivity.
Qed.

(** X19.  Every piece of the file between two separators (a line feed, a
    dash and a space) that is not blank has to be an entry: when such a
    piece nowhere contains the text of one of the required keys [id],
    [name] and [list_url], [load_sources] raises ([KeyError]) instead of
    passing the piece over.  A comment line above the first entry is such
    a piece. *)
Theorem load_sources_piece_without_key (text piece key : str) :
  piece ∈ py_split entry_sep text ->
  strip piece <> [] ->
  key ∈ [lit "id"; lit "name"; lit "list_url"] ->
  contains key piece = false ->
  load_sources text = Raised.
Proof.
  intros Hin Hne Hkey Hno. unfold load_sources.
  apply (load_blocks_raised _ 0 (strip piece)).
  - unfold stripped_nonblank. apply list_elem_of_filter. split; [exact Hne|].
    apply list_elem_of_fmap. exists piece. split; [reflexivity | exact Hin].
  - intros j. apply (block_without_key key); [exact Hkey|].
    destruct (contains key (strip piece)) eqn:E; [|reflexivity].
    apply contains_strip_inv in E. congruence.
Qed.

Lemma load_sources_piece_without_key_witness :
  load_sources (lit "# sources" ++ [chr_lf] ++ render [] [(false, leibal)])
  = Raised.
Proof.
  apply (load_sources_piece_without_key _ (lit "# sources") (lit "id")).
  - vm_compute. left.
  - vm_compute. discriminate.
  - left.
  - vm_compute. reflexivity.
Defined.
